(** * Cartoon-story front end: retry, polling, merge and streaming logic

A shallow embedding of the client's generation-job logic:
- [Home]           the story page: per-scene retry with abort controllers,
                   "retry all failed", the streamed-generation consumer;
- [VideosDisplay]  the results view: retry guard, merge of all videos;
- [VeoGenerator]   the single-video flow and its status polling;
- [BulkGenerator]  validation of a bulk submission;
- [History]        the history view: merge selection and project merge.

JavaScript runs each handler between two [await]s without interruption,
so an asynchronous handler is modelled by its synchronous prefix and by
one resumption function per suspension point; what the outside world
answers (responses, clock) is an explicit input. *)

From Stdlib Require Import ZArith String Ascii List Permutation Sorted Lia DecimalString.
From Stdlib Require Import DecimalPos DecimalN.
From stdpp Require Import base gmap sets list strings sorting.

Open Scope string_scope.
Open Scope list_scope.

(** ** JavaScript values and array operations used by the handlers *)
Module JS.

(** An optional string property: [None] is [undefined]. *)
Definition truthy (o : option string) : bool :=
  match o with
  | Some s => negb (bool_decide (s = EmptyString))
  | None => false
  end.

(** [o || d] for an optional string [o]. *)
Definition orElse (o : option string) (d : string) : string :=
  match o with
  | Some s => if bool_decide (s = EmptyString) then d else s
  | None => d
  end.

(** [s.includes(c)] for a one-character needle. *)
Fixpoint includes (c : ascii) (s : string) : bool :=
  match s with
  | EmptyString => false
  | String x rest => if bool_decide (x = c) then true else includes c rest
  end.

(** What an awaited promise settles with. *)
Inductive Thrown :=
| ErrorObject (message : string)
| OtherValue.

Inductive Settled (A : Type) :=
| Resolved (value : A)
| Rejected (reason : Thrown).
Arguments Resolved {A} value.
Arguments Rejected {A} reason.

(** [Array.prototype.sort(compare)]: the sort is stable, so for a
    consistent comparator the result is the stable insertion of every
    element among the ones that follow it. *)
Section Sort.
Context {A : Type} (compare : A -> A -> Z).

Fixpoint insertSorted (x : A) (l : list A) : list A :=
  match l with
  | [] => [x]
  | y :: rest =>
      if (compare x y <=? 0)%Z then x :: y :: rest
      else y :: insertSorted x rest
  end.

Definition sort (l : list A) : list A := foldr insertSorted [] l.
End Sort.

(** Text whose characters matter one by one (prompts, stream records) is
    a sequence of UTF-16 code units. *)
Definition Text : Type := list N.

Definition text (s : string) : Text :=
  map N_of_ascii (list_ascii_of_string s).

(** White space and line terminators, as [trim] strips them. *)
Definition isWhiteSpace (c : N) : bool :=
  (bool_decide (c ∈ [9; 10; 11; 12; 13; 32; 160; 5760; 8232; 8233; 8239;
                      8287; 12288; 65279]%N)
   || ((8192 <=? c) && (c <=? 8202)))%N.

Fixpoint trimStart (t : Text) : Text :=
  match t with
  | c :: rest => if isWhiteSpace c then trimStart rest else t
  | [] => []
  end.

Definition trim (t : Text) : Text := rev (trimStart (rev (trimStart t))).

(** [t.split(sep)] for a one-unit separator: never empty, the last piece
    is what follows the last separator. *)
Fixpoint split (sep : N) (t : Text) : list Text :=
  match t with
  | [] => [[]]
  | c :: rest =>
      if bool_decide (c = sep) then [] :: split sep rest
      else match split sep rest with
           | piece :: pieces => (c :: piece) :: pieces
           | [] => [[c]]
           end
  end.

Definition newline : N := 10%N.

Fixpoint startsWith (p t : Text) : bool :=
  match p, t with
  | [], _ => true
  | _ :: _, [] => false
  | x :: p', y :: t' => bool_decide (x = y) && startsWith p' t'
  end.

(** JavaScript numbers are doubles. The numbers of this program are
    integers and are kept as [Z]; [toDouble z] is the double nearest to
    [z], ties going to the even significand, and [infinity] stands for
    the value Infinity, which every integer beyond the largest double
    rounds to. Numbers that are doubles compare as their integers do, and
    the sign of their difference is the sign of the difference of their
    integers (Infinity - Infinity is NaN, which a sort takes as 0). *)
Definition infinity : Z := (2 ^ 1024)%Z.

Definition toDouble (z : Z) : Z :=
  let m := Z.abs z in
  let bits := (Z.log2 m + 1)%Z in
  if (bits <=? 53)%Z then z
  else
    let shift := (bits - 53)%Z in
    let q := Z.shiftr m shift in
    let r := (m - Z.shiftl q shift)%Z in
    let half := Z.shiftl 1 (shift - 1) in
    let q' := if (half <? r)%Z || ((r =? half)%Z && Z.odd q) then (q + 1)%Z else q in
    (Z.sgn z * Z.min (Z.shiftl q' shift) infinity)%Z.

End JS.

(** ** The story page *)
Module Home.
Import JS.

Record Scene := {
  scene : Z;
  title : string;
  description : string;
}.

Record GeneratedVideo := {
  sceneNumber : Z;
  sceneTitle : string;
  videoUrl : option string;
  status : string;
  error : option string;
}.

(** The page state the retry handlers touch. An [AbortController] is
    represented by the number it was created under; [abortedSignals]
    holds the controllers whose signal is aborted. *)
Record State := {
  scenes : list Scene;
  generatedVideos : list GeneratedVideo;
  abortControllers : gmap Z nat;
  abortedSignals : gset nat;
  controllersCreated : nat;
}.

(** JSON bodies of the two endpoints, with the properties the page reads. *)
Record GenerateResult := {
  message : option string;
  operationName : option string;
  sceneId : option string;
}.

Record StatusData := {
  statusOf : option string;
  videoUrlOf : option string;
  errorOf : option string;
}.

Inductive Effect :=
| Toast (heading : string) (body : string) (destructive : bool)
| PostGenerateVideo (sc : Scene) (signal : nat)
| PostCheckVideoStatus (operation : option string) (sid : option string) (signal : nat)
| PostVideoHistory (prompt : string) (heading : string) (url : option string).

Definition maxAttempts : nat := 300.

(** Where a running [handleRetryVideo] is suspended. *)
Inductive Phase :=
| AwaitGenerate
| AwaitTimer (i : nat) (operation sid : option string)
| AwaitStatus (i : nat) (operation sid : option string).

Record Attempt := {
  retriedScene : Z;
  controller : nat;
  phase : Phase;
}.

Definition aborted (a : Attempt) (st : State) : bool :=
  bool_decide (controller a ∈ abortedSignals st).

Definition setGeneratedVideos (f : list GeneratedVideo -> list GeneratedVideo)
    (st : State) : State :=
  {| scenes := scenes st;
     generatedVideos := f (generatedVideos st);
     abortControllers := abortControllers st;
     abortedSignals := abortedSignals st;
     controllersCreated := controllersCreated st |}.

Definition markGenerating (n : Z) (v : GeneratedVideo) : GeneratedVideo :=
  if bool_decide (sceneNumber v = n) then
    {| sceneNumber := sceneNumber v; sceneTitle := sceneTitle v;
       videoUrl := videoUrl v; status := "generating"; error := None |}
  else v.

Definition markCompleted (n : Z) (url : option string) (v : GeneratedVideo)
    : GeneratedVideo :=
  if bool_decide (sceneNumber v = n) then
    {| sceneNumber := sceneNumber v; sceneTitle := sceneTitle v;
       videoUrl := url; status := "completed"; error := None |}
  else v.

Definition markFailed (n : Z) (msg : string) (v : GeneratedVideo)
    : GeneratedVideo :=
  if bool_decide (sceneNumber v = n) then
    {| sceneNumber := sceneNumber v; sceneTitle := sceneTitle v;
       videoUrl := videoUrl v; status := "failed"; error := Some msg |}
  else v.

(** [existingController.abort(); abortControllersRef.current.delete(n)] *)
Definition abortExisting (n : Z) (st : State) : State :=
  match abortControllers st !! n with
  | Some c =>
      {| scenes := scenes st;
         generatedVideos := generatedVideos st;
         abortControllers := delete n (abortControllers st);
         abortedSignals := {[c]} ∪ abortedSignals st;
         controllersCreated := controllersCreated st |}
  | None => st
  end.

(** [new AbortController()] stored under the scene number. *)
Definition installController (n : Z) (st : State) : State :=
  {| scenes := scenes st;
     generatedVideos := generatedVideos st;
     abortControllers := <[n := controllersCreated st]> (abortControllers st);
     abortedSignals := abortedSignals st;
     controllersCreated := S (controllersCreated st) |}.

(** The decimal digits of a natural number. *)
Definition decimal (n : N) : string := NilZero.string_of_uint (N.to_uint n).

(** *** A number inside a template literal

[Number::toString] writes the shortest run of digits that reads back as
the same double, followed by zeros up to 21 digits in all, and in
exponent notation beyond. *)

Fixpoint countDigits (fuel : nat) (m : Z) : nat :=
  match fuel with
  | O => 1
  | S fuel' => if (m <? 10)%Z then 1 else S (countDigits fuel' (m / 10))
  end.

Definition zeros (n : nat) : string := string_of_list_ascii (repeat "0"%char n).

(** The digits [s] and the exponent [n] with which [k] digits denote the
    double [m] of [d] digits, if [k] digits can: of the [k]-digit numbers
    next to [m], the one that reads back as [m], the nearer one if both
    do, the even one if they are as near. *)
Definition withDigits (m : Z) (d k : nat) : option (Z * nat) :=
  let p := (10 ^ Z.of_nat (d - k))%Z in
  let low := (m / p)%Z in
  let up := (low + 1)%Z in
  let lowFits := (toDouble (low * p) =? m)%Z in
  let upFits := (toDouble (up * p) =? m)%Z in
  let upper :=
    if (up =? 10 ^ Z.of_nat k)%Z then ((10 ^ Z.of_nat (k - 1))%Z, S d) else (up, d) in
  if lowFits && upFits then
    if (m - low * p <? up * p - m)%Z then Some (low, d)
    else if (up * p - m <? m - low * p)%Z then Some upper
    else if Z.even low then Some (low, d) else Some upper
  else if lowFits then Some (low, d)
  else if upFits then Some upper
  else None.

(** The least number of digits that will do, tried in ascending order. *)
Fixpoint shortest (m : Z) (d : nat) (ks : list nat) : Z * nat * nat :=
  match ks with
  | [] => (m, d, d)
  | k :: rest =>
      match withDigits m d k with
      | Some (s, n) => (s, n, k)
      | None => shortest m d rest
      end
  end.

Definition positiveToString (m : Z) : string :=
  if (infinity <=? m)%Z then "Infinity"
  else
    let d := countDigits (Z.to_nat (Z.log2 m)) m in
    let '(s, n, k) := shortest m d (seq 1 d) in
    let digits := decimal (Z.to_N s) in
    if (n <=? 21)%nat then digits +:+ zeros (n - k)
    else
      match digits with
      | String c rest =>
          String c (if bool_decide (k = 1%nat) then EmptyString else "." +:+ rest)
          +:+ "e+" +:+ decimal (N.of_nat (n - 1))
      | EmptyString => EmptyString
      end.

Definition numberToString (x : Z) : string :=
  if (x <? 0)%Z then "-" +:+ positiveToString (- x) else positiveToString x.

(** [`${z}`] for a number [z]. *)
Definition decimalZ (z : Z) : string := numberToString (toDouble z).

(** The cache-busting URL stored for a regenerated video. *)
Definition cacheBustedUrl (url : option string) (now : N) : option string :=
  if truthy url then
    let u := default EmptyString url in
    Some (u +:+ (if includes "?"%char u then "&" else "?") +:+ "t=" +:+ decimal now)
  else None.

Definition isSuccessStatus (s : option string) : bool :=
  bool_decide (s = Some "COMPLETED")
  || bool_decide (s = Some "MEDIA_GENERATION_STATUS_COMPLETE")
  || bool_decide (s = Some "MEDIA_GENERATION_STATUS_SUCCESSFUL").

Definition isFailureStatus (s : option string) : bool :=
  bool_decide (s = Some "FAILED")
  || bool_decide (s = Some "MEDIA_GENERATION_STATUS_FAILED").

Definition thrownMessage (e : Thrown) (fallback : string) : string :=
  match e with
  | ErrorObject m => m
  | OtherValue => fallback
  end.

Definition Outcome : Type := State * list Effect * option Attempt.

(** The [finally] block. *)
Definition finallyBlock (a : Attempt) (st : State) : State :=
  {| scenes := scenes st;
     generatedVideos := generatedVideos st;
     abortControllers := delete (retriedScene a) (abortControllers st);
     abortedSignals := abortedSignals st;
     controllersCreated := controllersCreated st |}.

(** The [catch] block followed by [finally]. *)
Definition catchBlock (a : Attempt) (e : Thrown) (st : State) : Outcome :=
  if aborted a st then (finallyBlock a st, [], None)
  else
    (finallyBlock a
       (setGeneratedVideos
          (map (markFailed (retriedScene a) (thrownMessage e "Unknown error"))) st),
     [Toast "Regeneration Failed" (thrownMessage e "Failed to regenerate video.") true],
     None).

(** After the [for] loop: the timeout, unless the attempt was aborted. *)
Definition afterLoop (a : Attempt) (st : State) : Outcome :=
  if aborted a st then (finallyBlock a st, [], None)
  else catchBlock a (ErrorObject "Video generation timed out") st.

(** Top of iteration [i] of the polling loop, up to the timer. *)
Definition loopHead (a : Attempt) (i : nat) (operation sid : option string)
    (st : State) : Outcome :=
  if (i <? maxAttempts)%nat then
    if aborted a st then afterLoop a st
    else (st, [],
          Some {| retriedScene := retriedScene a; controller := controller a;
                  phase := AwaitTimer i operation sid |})
  else afterLoop a st.

(** The synchronous prefix of [handleRetryVideo], up to the first fetch. *)
Definition handleRetryVideo (n : Z) (st : State) : Outcome :=
  match find (fun s => bool_decide (scene s = n)) (scenes st) with
  | None => (st, [Toast "Error" "Scene not found" true], None)
  | Some sc =>
      let st1 := abortExisting n st in
      let c := controllersCreated st1 in
      let st2 := installController n st1 in
      let st3 := setGeneratedVideos (map (markGenerating n)) st2 in
      (st3, [PostGenerateVideo sc c],
       Some {| retriedScene := n; controller := c; phase := AwaitGenerate |})
  end.

(** The generate request settled: [ok] is [response.ok], the record is
    the parsed body. *)
Definition resumeGenerate (a : Attempt) (r : Settled (bool * GenerateResult))
    (st : State) : Outcome :=
  match r with
  | Rejected e => catchBlock a e st
  | Resolved (ok, result) =>
      if ok then loopHead a 0 (operationName result) (sceneId result) st
      else catchBlock a
             (ErrorObject (orElse (message result) "Failed to start video generation")) st
  end.

(** The one-second timer fired. *)
Definition resumeTimer (a : Attempt) (i : nat) (operation sid : option string)
    (st : State) : Outcome :=
  if aborted a st then afterLoop a st
  else (st, [PostCheckVideoStatus operation sid (controller a)],
        Some {| retriedScene := retriedScene a; controller := controller a;
                phase := AwaitStatus i operation sid |}).

(** The status request settled; [now] is [Date.now()]. *)
Definition resumeStatus (a : Attempt) (i : nat) (operation sid : option string)
    (r : Settled StatusData) (now : N) (st : State) : Outcome :=
  match r with
  | Rejected e => catchBlock a e st
  | Resolved statusData =>
      if isSuccessStatus (statusOf statusData) then
        if aborted a st then afterLoop a st
        else
          (finallyBlock a
             (setGeneratedVideos
                (map (markCompleted (retriedScene a)
                        (cacheBustedUrl (videoUrlOf statusData) now))) st),
           [Toast "Video Regenerated!"
              ("Scene " +:+ decimalZ (retriedScene a)
               +:+ " has been successfully regenerated.") false],
           None)
      else if isFailureStatus (statusOf statusData) then
        catchBlock a
          (ErrorObject (orElse (errorOf statusData) "Video generation failed")) st
      else loopHead a (S i) operation sid st
  end.

(** What the pending await of an attempt settles with. *)
Record Settlement := {
  generateResponse : Settled (bool * GenerateResult);
  statusResponse : Settled StatusData;
  dateNow : N;
}.

Definition resume (a : Attempt) (w : Settlement) (st : State) : Outcome :=
  match phase a with
  | AwaitGenerate => resumeGenerate a (generateResponse w) st
  | AwaitTimer i operation sid => resumeTimer a i operation sid st
  | AwaitStatus i operation sid =>
      resumeStatus a i operation sid (statusResponse w) (dateNow w) st
  end.

(** *** Running one retry to completion

[await handleRetryVideo(n)] as seen by a caller that waits for it:
the attempt is resumed until it returns; [env k] is what its [k]-th
await settles with. *)
Fixpoint drive (fuel : nat) (env : nat -> Settlement) (k : nat) (a : Attempt)
(st : State) : Outcome :=
match fuel with
| O => (st, [], Some a)
| S fuel' =>
  let '(st1, effs1, next) := resume a (env k) st in
  match next with
  | None => (st1, effs1, None)
  | Some a' =>
      let '(st2, effs2, next') := drive fuel' env (S k) a' st1 in
      (st2, effs1 ++ effs2, next')
  end
end.

(** One generate request, then a timer and a status request per iteration. *)
Definition enoughFuel : nat := 1 + 2 * maxAttempts.

Definition awaitRetryVideo (env : nat -> Settlement) (n : Z) (st : State) : Outcome :=
  let '(st1, effs1, next) := handleRetryVideo n st in
  match next with
  | None => (st1, effs1, None)
  | Some a =>
      let '(st2, effs2, next') := drive enoughFuel env 0 a st1 in
      (st2, effs1 ++ effs2, next')
  end.

(** *** Retry all failed *)

Definition isFailed (n : Z) (v : GeneratedVideo) : bool :=
  bool_decide (sceneNumber v = n) && bool_decide (status v = "failed").

Definition failedSceneNumbers (st : State) : list Z :=
  map sceneNumber
    (filter (fun v => status v = "failed") (generatedVideos st)).

(** The handler reads the list of videos by handing the state setter
    an updater that copies what it needs into a local variable and
    returns its argument. React calls an updater while it renders. It
    calls one at once, inside the call of the setter, only on its fast
    path: when the component has no update waiting to be rendered and
    none has been rendered since React last found the component
    unchanged. An updater called at once that returns its argument
    leaves the fast path open. Otherwise the updater is queued and the
    handler goes on with the variable as it was initialised; what the
    updater assigns at the next render comes after the handler has used
    the variable, and no render takes place while the handler runs
    without awaiting. *)
Definition readNow {A} (open : bool) (unread : A) (read : State -> A) (st : State) : A :=
  if open then read st else unread.

(** An awaited retry that is not cancelled ends by writing the list of
    videos, next to the toast that reports the outcome; the write is
    waiting, or has just been rendered, when the loop goes on. *)
Definition reportsOutcome (e : Effect) : bool :=
  match e with
  | Toast heading _ _ =>
      bool_decide (heading = "Video Regenerated!")
      || bool_decide (heading = "Regeneration Failed")
  | _ => false
  end.

Definition wroteVideos (effs : list Effect) : bool := existsb reportsOutcome effs.

(** What happens around the loop: [settle t] answers the awaits of the
    retry made at turn [t], [meanwhile t] is whatever other handlers did
    to the page while that retry was awaited, and [fastPath t] tells
    whether React's fast path is open after that retry when the retry
    itself returned without writing the list (it was cancelled, or the
    page does not know the scene). *)
Record Surroundings := {
  settle : nat -> nat -> Settlement;
  meanwhile : nat -> State -> State;
  fastPath : nat -> bool;
}.

(** The [for ... of] loop; [open] tells whether the fast path is open at
    the read of [shouldRetry]. The third component lists the scenes for
    which [handleRetryVideo] was called, in call order. *)
Fixpoint retryLoop (sur : Surroundings) (turn : nat) (pending : list Z)
    (open : bool) (st : State) : State * list Effect * list Z :=
  match pending with
  | [] => (st, [], [])
  | n :: rest =>
      let shouldRetry :=
        readNow open false (fun st => existsb (isFailed n) (generatedVideos st)) st in
      if shouldRetry then
        let '(st1, effs1, _) := awaitRetryVideo (settle sur turn) n st in
        let open1 := if wroteVideos effs1 then false else fastPath sur turn in
        let '(st2, effs2, calls) :=
          retryLoop sur (S turn) rest open1 (meanwhile sur turn st1) in
        (st2, effs1 ++ effs2, n :: calls)
      else retryLoop sur (S turn) rest open st
  end.

(** [open] tells whether the fast path is open when the handler is
    called. *)
Definition handleRetryAllFailed (sur : Surroundings) (open : bool) (st : State)
    : State * list Effect * list Z :=
  retryLoop sur 0 (readNow open [] failedSceneNumbers st) open st.

(** *** The streamed-generation consumer *)

Record VideoProgress := {
  progressScene : Z;
  progressTitle : string;
  progressStatus : option string;
  progressUrl : option string;
  progressError : option string;
  progressMessage : option string;
  progressTimestamp : option string;
}.

(** A parsed event record, with the properties the consumer reads. *)
Record SseData := {
  dataType : option string;
  dataScene : option Z;
  dataStatus : option string;
  dataMessage : option string;
  dataTimestamp : option string;
  dataVideoUrl : option string;
  dataError : option string;
  dataCurrent : option Z;
  dataVideos : list GeneratedVideo;
}.

(** The part of the page state the consumer writes, with its line buffer. *)
Record Stream := {
  buffer : Text;
  videoProgress : list VideoProgress;
  currentVideoScene : Z;
  currentStep : Z;
  streamedVideos : list GeneratedVideo;
}.

Section Consumer.
(** [JSON.parse], [None] when it throws. *)
Variable parseJSON : Text -> option SseData.
Variable pageScenes : list Scene.

Definition onProgress (data : SseData) (p : VideoProgress) : VideoProgress :=
  if bool_decide (Some (progressScene p) = dataScene data) then
    {| progressScene := progressScene p; progressTitle := progressTitle p;
       progressStatus := dataStatus data; progressUrl := progressUrl p;
       progressError := progressError p; progressMessage := dataMessage data;
       progressTimestamp := dataTimestamp data |}
  else p.

Definition onVideoComplete (data : SseData) (p : VideoProgress) : VideoProgress :=
  if bool_decide (Some (progressScene p) = dataScene data) then
    {| progressScene := progressScene p; progressTitle := progressTitle p;
       progressStatus := Some "completed"; progressUrl := dataVideoUrl data;
       progressError := progressError p; progressMessage := Some "Complete";
       progressTimestamp := dataTimestamp data |}
  else p.

Definition onError (data : SseData) (p : VideoProgress) : VideoProgress :=
  if bool_decide (Some (progressScene p) = dataScene data) then
    {| progressScene := progressScene p; progressTitle := progressTitle p;
       progressStatus := Some "failed"; progressUrl := progressUrl p;
       progressError := dataError data; progressMessage := progressMessage p;
       progressTimestamp := dataTimestamp data |}
  else p.

Definition setVideoProgress (f : VideoProgress -> VideoProgress) (s : Stream)
    : Stream :=
  {| buffer := buffer s; videoProgress := map f (videoProgress s);
     currentVideoScene := currentVideoScene s; currentStep := currentStep s;
     streamedVideos := streamedVideos s |}.

Definition historyEntry (data : SseData) : Effect :=
  let sceneData :=
    find (fun s => bool_decide (Some (scene s) = dataScene data)) pageScenes in
  PostVideoHistory
    (orElse (description <$> sceneData) "Scene video")
    (orElse (title <$> sceneData)
       ("Scene " +:+ from_option decimalZ "undefined" (dataScene data)))
    (dataVideoUrl data).

Definition dispatch (data : SseData) (s : Stream) : Stream * list Effect :=
  if bool_decide (dataType data = Some "progress") then
    let s1 :=
      match dataCurrent data with
      | Some c =>
          if bool_decide (c = 0%Z) then s
          else {| buffer := buffer s; videoProgress := videoProgress s;
                  currentVideoScene := c; currentStep := currentStep s;
                  streamedVideos := streamedVideos s |}
      | None => s
      end in
    (setVideoProgress (onProgress data) s1, [])
  else if bool_decide (dataType data = Some "video_complete") then
    (setVideoProgress (onVideoComplete data) s, [historyEntry data])
  else if bool_decide (dataType data = Some "error") then
    (setVideoProgress (onError data) s, [])
  else if bool_decide (dataType data = Some "complete") then
    ({| buffer := buffer s; videoProgress := videoProgress s;
        currentVideoScene := currentVideoScene s; currentStep := 5%Z;
        streamedVideos := dataVideos data |},
     [Toast "Videos Generated!"
        ("Successfully generated "
         +:+ decimal (N.of_nat (length
               (filter (fun v => status v = "completed") (dataVideos data))))
         +:+ " videos.") false])
  else (s, []).

(** One complete line of the stream. *)
Definition processLine (acc : Stream * list Effect) (line : Text)
    : Stream * list Effect :=
  if startsWith (text "data: ") line then
    match parseJSON (drop 6 line) with
    | Some data =>
        let '(s, effs) := dispatch data (fst acc) in (s, snd acc ++ effs)
    | None => acc
    end
  else acc.

Definition setBuffer (b : Text) (s : Stream) : Stream :=
  {| buffer := b; videoProgress := videoProgress s;
     currentVideoScene := currentVideoScene s; currentStep := currentStep s;
     streamedVideos := streamedVideos s |}.

(** One iteration of the read loop, for the text decoded from a chunk:
    [lines.pop()] takes the piece after the last newline back into the
    buffer, the pieces before it are processed. *)
Definition readChunk (acc : Stream * list Effect) (chunk : Text)
    : Stream * list Effect :=
  let lines := split newline (buffer (fst acc) ++ chunk) in
  let remainder := List.last lines [] in
  let complete := removelast lines in
  foldl processLine (setBuffer remainder (fst acc), snd acc) complete.

(** The whole read loop over the chunks the reader delivers, starting
    from an empty buffer. *)
Definition consume (chunks : list Text) (s : Stream) : Stream * list Effect :=
  foldl readChunk (setBuffer [] s, []) chunks.
End Consumer.

End Home.

(** ** The results view *)
Module VideosDisplay.
Import JS.

(** The component's own state; [videos], [projectId], [onRetryVideo] and
    [onRetryAllFailed] are props and come as arguments. *)
Record State := {
  retryingScenes : gset Z;
  retryingAll : bool;
  merging : bool;
  mergingStatus : string;
  mergedVideoUrl : option string;
}.

Definition setRetryingScenes (f : gset Z -> gset Z) (d : State) : State :=
  {| retryingScenes := f (retryingScenes d); retryingAll := retryingAll d;
     merging := merging d; mergingStatus := mergingStatus d;
     mergedVideoUrl := mergedVideoUrl d |}.

(** The [finally] of [handleRetryVideo]. *)
Definition finishRetry (n : Z) (d : State) : State :=
  setRetryingScenes (fun prev => prev ∖ {[n]}) d.

(** [handleRetryVideo] up to the point where [onRetryVideo] is pending.
    When [onRetryVideo] returns without suspending, the [finally] runs
    before any other handler can. *)
Definition handleRetryVideo (onRetryVideo : Z -> Home.State -> Home.Outcome)
    (n : Z) (d : State) (pg : Home.State) : State * Home.Outcome :=
  if bool_decide (n ∈ retryingScenes d) then (d, (pg, [], None))
  else
    let d1 := setRetryingScenes (fun prev => prev ∪ {[n]}) d in
    let '(pg1, effs, next) := onRetryVideo n pg in
    match next with
    | Some a => (d1, (pg1, effs, Some a))
    | None => (finishRetry n d1, (pg1, effs, None))
    end.

(** The pending [onRetryVideo] moves on; when it returns, the [finally]
    of the component's handler follows at once. *)
Definition resumeRetry (a : Home.Attempt) (w : Home.Settlement) (d : State)
    (pg : Home.State) : State * Home.Outcome :=
  let '(pg1, effs, next) := Home.resume a w pg in
  match next with
  | Some a' => (d, (pg1, effs, Some a'))
  | None => (finishRetry (Home.retriedScene a) d, (pg1, effs, None))
  end.

(** *** Merge of all completed videos *)

Record MergeEntry := {
  entryScene : Z;
  entryUrl : option string;
}.

Inductive Effect :=
| Toast (heading : string) (body : string) (destructive : bool)
| PostMergeVideos (videos : list MergeEntry) (projectId : option string).

Definition completedVideos (videos : list Home.GeneratedVideo)
    : list Home.GeneratedVideo :=
  filter (fun v => Home.status v = "completed") videos.

Definition bySceneNumber (a b : Home.GeneratedVideo) : Z :=
  (Home.sceneNumber a - Home.sceneNumber b)%Z.

Definition videosToMerge (videos : list Home.GeneratedVideo) : list MergeEntry :=
  map (fun v => {| entryScene := Home.sceneNumber v; entryUrl := Home.videoUrl v |})
    (sort bySceneNumber (completedVideos videos)).

(** [handleMergeVideos] up to the merge request; the boolean tells
    whether the handler is now waiting for the response. *)
Definition handleMergeVideos (videos : list Home.GeneratedVideo)
    (projectId : option string) (d : State) : State * list Effect * bool :=
  if (length (completedVideos videos) <? 2)%nat then
    (d, [Toast "Cannot Merge" "You need at least 2 completed videos to merge." true],
     false)
  else
    ({| retryingScenes := retryingScenes d; retryingAll := retryingAll d;
        merging := true; mergingStatus := "Executed - Processing videos...";
        mergedVideoUrl := None |},
     [PostMergeVideos (videosToMerge videos)
        (if truthy projectId then projectId else None)],
     true).

Record MergeResponse := {
  responseMessage : option string;
  responseUrl : option string;
}.

(** The merge request settled. *)
Definition resumeMerge (r : Settled (bool * MergeResponse)) (d : State)
    : State * list Effect :=
  let failed (e : Thrown) :=
    ({| retryingScenes := retryingScenes d; retryingAll := retryingAll d;
        merging := false; mergingStatus := EmptyString; mergedVideoUrl := mergedVideoUrl d |},
     [Toast "Merge Failed" (Home.thrownMessage e "Failed to merge videos.") true]) in
  match r with
  | Rejected e => failed e
  | Resolved (ok, result) =>
      if ok then
        ({| retryingScenes := retryingScenes d; retryingAll := retryingAll d;
            merging := false; mergingStatus := "Complete!";
            mergedVideoUrl := responseUrl result |},
         [Toast "Videos Merged!"
            "All videos have been successfully merged into one." false])
      else failed (ErrorObject (orElse (responseMessage result) "Failed to merge videos"))
  end.

End VideosDisplay.

(** ** The results page at work: the page, its view and the retries in flight

Between two steps nothing else runs. A step is a click on a video's
retry button, a call that "retry all failed" makes for a failed scene,
or the resumption of a pending retry (started through the view or
directly) with whatever its await settled with. *)
Module Session.

Record Sys := {
  page : Home.State;
  view : VideosDisplay.State;
  viaView : list Home.Attempt;
  direct : list Home.Attempt;
}.

Definition pending (next : option Home.Attempt) : list Home.Attempt :=
  match next with
  | Some a => [a]
  | None => []
  end.

Inductive step : Sys -> Sys -> Prop :=
| step_click s n d pg effs next :
    VideosDisplay.handleRetryVideo Home.handleRetryVideo n (view s) (page s)
      = (d, (pg, effs, next)) ->
    step s {| page := pg; view := d;
              viaView := viaView s ++ pending next; direct := direct s |}
| step_retry_all_turn s n pg effs next :
    existsb (Home.isFailed n) (Home.generatedVideos (page s)) = true ->
    Home.handleRetryVideo n (page s) = (pg, effs, next) ->
    step s {| page := pg; view := view s;
              viaView := viaView s; direct := direct s ++ pending next |}
| step_resume_view s before a after w d pg effs next :
    viaView s = before ++ a :: after ->
    VideosDisplay.resumeRetry a w (view s) (page s) = (d, (pg, effs, next)) ->
    step s {| page := pg; view := d;
              viaView := before ++ pending next ++ after; direct := direct s |}
| step_resume_direct s before a after w pg effs next :
    direct s = before ++ a :: after ->
    Home.resume a w (page s) = (pg, effs, next) ->
    step s {| page := pg; view := view s;
              viaView := viaView s; direct := before ++ pending next ++ after |}.

(** The view as mounted over a page with no retry in flight. *)
Definition mounted (pg : Home.State) : Sys :=
  {| page := pg;
     view := {| VideosDisplay.retryingScenes := ∅;
                VideosDisplay.retryingAll := false;
                VideosDisplay.merging := false;
                VideosDisplay.mergingStatus := EmptyString;
                VideosDisplay.mergedVideoUrl := None |};
     viaView := []; direct := [] |}.

Inductive reachable (pg : Home.State) : Sys -> Prop :=
| reachable_mounted : reachable pg (mounted pg)
| reachable_step s s' : reachable pg s -> step s s' -> reachable pg s'.

(** The retries started through the view that are in flight for scene [n]. *)
Definition inFlightViaView (n : Z) (s : Sys) : list Home.Attempt :=
  filter (fun a => Home.retriedScene a = n) (viaView s).

End Session.

(** ** The single-video flow *)
Module VeoGenerator.
Import JS.

Record State := {
  prompt : Text;
  aspectRatio : string;
  isGenerating : bool;
  videoUrl : option string;
  error : option string;
}.

Record GenerateResult := {
  resultError : option string;
  operationName : option string;
  sceneId : option string;
  tokenId : option string;
}.

Inductive Patch :=
| PatchTokenUsed (token : option string)
| PatchCompleted (url : option string)
| PatchFailed.

Inductive Effect :=
| Toast (heading : string) (body : string) (destructive : bool)
| PostVideoHistory (text : Text) (ratio : string)
| PostGenerateVeoVideo (text : Text) (ratio : string)
| PatchVideoHistory (entry : string) (body : Patch)
| PostCheckVideoStatus (operation : option string) (sid : option string).

(** What the requests of one run settle with: the history entry created
    first ([ok] and the new entry's id), the generate request, and the
    [k]-th status request. Failures of history writes are caught on the
    spot and change nothing else. *)
Record World := {
  historyCreated : Settled (bool * option string);
  generated : Settled (bool * GenerateResult);
  statusAt : nat -> Settled Home.StatusData;
}.

Definition maxAttempts : nat := 120.

Definition isSuccessStatus (s : option string) : bool :=
  bool_decide (s = Some "COMPLETED")
  || bool_decide (s = Some "MEDIA_GENERATION_STATUS_COMPLETE")
  || bool_decide (s = Some "MEDIA_GENERATION_STATUS_SUCCESSFUL").

Definition isFailureStatus (s : option string) : bool :=
  bool_decide (s = Some "FAILED")
  || bool_decide (s = Some "MEDIA_GENERATION_STATUS_FAILED").

Definition patchIf (entry : option string) (body : Patch) : list Effect :=
  if truthy entry then [PatchVideoHistory (default EmptyString entry) body] else [].

Definition setVideoUrl (url : option string) (st : State) : State :=
  {| prompt := prompt st; aspectRatio := aspectRatio st;
     isGenerating := isGenerating st; videoUrl := url; error := error st |}.

(** How the [try] block is left. *)
Inductive Exit :=
| Returned (st : State) (effs : list Effect)
| Threw (e : Thrown) (st : State) (effs : list Effect).

Definition emitFirst (effs : list Effect) (x : Exit) : Exit :=
  match x with
  | Returned st e => Returned st (effs ++ e)
  | Threw t st e => Threw t st (effs ++ e)
  end.

(** The [while (!completed && attempts < maxAttempts)] loop and the
    timeout check after it. [completed] becomes true only in the success
    branch, which therefore leaves the loop and skips the timeout. *)
Fixpoint pollLoop (fuel attempts : nat) (w : World) (entry : option string)
    (operation sid : option string) (st : State) : option Exit :=
  match fuel with
  | O => None
  | S fuel' =>
      if (attempts <? maxAttempts)%nat then
        let attempts' := S attempts in
        let request := [PostCheckVideoStatus operation sid] in
        match statusAt w attempts' with
        | Rejected e => Some (Threw e st request)
        | Resolved statusData =>
            if isSuccessStatus (Home.statusOf statusData) then
              Some (Returned (setVideoUrl (Home.videoUrlOf statusData) st)
                      (request
                       ++ patchIf entry (PatchCompleted (Home.videoUrlOf statusData))
                       ++ [Toast "Video generated!"
                             "Your video is ready to watch and download." false]))
            else if isFailureStatus (Home.statusOf statusData) then
              Some (Threw (ErrorObject
                             (orElse (Home.errorOf statusData) "Video generation failed"))
                      st request)
            else
              emitFirst request
                <$> pollLoop fuel' attempts' w entry operation sid st
        end
      else Some (Threw (ErrorObject "Video generation timed out") st [])
  end.

(** The [catch] and [finally] blocks. *)
Definition settleExit (entry : option string) (x : Exit) : State * list Effect :=
  match x with
  | Returned st effs =>
      ({| prompt := prompt st; aspectRatio := aspectRatio st; isGenerating := false;
          videoUrl := videoUrl st; error := error st |}, effs)
  | Threw e st effs =>
      let errorMessage := Home.thrownMessage e "Failed to generate video" in
      ({| prompt := prompt st; aspectRatio := aspectRatio st; isGenerating := false;
          videoUrl := videoUrl st; error := Some errorMessage |},
       effs ++ patchIf entry PatchFailed
            ++ [Toast "Generation failed" errorMessage true])
  end.

Definition handleGenerate (fuel : nat) (w : World) (st : State)
    : option (State * list Effect) :=
  match trim (prompt st) with
  | [] => Some (st, [Toast "Prompt required" "Please enter a video prompt" true])
  | _ :: _ =>
      let st0 :=
        {| prompt := prompt st; aspectRatio := aspectRatio st; isGenerating := true;
           videoUrl := None; error := None |} in
      let entry :=
        match historyCreated w with
        | Resolved (true, id) => id
        | _ => None
        end in
      let begun :=
        [PostVideoHistory (prompt st) (aspectRatio st);
         PostGenerateVeoVideo (prompt st) (aspectRatio st)] in
      match generated w with
      | Rejected e => Some (settleExit entry (Threw e st0 begun))
      | Resolved (ok, result) =>
          if ok then
            let noted :=
              if truthy entry && truthy (tokenId result)
              then [PatchVideoHistory (default EmptyString entry) (PatchTokenUsed (tokenId result))]
              else [] in
            (fun x => settleExit entry (emitFirst (begun ++ noted) x))
              <$> pollLoop fuel 0 w entry (operationName result) (sceneId result) st0
          else
            Some (settleExit entry
                    (Threw (ErrorObject
                              (orElse (resultError result)
                                      "Failed to start video generation"))
                       st0 begun))
      end
  end.

(** One pass through the loop per allowed attempt, and the pass that
    finds the bound reached. *)
Definition enoughFuel : nat := S maxAttempts.

End VeoGenerator.

(** ** The bulk generator *)
Module BulkGenerator.
Import JS.

Record VideoGenerationStatus := {
  prompt : Text;
  status : string;
  videoUrl : option string;
  error : option string;
  tokenLabel : option string;
}.

Record State := {
  prompts : Text;
  aspectRatio : string;
  isGenerating : bool;
  generationProgress : list VideoGenerationStatus;
  pollingInterval : bool;
}.

Inductive Effect :=
| Toast (heading : string) (body : string) (destructive : bool)
| PostBulkGenerate (lines : list Text) (ratio : string).

(** One prompt per line, blank lines dropped. *)
Definition promptLines (t : Text) : list Text :=
  filter (fun line => (0 < length line)%nat) (map trim (split newline t)).

Definition pendingStatus (p : Text) : VideoGenerationStatus :=
  {| prompt := p; status := "pending"; videoUrl := None; error := None;
     tokenLabel := None |}.

(** [handleGenerate] up to the bulk request. *)
Definition handleGenerate (st : State) : State * list Effect :=
  let st0 :=
    {| prompts := prompts st; aspectRatio := aspectRatio st;
       isGenerating := isGenerating st;
       generationProgress := generationProgress st;
       pollingInterval := false |} in
  let lines := promptLines (prompts st) in
  if bool_decide (length lines = 0%nat) then
    (st0, [Toast "No prompts found" "Please enter at least one prompt" true])
  else if (200 <? length lines)%nat then
    (st0, [Toast "Too many prompts"
             "Maximum 200 prompts allowed. Please remove some prompts." true])
  else
    ({| prompts := prompts st; aspectRatio := aspectRatio st;
        isGenerating := true;
        generationProgress := map pendingStatus lines;
        pollingInterval := false |},
     [PostBulkGenerate lines (aspectRatio st)]).

End BulkGenerator.

(** ** The history view *)
Module History.
Import JS.

(** A history record, with the properties the view reads (the record's
    declaration lives in the shared schema). *)
Record VideoHistory := {
  id : string;
  title : option string;
  status : string;
  videoUrl : option string;
}.

(** [selectedVideos] is a [Set] whose iteration order (insertion order)
    reaches the merge request through [Array.from], so it is kept as
    the sequence of its members in insertion order. *)
Record State := {
  selectedVideos : list string;
  isMergingSelected : bool;
  mergingProject : option string;
  mergedVideoUrls : gmap string string;
}.

Record MergeEntry := {
  entryScene : Z;
  entryUrl : option string;
}.

Inductive Effect :=
| Toast (heading : string) (body : string) (destructive : bool)
| PostMergeSelected (videoIds : list string)
| PostMergeVideos (videos : list MergeEntry) (projectId : option string).

Definition setSelectedVideos (f : list string -> list string) (st : State) : State :=
  {| selectedVideos := f (selectedVideos st);
     isMergingSelected := isMergingSelected st;
     mergingProject := mergingProject st;
     mergedVideoUrls := mergedVideoUrls st |}.

Definition has (x : string) (set : list string) : bool := bool_decide (x ∈ set).
Definition delete (x : string) (set : list string) : list string :=
  filter (fun y => y ≠ x) set.
Definition add (x : string) (set : list string) : list string :=
  if has x set then set else set ++ [x].

Definition handleVideoSelect (videoId : string) (isCompleted : bool) (st : State)
    : State * list Effect :=
  if negb isCompleted then
    (st, [Toast "Cannot Select"
            "Only completed videos can be selected for merging." true])
  else if has videoId (selectedVideos st) then
    (setSelectedVideos (delete videoId) st, [])
  else if (19 <=? length (selectedVideos st))%nat then
    (st, [Toast "Maximum Selection Reached"
            "You can select maximum 19 videos at a time." true])
  else (setSelectedVideos (add videoId) st, []).

(** The checkbox of a video card. *)
Definition onCheckedChange (video : VideoHistory) (st : State) : State * list Effect :=
  handleVideoSelect (id video) (bool_decide (status video = "completed")) st.

(** [handleMergeSelected] up to the merge request. *)
Definition handleMergeSelected (st : State) : State * list Effect * bool :=
  if (length (selectedVideos st) <? 2)%nat then
    (st, [Toast "Select More Videos" "Please select at least 2 videos to merge." true],
     false)
  else
    ({| selectedVideos := selectedVideos st; isMergingSelected := true;
        mergingProject := mergingProject st;
        mergedVideoUrls := mergedVideoUrls st |},
     [PostMergeSelected (selectedVideos st)], true).

(** *** Merge of a project's videos *)

Definition isDigit (c : ascii) : bool :=
  (48 <=? nat_of_ascii c)%nat && (nat_of_ascii c <=? 57)%nat.

Fixpoint digitRun (s : string) : list ascii :=
  match s with
  | String c rest => if isDigit c then c :: digitRun rest else []
  | EmptyString => []
  end.

Fixpoint afterPrefix (p s : string) : option string :=
  match p, s with
  | EmptyString, _ => Some s
  | String _ _, EmptyString => None
  | String a p', String b s' =>
      if bool_decide (a = b) then afterPrefix p' s' else None
  end.

(** The group captured by the leftmost match of [/Scene (\d+)/]. *)
Fixpoint sceneDigits (s : string) : option (list ascii) :=
  let here :=
    match afterPrefix "Scene " s with
    | Some rest =>
        match digitRun rest with
        | [] => None
        | ds => Some ds
        end
    | None => None
    end in
  match here with
  | Some ds => Some ds
  | None =>
      match s with
      | String _ rest => sceneDigits rest
      | EmptyString => None
      end
  end.

(** The integer that a run of decimal digits denotes. *)
Definition digitsValue (ds : list ascii) : Z :=
  fold_left (fun acc c => (10 * acc + (Z.of_nat (nat_of_ascii c) - 48))%Z) ds 0%Z.

(** [parseInt] of a run of decimal digits: the double nearest to the
    integer they denote (the digits are read in full and rounded once). *)
Definition parseInt (ds : list ascii) : Z := toDouble (digitsValue ds).

(** [parseInt(v.title?.match(/Scene (\d+)/)?.[1] || '0')] *)
Definition sceneOf (v : VideoHistory) : Z :=
  match title v with
  | Some t =>
      match sceneDigits t with
      | Some ds => parseInt ds
      | None => 0%Z
      end
  | None => 0%Z
  end.

Definition byScene (a b : VideoHistory) : Z := (sceneOf a - sceneOf b)%Z.

Definition completedVideos (videos : list VideoHistory) : list VideoHistory :=
  filter (fun v => status v = "completed" ∧ truthy (videoUrl v) = true) videos.

Definition mergePayload (videos : list VideoHistory) : list MergeEntry :=
  imap (fun idx v => {| entryScene := Z.of_nat idx + 1; entryUrl := videoUrl v |})
    (sort byScene (completedVideos videos)).

(** [handleMergeVideos] up to the merge request; an early return still
    passes through the [finally] block, which resets [mergingProject]. *)
Definition handleMergeVideos (projectKey : string) (videos : list VideoHistory)
    (projectId : option string) (st : State) : State * list Effect * bool :=
  if (length (completedVideos videos) <? 2)%nat then
    ({| selectedVideos := selectedVideos st;
        isMergingSelected := isMergingSelected st;
        mergingProject := None;
        mergedVideoUrls := mergedVideoUrls st |},
     [Toast "Cannot Merge" "You need at least 2 completed videos to merge." true],
     false)
  else
    ({| selectedVideos := selectedVideos st;
        isMergingSelected := isMergingSelected st;
        mergingProject := Some projectKey;
        mergedVideoUrls := mergedVideoUrls st |},
     [PostMergeVideos (mergePayload videos)
        (if truthy projectId then projectId else None)],
     true).

End History.

(** ** Notions used in the statements *)

(** The cleanup of the page's effect (unmount or step change): every
    registered controller is aborted and the registry is emptied. *)
Definition abortAll (st : Home.State) : Home.State :=
  {| Home.scenes := Home.scenes st;
     Home.generatedVideos := Home.generatedVideos st;
     Home.abortControllers := ∅;
     Home.abortedSignals := map_img (Home.abortControllers st) ∪ Home.abortedSignals st;
     Home.controllersCreated := Home.controllersCreated st |}.

(** Controllers are numbered in creation order: every controller in use
    was created before the next one to be created. *)
Definition controllersKnown (st : Home.State) : Prop :=
  (∀ c, c ∈ Home.abortedSignals st -> (c < Home.controllersCreated st)%nat)
  ∧ (∀ n c, Home.abortControllers st !! n = Some c ->
            (c < Home.controllersCreated st)%nat).

Definition attemptOf (n : Z) (c : nat) : Home.Attempt :=
  {| Home.retriedScene := n; Home.controller := c; Home.phase := Home.AwaitGenerate |}.

Definition isGenerateRequest (e : Home.Effect) : bool :=
  match e with
  | Home.PostGenerateVideo _ _ => true
  | _ => false
  end.

Definition isStatusCheck (e : Home.Effect) : bool :=
  match e with
  | Home.PostCheckVideoStatus _ _ _ => true
  | _ => false
  end.

Definition statusChecks (effs : list Home.Effect) : nat :=
  length (List.filter isStatusCheck effs).

Definition isVeoStatusCheck (e : VeoGenerator.Effect) : bool :=
  match e with
  | VeoGenerator.PostCheckVideoStatus _ _ => true
  | _ => false
  end.

Definition veoStatusChecks (effs : list VeoGenerator.Effect) : nat :=
  length (List.filter isVeoStatusCheck effs).

Definition exitEffects (x : VeoGenerator.Exit) : list VeoGenerator.Effect :=
  match x with
  | VeoGenerator.Returned _ effs | VeoGenerator.Threw _ _ effs => effs
  end.

(** The provider's status vocabulary, as the pollers read it. *)
Definition successSynonym (s : option string) : Prop :=
  s = Some "COMPLETED"
  ∨ s = Some "MEDIA_GENERATION_STATUS_COMPLETE"
  ∨ s = Some "MEDIA_GENERATION_STATUS_SUCCESSFUL".

Definition failureSynonym (s : option string) : Prop :=
  s = Some "FAILED" ∨ s = Some "MEDIA_GENERATION_STATUS_FAILED".

Definition nonTerminal (s : option string) : Prop :=
  s ≠ Some "COMPLETED"
  ∧ s ≠ Some "MEDIA_GENERATION_STATUS_COMPLETE"
  ∧ s ≠ Some "MEDIA_GENERATION_STATUS_SUCCESSFUL"
  ∧ s ≠ Some "FAILED"
  ∧ s ≠ Some "MEDIA_GENERATION_STATUS_FAILED".

(** Every status request is answered, with a status that is not terminal. *)
Definition neverTerminal (answer : nat -> JS.Settled Home.StatusData) : Prop :=
  ∀ k, ∃ statusData,
    answer k = JS.Resolved statusData ∧ nonTerminal (Home.statusOf statusData).

(** The iteration bound seen from a suspended attempt. *)
Definition wellFormed (a : Home.Attempt) : Prop :=
  match Home.phase a with
  | Home.AwaitGenerate => True
  | Home.AwaitTimer i _ _ | Home.AwaitStatus i _ _ => (i < Home.maxAttempts)%nat
  end.

Definition stepsLeft (a : Home.Attempt) : nat :=
  match Home.phase a with
  | Home.AwaitGenerate => 1 + 2 * Home.maxAttempts
  | Home.AwaitTimer i _ _ => 2 * (Home.maxAttempts - i)
  | Home.AwaitStatus i _ _ => 2 * (Home.maxAttempts - i) - 1
  end.

Definition checksLeft (a : Home.Attempt) : nat :=
  match Home.phase a with
  | Home.AwaitGenerate => Home.maxAttempts
  | Home.AwaitTimer i _ _ => Home.maxAttempts - i
  | Home.AwaitStatus i _ _ => Home.maxAttempts - i - 1
  end.

Definition progressing (a : Home.Attempt) (o : Home.Outcome) : Prop :=
  match o with
  | (_, effs, None) => statusChecks effs = 0%nat
  | (_, effs, Some a') =>
      wellFormed a' ∧ (stepsLeft a' < stepsLeft a)%nat
      ∧ (statusChecks effs + checksLeft a' <= checksLeft a)%nat
  end.

Definition timedOut (n : Z) (st : Home.State) : Home.State :=
  Home.setGeneratedVideos
    (map (Home.markFailed n "Video generation timed out")) st.

(** Scene [n] has a video whose status is failed. *)
Definition stillFailed (n : Z) (st : Home.State) : bool :=
  existsb (Home.isFailed n) (Home.generatedVideos st).

(** The handlers running meanwhile leave the page as it is. *)
Definition quiet (sur : Home.Surroundings) : Prop :=
  ∀ t st, Home.meanwhile sur t st = st.

(** The handlers running meanwhile never make scene [n] fail (again). *)
Definition neverFails (sur : Home.Surroundings) (n : Z) : Prop :=
  ∀ t st, stillFailed n st = false -> stillFailed n (Home.meanwhile sur t st) = false.

(** Retries started through the view are for distinct scenes, each of them
    marked as retrying in the view. *)
Definition guarded (s : Session.Sys) : Prop :=
  NoDup (map Home.retriedScene (Session.viaView s))
  ∧ ∀ a, a ∈ Session.viaView s ->
         Home.retriedScene a ∈ VideosDisplay.retryingScenes (Session.view s).

(** The complete lines of a text and the piece after its last newline. *)
Definition completeLines (t : JS.Text) : list JS.Text :=
  removelast (JS.split JS.newline t).

Definition partialLine (t : JS.Text) : JS.Text :=
  List.last (JS.split JS.newline t) [].

(** A line with at least one character that [trim] keeps. *)
Definition nonBlank (line : JS.Text) : bool :=
  existsb (fun c => negb (JS.isWhiteSpace c)) line.

Definition isBulkRequest (e : BulkGenerator.Effect) : bool :=
  match e with
  | BulkGenerator.PostBulkGenerate _ _ => true
  | _ => false
  end.

(** A comparator that subtracts keys, and the order it sorts into. *)
Definition byKey {A : Type} (key : A -> Z) (a b : A) : Z := (key a - key b)%Z.

Definition ascendingBy {A : Type} (key : A -> Z) (a b : A) : Prop :=
  (key a <= key b)%Z.

(** A completed video that carries a non-empty URL. *)
Definition mergeable (v : Home.GeneratedVideo) : bool :=
  bool_decide (Home.status v = "completed") && JS.truthy (Home.videoUrl v).

(** Every selected id belongs to a video of the list that is completed. *)
Definition onlyCompleted (videos : list History.VideoHistory) (sel : list string)
    : Prop :=
  ∀ x, x ∈ sel ->
    ∃ v, v ∈ videos ∧ History.id v = x ∧ History.status v = "completed".

(** *** Sample data *)

Definition sceneTwo : Home.Scene :=
  {| Home.scene := 2; Home.title := "The storm"; Home.description := "Rain at sea" |}.

Definition video (n : Z) (url : option string) (state : string) : Home.GeneratedVideo :=
  {| Home.sceneNumber := n; Home.sceneTitle := "Scene"; Home.videoUrl := url;
     Home.status := state; Home.error := None |}.

(** A page showing scene 2 as failed, with nothing in flight. *)
Definition failedPage : Home.State :=
  {| Home.scenes := [sceneTwo];
     Home.generatedVideos := [video 2 (Some "/videos/2.mp4") "failed"];
     Home.abortControllers := ∅;
     Home.abortedSignals := ∅;
     Home.controllersCreated := 0 |}.

(** A page where scenes 2, 5 and 7 failed. *)
Definition storyPage : Home.State :=
  {| Home.scenes := [sceneTwo];
     Home.generatedVideos :=
       [video 1 (Some "/videos/1.mp4") "completed"; video 2 None "failed";
        video 5 None "failed"; video 6 (Some "/videos/6.mp4") "completed";
        video 7 None "failed"];
     Home.abortControllers := ∅;
     Home.abortedSignals := ∅;
     Home.controllersCreated := 0 |}.

Definition stillPending : Home.Settlement :=
  {| Home.generateResponse :=
       JS.Resolved (true, {| Home.message := None; Home.operationName := Some "op";
                             Home.sceneId := Some "scene" |});
     Home.statusResponse :=
       JS.Resolved {| Home.statusOf := Some "PENDING"; Home.videoUrlOf := None;
                      Home.errorOf := None |};
     Home.dateNow := 0 |}.

(** Status answers of the provider, and worlds of the single-video flow
    that give them. *)
Definition completedAnswer : Home.StatusData :=
  {| Home.statusOf := Some "MEDIA_GENERATION_STATUS_SUCCESSFUL";
     Home.videoUrlOf := Some "/videos/new.mp4"; Home.errorOf := None |}.

Definition failedAnswer : Home.StatusData :=
  {| Home.statusOf := Some "MEDIA_GENERATION_STATUS_FAILED";
     Home.videoUrlOf := None; Home.errorOf := Some "quota exceeded" |}.

Definition veoAnswering (answer : Home.StatusData) : VeoGenerator.World :=
  {| VeoGenerator.historyCreated := JS.Resolved (true, Some "entry");
     VeoGenerator.generated :=
       JS.Resolved (true, {| VeoGenerator.resultError := None;
                             VeoGenerator.operationName := Some "op";
                             VeoGenerator.sceneId := Some "scene";
                             VeoGenerator.tokenId := None |});
     VeoGenerator.statusAt := fun _ => JS.Resolved answer |}.

(** A page whose three scenes all failed, and surroundings in which every
    request is answered with a finished video and nothing else happens. *)
Definition threeFailed : Home.State :=
  {| Home.scenes :=
       [sceneTwo;
        {| Home.scene := 5; Home.title := "The reef"; Home.description := "Waves" |};
        {| Home.scene := 7; Home.title := "The shore"; Home.description := "Sand" |}];
     Home.generatedVideos :=
       [video 2 None "failed"; video 5 None "failed"; video 7 None "failed"];
     Home.abortControllers := ∅;
     Home.abortedSignals := ∅;
     Home.controllersCreated := 0 |}.

Definition succeeding : Home.Surroundings :=
  {| Home.settle := fun _ _ =>
       {| Home.generateResponse :=
            JS.Resolved (true, {| Home.message := None; Home.operationName := Some "op";
                                  Home.sceneId := Some "scene" |});
          Home.statusResponse := JS.Resolved completedAnswer;
          Home.dateNow := 1700 |};
     Home.meanwhile := fun _ st => st;
     Home.fastPath := fun _ => true |}.

Definition calm : Home.Surroundings :=
  {| Home.settle := fun _ _ => stillPending; Home.meanwhile := fun _ st => st;
     Home.fastPath := fun _ => true |}.

Definition veoPending : VeoGenerator.World :=
  {| VeoGenerator.historyCreated := JS.Resolved (true, Some "entry");
     VeoGenerator.generated :=
       JS.Resolved (true, {| VeoGenerator.resultError := None;
                             VeoGenerator.operationName := Some "op";
                             VeoGenerator.sceneId := Some "scene";
                             VeoGenerator.tokenId := None |});
     VeoGenerator.statusAt :=
       fun _ => JS.Resolved {| Home.statusOf := Some "PENDING"; Home.videoUrlOf := None;
                                Home.errorOf := None |} |}.

Definition veoIdle : VeoGenerator.State :=
  {| VeoGenerator.prompt := JS.text "a cat"; VeoGenerator.aspectRatio := "landscape";
     VeoGenerator.isGenerating := false; VeoGenerator.videoUrl := None;
     VeoGenerator.error := None |}.

Definition untitled (i u : string) : History.VideoHistory :=
  {| History.id := i; History.title := Some "A day at the beach";
     History.status := "completed"; History.videoUrl := Some u |}.

Definition titled (i t u : string) : History.VideoHistory :=
  {| History.id := i; History.title := Some t;
     History.status := "completed"; History.videoUrl := Some u |}.

Definition nothingSelected : History.State :=
  {| History.selectedVideos := []; History.isMergingSelected := false;
     History.mergingProject := None; History.mergedVideoUrls := ∅ |}.

Definition bulkForm (t : string) : BulkGenerator.State :=
  {| BulkGenerator.prompts := JS.text t; BulkGenerator.aspectRatio := "landscape";
     BulkGenerator.isGenerating := false; BulkGenerator.generationProgress := [];
     BulkGenerator.pollingInterval := false |}.

Definition emptyStream : Home.Stream :=
  {| Home.buffer := []; Home.videoProgress := []; Home.currentVideoScene := 0;
     Home.currentStep := 4; Home.streamedVideos := [] |}.

(** ** More of the story page: the start of streamed generation *)
Module StoryPage.
Import JS.

(** One pending entry per scene, in scene order. *)
Definition initialProgress (scenes : list Home.Scene) : list Home.VideoProgress :=
  map (fun sc =>
         {| Home.progressScene := Home.scene sc; Home.progressTitle := Home.title sc;
            Home.progressStatus := Some "pending"; Home.progressUrl := None;
            Home.progressError := None; Home.progressMessage := None;
            Home.progressTimestamp := None |})
    scenes.

(** [handleGenerateVideos] up to the request: step 4, fresh progress, and
    the empty line buffer the read loop starts from. *)
Definition handleGenerateVideos (scenes : list Home.Scene) (s : Home.Stream)
    : Home.Stream :=
  {| Home.buffer := []; Home.videoProgress := initialProgress scenes;
     Home.currentVideoScene := 0; Home.currentStep := 4;
     Home.streamedVideos := Home.streamedVideos s |}.

(** The records the read loop dispatches for a list of complete lines:
    those of the lines that start with "data: " and whose rest parses. *)
Definition records (parseJSON : Text -> option Home.SseData) (lines : list Text)
    : list Home.SseData :=
  omap (fun line =>
          if startsWith (text "data: ") line then parseJSON (drop 6 line) else None)
    lines.

Definition dispatchAll (pageScenes : list Home.Scene)
    (acc : Home.Stream * list Home.Effect) (data : Home.SseData)
    : Home.Stream * list Home.Effect :=
  let '(s, effs) := Home.dispatch pageScenes data (fst acc) in (s, snd acc ++ effs).

End StoryPage.

(** ** More of the bulk generator: the counter, and the status polling *)
Module BulkPolling.
Import JS.

(** The counter shown beside the prompt box, which also enables the
    generate button. *)
Definition promptCount (prompts : Text) : nat :=
  length (filter (fun line => (0 < length (trim line))%nat) (split newline prompts)).

Definition generateDisabled (st : BulkGenerator.State) : bool :=
  BulkGenerator.isGenerating st
  || bool_decide (promptCount (BulkGenerator.prompts st) = 0%nat)
  || (200 <? promptCount (BulkGenerator.prompts st))%nat.

(** A record of the history list, with the properties the poller reads. *)
Record HistoryVideo := {
  videoId : string;
  videoStatus : string;
  videoLink : option string;
}.

(** The page together with what the polling closure holds. *)
Record Polling := {
  page : BulkGenerator.State;
  historyEntryIds : list (option string);
  pollingAttempts : nat;
}.

Definition maxPollingAttempts : nat := 600.

Definition findVideo (videos : list HistoryVideo) (entryId : option string)
    : option HistoryVideo :=
  find (fun v => bool_decide (Some (videoId v) = entryId)) videos.

(** What the history record of a video makes of its progress item. *)
Definition updated (v : HistoryVideo) (item : BulkGenerator.VideoGenerationStatus)
    : BulkGenerator.VideoGenerationStatus :=
  if bool_decide (videoStatus v = "completed") then
    {| BulkGenerator.prompt := BulkGenerator.prompt item;
       BulkGenerator.status := "completed";
       BulkGenerator.videoUrl := videoLink v;
       BulkGenerator.error := BulkGenerator.error item;
       BulkGenerator.tokenLabel := BulkGenerator.tokenLabel item |}
  else if bool_decide (videoStatus v = "failed") then
    {| BulkGenerator.prompt := BulkGenerator.prompt item;
       BulkGenerator.status := "failed";
       BulkGenerator.videoUrl := BulkGenerator.videoUrl item;
       BulkGenerator.error := Some "Generation failed";
       BulkGenerator.tokenLabel := BulkGenerator.tokenLabel item |}
  else if bool_decide (videoStatus v = "pending") then
    {| BulkGenerator.prompt := BulkGenerator.prompt item;
       BulkGenerator.status := "processing";
       BulkGenerator.videoUrl := BulkGenerator.videoUrl item;
       BulkGenerator.error := BulkGenerator.error item;
       BulkGenerator.tokenLabel := BulkGenerator.tokenLabel item |}
  else item.

(** The [for] loop over the entry ids, from index [i] on: the item at the
    index of an id is updated from the history record with that id. *)
Fixpoint updateFrom (i : nat) (ids : list (option string)) (videos : list HistoryVideo)
    (progress : list BulkGenerator.VideoGenerationStatus)
    : list BulkGenerator.VideoGenerationStatus :=
  match ids with
  | [] => progress
  | entryId :: rest =>
      let progress1 :=
        if truthy entryId then
          match findVideo videos entryId with
          | Some v => alter (updated v) i progress
          | None => progress
          end
        else progress in
      updateFrom (S i) rest videos progress1
  end.

Definition settledInHistory (videos : list HistoryVideo) (entryId : option string)
    : bool :=
  if truthy entryId then
    match findVideo videos entryId with
    | Some v =>
        bool_decide (videoStatus v = "completed") || bool_decide (videoStatus v = "failed")
    | None => false
    end
  else true.

Definition allDone (ids : list (option string)) (videos : list HistoryVideo) : bool :=
  (0 <? length ids)%nat && forallb (settledInHistory videos) ids.

(** The interval fires: the attempt is counted before the request. *)
Definition tick (p : Polling) : Polling :=
  {| page := page p; historyEntryIds := historyEntryIds p;
     pollingAttempts := S (pollingAttempts p) |}.

(** The history request of a tick settled: [ok] and the list of videos. *)
Definition settleTick (r : Settled (bool * list HistoryVideo)) (p : Polling) : Polling :=
  match r with
  | Resolved (true, videos) =>
      let progress :=
        updateFrom 0 (historyEntryIds p) videos
          (BulkGenerator.generationProgress (page p)) in
      let stop :=
        allDone (historyEntryIds p) videos
        || (maxPollingAttempts <=? pollingAttempts p)%nat in
      {| page :=
           {| BulkGenerator.prompts := BulkGenerator.prompts (page p);
              BulkGenerator.aspectRatio := BulkGenerator.aspectRatio (page p);
              BulkGenerator.isGenerating :=
                if stop then false else BulkGenerator.isGenerating (page p);
              BulkGenerator.generationProgress := progress;
              BulkGenerator.pollingInterval :=
                if stop then false else BulkGenerator.pollingInterval (page p) |};
         historyEntryIds := historyEntryIds p;
         pollingAttempts := pollingAttempts p |}
  | _ => p
  end.

(** The body of the bulk response; [videoIds] is taken to be the array
    the server sends. *)
Record BulkResponse := {
  responseMessage : option string;
  videoIds : list (option string);
}.

Definition startFailed (msg : option string) (st : BulkGenerator.State)
    : BulkGenerator.State * list BulkGenerator.Effect * option Polling :=
  ({| BulkGenerator.prompts := BulkGenerator.prompts st;
      BulkGenerator.aspectRatio := BulkGenerator.aspectRatio st;
      BulkGenerator.isGenerating := false;
      BulkGenerator.generationProgress := BulkGenerator.generationProgress st;
      BulkGenerator.pollingInterval := BulkGenerator.pollingInterval st |},
   [BulkGenerator.Toast "Failed to start generation" (orElse msg "Please try again") true],
   None).

(** The bulk request settled; [sent] is the number of prompts sent. When
    the generation has started, the interval is set up with the entry ids
    of the response and a fresh attempt counter. *)
Definition resumeGenerate (r : Settled (bool * BulkResponse)) (sent : nat)
    (st : BulkGenerator.State)
    : BulkGenerator.State * list BulkGenerator.Effect * option Polling :=
  match r with
  | Rejected (ErrorObject m) => startFailed (Some m) st
  | Rejected OtherValue => startFailed None st
  | Resolved (false, body) => startFailed (responseMessage body) st
  | Resolved (true, body) =>
      let st1 :=
        {| BulkGenerator.prompts := BulkGenerator.prompts st;
           BulkGenerator.aspectRatio := BulkGenerator.aspectRatio st;
           BulkGenerator.isGenerating := BulkGenerator.isGenerating st;
           BulkGenerator.generationProgress := BulkGenerator.generationProgress st;
           BulkGenerator.pollingInterval := true |} in
      (st1,
       [BulkGenerator.Toast "Generation started!"
          (Home.decimal (N.of_nat sent)
           +:+ " videos are now generating in the background. You can leave this page and check progress in Video History.")
          false],
       Some {| page := st1; historyEntryIds := videoIds body; pollingAttempts := 0 |})
  end.

(** What happens while the interval runs: a period ends, or the history
    request of an earlier period settles. The interval fires every two
    seconds whether or not the earlier requests have settled, so periods
    and answers come in any order; an answer that comes after the
    interval was cleared is handled like any other. *)
Inductive Event :=
| Fires
| Settles (r : Settled (bool * list HistoryVideo)).

(** The polling together with the number of history requests under way. *)
Record Timeline := {
  polling : Polling;
  underWay : nat;
}.

Definition atStart (p : Polling) : Timeline := {| polling := p; underWay := 0 |}.

Definition happens (t : Timeline) (e : Event) : Timeline :=
  match e with
  | Fires =>
      if BulkGenerator.pollingInterval (page (polling t)) then
        {| polling := tick (polling t); underWay := S (underWay t) |}
      else t
  | Settles r =>
      match underWay t with
      | S k => {| polling := settleTick r (polling t); underWay := k |}
      | O => t
      end
  end.

Definition run (events : list Event) (t : Timeline) : Timeline := foldl happens t events.

End BulkPolling.

(** ** More of the history view: the merge of the selected videos *)
Module HistorySelection.
Import JS.

Inductive Effect :=
| Toast (heading : string) (body : string) (destructive : bool)
| WindowOpen (url : string)
| Refetch.

Record MergeResponse := {
  responseMessage : option string;
  mergedVideoUrl : option string;
}.

(** The merge request settled; [sent] is how many videos the handler saw
    selected when it was called. *)
Definition resumeMergeSelected (r : Settled (bool * MergeResponse)) (sent : nat)
    (st : History.State) : History.State * list Effect :=
  let failed (e : Thrown) :=
    ({| History.selectedVideos := History.selectedVideos st;
        History.isMergingSelected := false;
        History.mergingProject := History.mergingProject st;
        History.mergedVideoUrls := History.mergedVideoUrls st |},
     [Toast "Merge Failed"
        (Home.thrownMessage e "Failed to merge selected videos.") true]) in
  match r with
  | Rejected e => failed e
  | Resolved (ok, result) =>
      if ok then
        ({| History.selectedVideos := [];
            History.isMergingSelected := false;
            History.mergingProject := History.mergingProject st;
            History.mergedVideoUrls := History.mergedVideoUrls st |},
         [Toast "Videos Merged Successfully!"
            (Home.decimal (N.of_nat sent) +:+ " videos have been merged.") false]
         ++ (if truthy (mergedVideoUrl result)
             then [WindowOpen (default EmptyString (mergedVideoUrl result))] else [])
         ++ [Refetch])
      else failed (ErrorObject (orElse (responseMessage result) "Failed to merge videos"))
  end.

(** The states the selection goes through: checkboxes are toggled,
    merges are requested and settle. The list of videos is fetched again
    in between and a video can be regenerated, so a card may show another
    status each time it is drawn; the log keeps the cards whose checkbox
    was toggled, each as it was drawn at that moment, latest first. *)
Inductive selecting : list History.VideoHistory -> History.State -> Prop :=
| selecting_start st :
    History.selectedVideos st = [] -> selecting [] st
| selecting_toggle log st v :
    selecting log st -> selecting (v :: log) (History.onCheckedChange v st).1
| selecting_merge log st :
    selecting log st -> selecting log (History.handleMergeSelected st).1.1
| selecting_settled log st r sent :
    selecting log st -> selecting log (resumeMergeSelected r sent st).1.

End HistorySelection.

(** ** The scene card: sections of a scene description *)
Module SceneCard.
Import JS.

Record Sections := {
  visuals : Text;
  dialogue_action : Text;
  music : Text;
  sound_effects : Text;
  transition : Text;
}.

Definition noSections : Sections :=
  {| visuals := []; dialogue_action := []; music := []; sound_effects := [];
     transition := [] |}.

(** [line.replace(key, '').trim()] for a line that starts with [key]: the
    first occurrence of the key is the one at the start. *)
Definition valueAfter (key : Text) (line : Text) : Text := trim (drop (length key) line).

(** The body of the [forEach]. *)
Definition readLine (sections : Sections) (line : Text) : Sections :=
  if startsWith (text "visuals:") line then
    {| visuals := valueAfter (text "visuals:") line;
       dialogue_action := dialogue_action sections; music := music sections;
       sound_effects := sound_effects sections; transition := transition sections |}
  else if startsWith (text "dialogue_action:") line then
    {| visuals := visuals sections;
       dialogue_action := valueAfter (text "dialogue_action:") line;
       music := music sections;
       sound_effects := sound_effects sections; transition := transition sections |}
  else if startsWith (text "music:") line then
    {| visuals := visuals sections; dialogue_action := dialogue_action sections;
       music := valueAfter (text "music:") line;
       sound_effects := sound_effects sections; transition := transition sections |}
  else if startsWith (text "sound_effects:") line then
    {| visuals := visuals sections; dialogue_action := dialogue_action sections;
       music := music sections;
       sound_effects := valueAfter (text "sound_effects:") line;
       transition := transition sections |}
  else if startsWith (text "transition:") line then
    {| visuals := visuals sections; dialogue_action := dialogue_action sections;
       music := music sections; sound_effects := sound_effects sections;
       transition := valueAfter (text "transition:") line |}
  else sections.

Definition parseDescription (description : Text) : Sections :=
  foldl readLine noSections (split newline description).

End SceneCard.

(** ** Notions used in the further statements *)

(** [v'] keeps the scene number and title of [v], and is [v] itself unless
    the scene number of [v] is one of those in [P]. *)
Definition sameUnless (P : Z -> Prop) (v v' : Home.GeneratedVideo) : Prop :=
  Home.sceneNumber v' = Home.sceneNumber v
  ∧ Home.sceneTitle v' = Home.sceneTitle v
  ∧ (¬ P (Home.sceneNumber v) -> v' = v).

Definition onlyScenes (P : Z -> Prop) (vs vs' : list Home.GeneratedVideo) : Prop :=
  Forall2 (sameUnless P) vs vs'.

(** Controllers are known, and no registered controller is aborted. *)
Definition registryLive (st : Home.State) : Prop :=
  controllersKnown st
  ∧ ∀ n c, Home.abortControllers st !! n = Some c -> c ∉ Home.abortedSignals st.

(** The view shows as retrying exactly the scenes with a retry in flight
    that was started through it, one retry per scene. *)
Definition spinnersExact (s : Session.Sys) : Prop :=
  NoDup (map Home.retriedScene (Session.viaView s))
  ∧ ∀ n, n ∈ VideosDisplay.retryingScenes (Session.view s)
         <-> n ∈ map Home.retriedScene (Session.viaView s).

Fixpoint countChar (c : ascii) (s : string) : nat :=
  match s with
  | EmptyString => 0
  | String x rest => (if bool_decide (x = c) then 1 else 0) + countChar c rest
  end.

Definition historyEntryOf (w : VeoGenerator.World) : option string :=
  match VeoGenerator.historyCreated w with
  | JS.Resolved (true, id) => id
  | _ => None
  end.

Definition isTerminalPatch (e : VeoGenerator.Effect) : bool :=
  match e with
  | VeoGenerator.PatchVideoHistory _ (VeoGenerator.PatchCompleted _) => true
  | VeoGenerator.PatchVideoHistory _ VeoGenerator.PatchFailed => true
  | _ => false
  end.

Definition isVeoRequest (e : VeoGenerator.Effect) : bool :=
  match e with
  | VeoGenerator.Toast _ _ _ => false
  | _ => true
  end.

(** The first and the last character of a text are not white space. *)
Definition trimmed (t : JS.Text) : Prop :=
  (∀ c rest, t = c :: rest -> JS.isWhiteSpace c = false)
  ∧ (∀ c front, t = front ++ [c] -> JS.isWhiteSpace c = false).

(** What the history says about the item at index [j]. *)
Definition historyOf (videos : list BulkPolling.HistoryVideo)
    (ids : list (option string)) (j : nat) : option BulkPolling.HistoryVideo :=
  match ids !! j with
  | Some entryId =>
      if JS.truthy entryId then BulkPolling.findVideo videos entryId else None
  | None => None
  end.

Definition isHistoryPost (e : Home.Effect) : bool :=
  match e with
  | Home.PostVideoHistory _ _ _ => true
  | _ => false
  end.

Definition isVideoComplete (data : Home.SseData) : bool :=
  bool_decide (Home.dataType data = Some "video_complete").

Definition isComplete (data : Home.SseData) : Prop :=
  Home.dataType data = Some "complete".

(** The lines of a stream text, each with its newline put back. *)
Definition terminated (lines : list JS.Text) : JS.Text :=
  concat (map (fun line => line ++ [JS.newline]) lines).

(** A video that is neither pending nor being generated any more. *)
Definition settledVideo (v : Home.GeneratedVideo) : Prop :=
  Home.status v = "completed" ∨ Home.status v = "failed".

(** The registry of abort controllers is in step with the retries in
    flight: controllers are numbered in creation order, no two scenes share
    one, and every registered controller is live and is the controller of
    a retry in flight for the scene it is registered under. *)
Definition inStep (pg : Home.State) (inFlight : list Home.Attempt) : Prop :=
  controllersKnown pg
  ∧ (∀ a, a ∈ inFlight -> (Home.controller a < Home.controllersCreated pg)%nat)
  ∧ ∀ n c, Home.abortControllers pg !! n = Some c ->
           (c ∉ Home.abortedSignals pg)
           ∧ (∀ m, Home.abortControllers pg !! m = Some c -> m = n)
           ∧ ∃ a, a ∈ inFlight ∧ Home.retriedScene a = n ∧ Home.controller a = c.

Definition registryInStep (s : Session.Sys) : Prop :=
  inStep (Session.page s) (Session.viaView s ++ Session.direct s).

(** The closing patch of a history entry that matches how the run ended. *)
Definition closingPatch (st : VeoGenerator.State) : VeoGenerator.Patch :=
  match VeoGenerator.error st with
  | None => VeoGenerator.PatchCompleted (VeoGenerator.videoUrl st)
  | Some _ => VeoGenerator.PatchFailed
  end.

Definition isToast (e : VeoGenerator.Effect) : bool :=
  match e with
  | VeoGenerator.Toast _ _ _ => true
  | _ => false
  end.

(** How the polling of a run that started from [st] can be left. *)
Definition leftFrom (st : VeoGenerator.State) (entry : option string)
    (x : VeoGenerator.Exit) : Prop :=
  match x with
  | VeoGenerator.Returned st' effs =>
      ∃ url, st' = VeoGenerator.setVideoUrl url st
             ∧ List.filter isTerminalPatch effs
               = VeoGenerator.patchIf entry (VeoGenerator.PatchCompleted url)
             ∧ List.filter isToast effs
               = [VeoGenerator.Toast "Video generated!"
                    "Your video is ready to watch and download." false]
  | VeoGenerator.Threw e st' effs =>
      st' = st ∧ List.filter isTerminalPatch effs = []
      ∧ List.filter isToast effs = []
  end.

(** What a finished run shows and has sent. *)
Definition endsIdle (entry : option string) (st : VeoGenerator.State)
    (r : VeoGenerator.State * list VeoGenerator.Effect) : Prop :=
  VeoGenerator.isGenerating r.1 = false
  ∧ VeoGenerator.prompt r.1 = VeoGenerator.prompt st
  ∧ List.filter isTerminalPatch r.2 = VeoGenerator.patchIf entry (closingPatch r.1)
  ∧ ((VeoGenerator.error r.1 = None
      ∧ List.filter isToast r.2
        = [VeoGenerator.Toast "Video generated!"
             "Your video is ready to watch and download." false])
     ∨ ∃ msg, VeoGenerator.error r.1 = Some msg
              ∧ VeoGenerator.videoUrl r.1 = None
              ∧ List.filter isToast r.2
                = [VeoGenerator.Toast "Generation failed" msg true]).

(** A history request that was answered with a list of videos. *)
Definition isOk (r : JS.Settled (bool * list BulkPolling.HistoryVideo)) : bool :=
  match r with
  | JS.Resolved (true, _) => true
  | _ => false
  end.

Definition isFires (e : BulkPolling.Event) : bool :=
  match e with
  | BulkPolling.Fires => true
  | BulkPolling.Settles _ => false
  end.

(** No history request of the timeline is answered with a list. *)
Definition unanswered (events : list BulkPolling.Event) : Prop :=
  ∀ r, BulkPolling.Settles r ∈ events -> isOk r = false.

(** The timeline in which every history request settles before the next
    period ends. *)
Definition inTurn (rs : list (JS.Settled (bool * list BulkPolling.HistoryVideo)))
    : list BulkPolling.Event :=
  concat (map (fun r => [BulkPolling.Fires; BulkPolling.Settles r]) rs).

(** The interval is cleared and the form is idle. *)
Definition stopped (t : BulkPolling.Timeline) : Prop :=
  BulkGenerator.pollingInterval (BulkPolling.page (BulkPolling.polling t)) = false
  ∧ BulkGenerator.isGenerating (BulkPolling.page (BulkPolling.polling t)) = false.

Definition settledItem (item : BulkGenerator.VideoGenerationStatus) : Prop :=
  BulkGenerator.status item = "completed" ∨ BulkGenerator.status item = "failed".

(** A selection that can be merged: videos that were completed on one
    of the cards listed, each once, at most 19 of them. *)
Definition wellSelected (videos : list History.VideoHistory) (sel : list string) : Prop :=
  onlyCompleted videos sel ∧ NoDup sel ∧ (length sel <= 19)%nat.

(** The five sections of a scene description. *)
Inductive SectionKey := Visuals | DialogueAction | Music | SoundEffects | Transition.

Definition keyText (k : SectionKey) : JS.Text :=
  match k with
  | Visuals => JS.text "visuals:"
  | DialogueAction => JS.text "dialogue_action:"
  | Music => JS.text "music:"
  | SoundEffects => JS.text "sound_effects:"
  | Transition => JS.text "transition:"
  end.

Definition field (k : SectionKey) (sections : SceneCard.Sections) : JS.Text :=
  match k with
  | Visuals => SceneCard.visuals sections
  | DialogueAction => SceneCard.dialogue_action sections
  | Music => SceneCard.music sections
  | SoundEffects => SceneCard.sound_effects sections
  | Transition => SceneCard.transition sections
  end.

(** A text that does not go on with a digit. *)
Definition endsNumber (rest : string) : Prop :=
  match rest with
  | String c _ => History.isDigit c = false
  | EmptyString => True
  end.

(** Sample records of the generation stream, and a stand-in for
    [JSON.parse] that reads a one-letter record. *)
Definition sseRecord (kind : string) (n : option Z) : Home.SseData :=
  {| Home.dataType := Some kind; Home.dataScene := n;
     Home.dataStatus := Some "generating"; Home.dataMessage := None;
     Home.dataTimestamp := None; Home.dataVideoUrl := Some "/videos/1.mp4";
     Home.dataError := None; Home.dataCurrent := n;
     Home.dataVideos := [video 1 (Some "/videos/1.mp4") "completed"] |}.

Definition oneLetter (rest : JS.Text) : option Home.SseData :=
  match rest with
  | [80%N] => Some (sseRecord "progress" (Some 1%Z))
  | [86%N] => Some (sseRecord "video_complete" (Some 1%Z))
  | [67%N] => Some (sseRecord "complete" None)
  | _ => None
  end.

Definition sceneOne : Home.Scene :=
  {| Home.scene := 1; Home.title := "The harbour"; Home.description := "Boats at dawn" |}.

Definition blankPrompt (st : VeoGenerator.State) : VeoGenerator.State :=
  {| VeoGenerator.prompt := JS.text "  "; VeoGenerator.aspectRatio := VeoGenerator.aspectRatio st;
     VeoGenerator.isGenerating := VeoGenerator.isGenerating st;
     VeoGenerator.videoUrl := VeoGenerator.videoUrl st;
     VeoGenerator.error := VeoGenerator.error st |}.

(** The session after one click on the retry button of scene [n]. *)
Definition clicked (n : Z) (pg : Home.State) : Session.Sys :=
  let r := VideosDisplay.handleRetryVideo Home.handleRetryVideo n
             (Session.view (Session.mounted pg)) pg in
  {| Session.page := r.2.1.1; Session.view := r.1;
     Session.viaView := Session.viaView (Session.mounted pg) ++ Session.pending r.2.2;
     Session.direct := Session.direct (Session.mounted pg) |}.

(** A history that reports the video "v1" as completed. *)
Definition oneDone : list BulkPolling.HistoryVideo :=
  [{| BulkPolling.videoId := "v1"; BulkPolling.videoStatus := "completed";
      BulkPolling.videoLink := Some "/videos/v1.mp4" |}].

Definition started : JS.Settled (bool * BulkPolling.BulkResponse) :=
  JS.Resolved (true, {| BulkPolling.responseMessage := None;
                        BulkPolling.videoIds := [Some "v1"] |}).

(** The polling of the form with one prompt, as the started generation
    sets it up. *)
Definition polling : BulkPolling.Polling :=
  {| BulkPolling.page :=
       {| BulkGenerator.prompts := JS.text "a cat";
          BulkGenerator.aspectRatio := "landscape";
          BulkGenerator.isGenerating := true;
          BulkGenerator.generationProgress := [BulkGenerator.pendingStatus (JS.text "a cat")];
          BulkGenerator.pollingInterval := true |};
     BulkPolling.historyEntryIds := [Some "v1"];
     BulkPolling.pollingAttempts := 0 |}.

(** The bulk form with two prompts typed with spaces around them. *)
Definition twoPrompts : BulkGenerator.State :=
  {| BulkGenerator.prompts := JS.text "  a cat " ++ [JS.newline] ++ JS.text "a dog  ";
     BulkGenerator.aspectRatio := "landscape";
     BulkGenerator.isGenerating := false; BulkGenerator.generationProgress := [];
     BulkGenerator.pollingInterval := false |}.

(** The history view after the checkboxes of "a" and "b" were ticked. *)
Definition bothSelected : History.State :=
  (History.onCheckedChange (untitled "b" "b.mp4")
     (History.onCheckedChange (untitled "a" "a.mp4") nothingSelected).1).1.

(** The results view showing the video of an earlier merge. *)
Definition earlierMerge : VideosDisplay.State :=
  {| VideosDisplay.retryingScenes := ∅; VideosDisplay.retryingAll := false;
     VideosDisplay.merging := false; VideosDisplay.mergingStatus := EmptyString;
     VideosDisplay.mergedVideoUrl := Some "/videos/merged.mp4" |}.


(** ** The merge selection of the history view *)
Section Selection.
Import History.

Lemma delete_length x (sel : list string) : (length (delete x sel) <= length sel)%nat.
Proof. unfold delete. apply length_filter. Qed.

Lemma delete_spec x y (sel : list string) : y ∈ delete x sel <-> y ∈ sel ∧ y ≠ x.
Proof. unfold delete. rewrite list_elem_of_filter. tauto. Qed.

Lemma has_true x (sel : list string) : has x sel = true <-> x ∈ sel.
Proof. unfold has. apply bool_decide_eq_true. Qed.

Lemma has_false x (sel : list string) : has x sel = false <-> x ∉ sel.
Proof. unfold has. apply bool_decide_eq_false. Qed.

Lemma add_fresh x (sel : list string) : x ∉ sel -> add x sel = sel ++ [x].
Proof. intros H. unfold add. apply has_false in H. by rewrite H. Qed.

Lemma delete_NoDup x (sel : list string) : NoDup sel -> NoDup (delete x sel).
Proof. unfold delete. apply NoDup_filter. Qed.

(** C10. Toggling the checkbox of a video keeps the selection a set of
    completed videos of size at most 19: a video that is not completed
    leaves it unchanged, a 20th video leaves it unchanged, a completed
    unselected video is added while there is room, and a selected one is
    removed. *)
Theorem selection_toggle_invariants (videos : list VideoHistory)
    (video : VideoHistory) (st : State) :
  video ∈ videos ->
  onlyCompleted videos (selectedVideos st) ->
  NoDup (selectedVideos st) ->
  (length (selectedVideos st) <= 19)%nat ->
  let st' := fst (onCheckedChange video st) in
  onlyCompleted videos (selectedVideos st')
  ∧ NoDup (selectedVideos st')
  ∧ (length (selectedVideos st') <= 19)%nat
  ∧ (status video ≠ "completed" -> st' = st)
  ∧ (status video = "completed" -> id video ∉ selectedVideos st ->
     length (selectedVideos st) = 19%nat -> st' = st)
  ∧ (status video = "completed" -> id video ∉ selectedVideos st ->
     (length (selectedVideos st) < 19)%nat ->
     selectedVideos st' = selectedVideos st ++ [id video])
  ∧ (status video = "completed" -> id video ∈ selectedVideos st ->
     (id video ∉ selectedVideos st')
     ∧ (∀ y, y ≠ id video -> (y ∈ selectedVideos st' <-> y ∈ selectedVideos st))).
Proof.
  intros Hin Hc Hnd Hlen. unfold onCheckedChange, handleVideoSelect.
  case_bool_decide as Hst; cbn [negb];
    [destruct (has (id video) (selectedVideos st)) eqn:Hhas;
     [apply has_true in Hhas
     |apply has_false in Hhas;
      destruct (19 <=? length (selectedVideos st))%nat eqn:Hfull;
      [apply Nat.leb_le in Hfull | apply Nat.leb_gt in Hfull]] |];
    cbn [fst setSelectedVideos selectedVideos].
  - repeat split; try done.
    + intros x Hx. apply delete_spec in Hx. apply Hc. tauto.
    + by apply delete_NoDup.
    + pose proof (delete_length (id video) (selectedVideos st)). lia.
    + rewrite delete_spec. tauto.
    + rewrite delete_spec. tauto.
    + rewrite delete_spec. tauto.
  - repeat split; try done; intros; lia.
  - rewrite add_fresh by done.
    repeat split; try done.
    + intros x Hx. apply elem_of_app in Hx as [Hx | Hx]; [by apply Hc |].
      apply list_elem_of_singleton in Hx. subst x. eauto.
    + apply NoDup_app. repeat split; [done | | apply NoDup_singleton].
      intros x Hx Hx'. apply list_elem_of_singleton in Hx'. by subst x.
    + rewrite length_app. simpl. lia.
    + lia.
  - repeat split; try done.
Qed.

Lemma selection_toggle_invariants_witness :
  untitled "a" "a.mp4" ∈ [untitled "a" "a.mp4"]
  ∧ onlyCompleted [untitled "a" "a.mp4"] (selectedVideos nothingSelected)
  ∧ selectedVideos (fst (onCheckedChange (untitled "a" "a.mp4") nothingSelected))
    = ["a"].
Proof.
  assert (untitled "a" "a.mp4" ∈ [untitled "a" "a.mp4"]) as Hin by (by left).
  assert (onlyCompleted [untitled "a" "a.mp4"] (selectedVideos nothingSelected))
    as Hc by (intros x Hx; by apply not_elem_of_nil in Hx).
  split; [exact Hin |]. split; [exact Hc |].
  destruct (selection_toggle_invariants [untitled "a" "a.mp4"] (untitled "a" "a.mp4")
              nothingSelected Hin Hc (NoDup_nil_2) ltac:(cbn; lia))
    as (_ & _ & _ & _ & _ & Hadd & _).
  apply Hadd; [reflexivity | apply not_elem_of_nil | cbn; lia].
Defined.
End Selection.

(** ** Validation of a bulk submission *)
Section Bulk.
Import JS.

Lemma trimStart_blank (t : Text) : nonBlank t = false -> trimStart t = [].
Proof.
  induction t as [|c t IH]; [done |]. unfold nonBlank. cbn [existsb trimStart].
  intros H. apply orb_false_iff in H as [Hc Ht].
  apply negb_false_iff in Hc. rewrite Hc. by apply IH.
Qed.

Lemma trimStart_nonBlank (t : Text) : nonBlank t = true -> trimStart t ≠ [].
Proof.
  induction t as [|c t IH]; [done |]. unfold nonBlank. cbn [existsb trimStart].
  intros H. destruct (isWhiteSpace c) eqn:Hc; [| done].
  cbn [negb orb] in H. by apply IH.
Qed.

Lemma trimStart_keeps_nonBlank (t : Text) : nonBlank (trimStart t) = nonBlank t.
Proof.
  induction t as [|c t IH]; [done |]. cbn [trimStart].
  destruct (isWhiteSpace c) eqn:Hc; [| done].
  rewrite IH. unfold nonBlank. cbn [existsb]. by rewrite Hc.
Qed.

Lemma nonBlank_rev (t : Text) : nonBlank (rev t) = nonBlank t.
Proof.
  unfold nonBlank. apply eq_true_iff_eq. rewrite !existsb_exists.
  split; intros (c & Hin & Hc); exists c; split; try done.
  - by apply in_rev.
  - by apply in_rev in Hin.
Qed.

(** [trim] leaves something exactly of the lines that are not blank. *)
Lemma trim_kept (t : Text) : (0 <? length (trim t))%nat = nonBlank t.
Proof.
  unfold trim. rewrite length_rev.
  destruct (nonBlank t) eqn:Hb.
  - assert (trimStart (rev (trimStart t)) ≠ []) as Hne.
    { apply trimStart_nonBlank. by rewrite nonBlank_rev, trimStart_keeps_nonBlank. }
    destruct (trimStart (rev (trimStart t))); [done | reflexivity].
  - by rewrite (trimStart_blank t Hb).
Qed.

Lemma promptLines_count (t : Text) :
  length (BulkGenerator.promptLines t)
  = length (List.filter nonBlank (split newline t)).
Proof.
  unfold BulkGenerator.promptLines.
  induction (split newline t) as [|l ls IH]; [done |].
  cbn [map List.filter]. rewrite filter_cons.
  pose proof (trim_kept l) as Hk.
  destruct (nonBlank l).
  - apply Nat.ltb_lt in Hk. rewrite decide_True by done.
    cbn [length]. f_equal. exact IH.
  - apply Nat.ltb_ge in Hk. rewrite decide_False by lia. exact IH.
Qed.

Lemma promptLines_in_order (t : Text) :
  BulkGenerator.promptLines t = map trim (List.filter nonBlank (split newline t)).
Proof.
  unfold BulkGenerator.promptLines.
  induction (split newline t) as [|l ls IH]; [done |].
  cbn [map List.filter]. rewrite filter_cons.
  pose proof (trim_kept l) as Hk.
  destruct (nonBlank l).
  - apply Nat.ltb_lt in Hk. rewrite decide_True by done. cbn [map]. f_equal. exact IH.
  - apply Nat.ltb_ge in Hk. rewrite decide_False by lia. exact IH.
Qed.

(** C5. The prompts of a submission are the lines of the text that are
    not blank, each trimmed, in the order of the text. With none of
    them, or more than 200, the submission is rejected: the progress list
    and the generating flag stay as they were and no bulk request is
    sent. With 1 to 200 of them the progress list becomes one pending
    entry per prompt, in the order of the text, and the request carries
    exactly these prompts in that order. *)
Theorem bulk_submission_bounds (st : BulkGenerator.State) :
  let lines := BulkGenerator.promptLines (BulkGenerator.prompts st) in
  let st' := fst (BulkGenerator.handleGenerate st) in
  let effs := snd (BulkGenerator.handleGenerate st) in
  lines = map trim (List.filter nonBlank (split newline (BulkGenerator.prompts st)))
  ∧ length lines
    = length (List.filter nonBlank (split newline (BulkGenerator.prompts st)))
  ∧ (length lines = 0%nat ∨ (200 < length lines)%nat ->
     BulkGenerator.generationProgress st' = BulkGenerator.generationProgress st
     ∧ BulkGenerator.isGenerating st' = BulkGenerator.isGenerating st
     ∧ existsb isBulkRequest effs = false)
  ∧ ((1 <= length lines <= 200)%nat ->
     BulkGenerator.generationProgress st' = map BulkGenerator.pendingStatus lines
     ∧ length (BulkGenerator.generationProgress st') = length lines
     ∧ map BulkGenerator.prompt (BulkGenerator.generationProgress st')
       = map trim (List.filter nonBlank (split newline (BulkGenerator.prompts st)))
     ∧ Forall (fun u => BulkGenerator.status u = "pending")
         (BulkGenerator.generationProgress st')
     ∧ effs
       = [BulkGenerator.PostBulkGenerate
            (map trim (List.filter nonBlank (split newline (BulkGenerator.prompts st))))
            (BulkGenerator.aspectRatio st)]).
Proof.
  intros lines st' effs. subst st' effs. unfold BulkGenerator.handleGenerate. fold lines.
  assert (lines = map trim (List.filter nonBlank (split newline (BulkGenerator.prompts st))))
    as Horder by apply promptLines_in_order.
  split; [exact Horder |]. split; [apply promptLines_count |].
  case_bool_decide as H0; [| destruct (200 <? length lines)%nat eqn:H200;
    [apply Nat.ltb_lt in H200 | apply Nat.ltb_ge in H200]]; cbn [fst snd].
  - split; [done | lia].
  - split; [done | lia].
  - split; [lia |]. intros _.
    cbn [BulkGenerator.generationProgress]. rewrite length_map, map_map.
    cbn [BulkGenerator.prompt BulkGenerator.pendingStatus].
    rewrite map_id, <- Horder. repeat split; try done.
    apply Forall_map. by apply Forall_true.
Qed.

Lemma bulk_submission_bounds_witness :
  (1 <= length (BulkGenerator.promptLines (BulkGenerator.prompts twoPrompts)) <= 200)%nat
  ∧ map BulkGenerator.prompt
      (BulkGenerator.generationProgress (fst (BulkGenerator.handleGenerate twoPrompts)))
    = [JS.text "a cat"; JS.text "a dog"]
  ∧ snd (BulkGenerator.handleGenerate twoPrompts)
    = [BulkGenerator.PostBulkGenerate [JS.text "a cat"; JS.text "a dog"] "landscape"]
  ∧ (length (BulkGenerator.promptLines (BulkGenerator.prompts (bulkForm " "))) = 0%nat
     ∨ (200 < length (BulkGenerator.promptLines
                        (BulkGenerator.prompts (bulkForm " "))))%nat)
  ∧ existsb isBulkRequest (snd (BulkGenerator.handleGenerate (bulkForm " "))) = false.
Proof.
  assert (1 <= length (BulkGenerator.promptLines
                         (BulkGenerator.prompts twoPrompts)) <= 200)%nat
    as Htwo by (vm_compute; lia).
  assert (length (BulkGenerator.promptLines (BulkGenerator.prompts (bulkForm " ")))
          = 0%nat
          ∨ (200 < length (BulkGenerator.promptLines
                             (BulkGenerator.prompts (bulkForm " "))))%nat)
    as Hnone by (left; reflexivity).
  split; [exact Htwo |].
  destruct (bulk_submission_bounds twoPrompts) as (_ & _ & _ & Hok).
  destruct (Hok Htwo) as (_ & _ & Hprompts & _ & Hsent).
  split; [exact Hprompts |]. split; [exact Hsent |]. split; [exact Hnone |].
  destruct (bulk_submission_bounds (bulkForm " ")) as (_ & _ & Hrej & _).
  by destruct (Hrej Hnone) as (_ & _ & Hreq).
Defined.
End Bulk.

(** ** Merge requests *)
Section Merge.

(** The results view refuses to merge fewer than two videos whose status
    is completed, and then changes nothing and sends nothing. *)
Lemma results_merge_needs_two (videos : list Home.GeneratedVideo)
    (projectId : option string) (d : VideosDisplay.State) :
  (length (VideosDisplay.completedVideos videos) < 2)%nat ->
  VideosDisplay.handleMergeVideos videos projectId d
  = (d, [VideosDisplay.Toast "Cannot Merge"
           "You need at least 2 completed videos to merge." true], false).
Proof.
  intros H. unfold VideosDisplay.handleMergeVideos.
  apply Nat.ltb_lt in H. by rewrite H.
Qed.

(** The history view counts only completed videos that carry a URL. *)
Lemma history_merge_needs_two (key : string) (videos : list History.VideoHistory)
    (projectId : option string) (st : History.State) :
  (length (List.filter
             (fun v => bool_decide (History.status v = "completed")
                       && JS.truthy (History.videoUrl v)) videos) < 2)%nat ->
  let '(st', effs, waiting) := History.handleMergeVideos key videos projectId st in
  History.selectedVideos st' = History.selectedVideos st
  ∧ History.mergedVideoUrls st' = History.mergedVideoUrls st
  ∧ effs = [History.Toast "Cannot Merge"
              "You need at least 2 completed videos to merge." true]
  ∧ waiting = false.
Proof.
  intros H. unfold History.handleMergeVideos.
  assert (length (History.completedVideos videos)
          = length (List.filter
             (fun v => bool_decide (History.status v = "completed")
                       && JS.truthy (History.videoUrl v)) videos)) as ->.
  { unfold History.completedVideos. clear H.
    induction videos as [|v vs IH]; [done |].
    rewrite filter_cons. cbn [List.filter].
    destruct (decide (History.status v = "completed"
                      ∧ JS.truthy (History.videoUrl v) = true)) as [[H1 H2] | Hn].
    - rewrite bool_decide_eq_true_2, H2 by done. cbn [andb length]. by rewrite IH.
    - destruct (bool_decide (History.status v = "completed")) eqn:Hs;
        destruct (JS.truthy (History.videoUrl v)) eqn:Ht; cbn [andb]; try exact IH.
      apply bool_decide_eq_true in Hs. tauto. }
  apply Nat.ltb_lt in H. by rewrite H.
Qed.

Lemma selected_merge_needs_two (st : History.State) :
  (length (History.selectedVideos st) < 2)%nat ->
  History.handleMergeSelected st
  = (st, [History.Toast "Select More Videos"
            "Please select at least 2 videos to merge." true], false).
Proof.
  intros H. unfold History.handleMergeSelected.
  apply Nat.ltb_lt in H. by rewrite H.
Qed.

(** C7. The results view counts videos by status alone: two completed
    videos without a URL pass its guard, although none of them is a
    completed video with a non-empty URL, and a merge request naming
    both without a URL is issued. *)
Theorem results_merge_sends_url_less_videos (d : VideosDisplay.State) :
  List.filter mergeable [video 1 None "completed"; video 2 None "completed"] = []
  ∧ VideosDisplay.handleMergeVideos
      [video 1 None "completed"; video 2 None "completed"] None d
    = ({| VideosDisplay.retryingScenes := VideosDisplay.retryingScenes d;
          VideosDisplay.retryingAll := VideosDisplay.retryingAll d;
          VideosDisplay.merging := true;
          VideosDisplay.mergingStatus := "Executed - Processing videos...";
          VideosDisplay.mergedVideoUrl := None |},
       [VideosDisplay.PostMergeVideos
          [{| VideosDisplay.entryScene := 1; VideosDisplay.entryUrl := None |};
           {| VideosDisplay.entryScene := 2; VideosDisplay.entryUrl := None |}] None],
       true).
Proof. split; reflexivity. Qed.

End Merge.

(** ** Order of the merge payload *)
Section SortByKey.
Context {A : Type} (key : A -> Z).

Lemma insertSorted_perm x (l : list A) : JS.insertSorted (byKey key) x l ≡ₚ x :: l.
Proof.
  induction l as [|y l IH]; [done |]. cbn [JS.insertSorted].
  destruct (byKey key x y <=? 0)%Z; [done |].
  rewrite IH. apply perm_swap.
Qed.

Lemma sort_perm (l : list A) : JS.sort (byKey key) l ≡ₚ l.
Proof.
  induction l as [|x l IH]; [done |].
  unfold JS.sort in *. cbn [foldr]. by rewrite insertSorted_perm, IH.
Qed.

Lemma insertSorted_sorted x (l : list A) :
  StronglySorted (ascendingBy key) l ->
  StronglySorted (ascendingBy key) (JS.insertSorted (byKey key) x l).
Proof.
  induction 1 as [|y l Hl IH Hy]; cbn [JS.insertSorted].
  - repeat constructor.
  - assert (Forall (fun z => key y <= key z)%Z l) as Hy' by exact Hy.
    destruct (Z.leb_spec (byKey key x y) 0) as [Hle | Hgt]; unfold byKey in * |-.
    + constructor; [by constructor |]. constructor; [unfold ascendingBy; lia |].
      eapply Forall_impl; [exact Hy' |]. cbn beta. intros z Hz.
      unfold ascendingBy. lia.
    + constructor; [done |]. rewrite insertSorted_perm.
      constructor; [unfold ascendingBy; lia | done].
Qed.

Lemma sort_sorted (l : list A) : StronglySorted (ascendingBy key) (JS.sort (byKey key) l).
Proof.
  induction l as [|x l IH]; [constructor |].
  unfold JS.sort in *. cbn [foldr]. by apply insertSorted_sorted.
Qed.

Lemma sort_keys_ascending (l : list A) :
  StronglySorted Z.le (map key (JS.sort (byKey key) l)).
Proof.
  pose proof (sort_sorted l) as Hs.
  induction Hs as [|x l' Hl IH Hx]; [constructor |].
  cbn [map]. constructor; [done |]. by apply Forall_map.
Qed.

Lemma same_key_same_element (l : list A) x y :
  NoDup (map key l) -> x ∈ l -> y ∈ l -> key x = key y -> x = y.
Proof.
  induction l as [|z l IH]; intros Hnd Hx Hy Hk; [by apply not_elem_of_nil in Hx |].
  cbn [map] in Hnd. apply NoDup_cons in Hnd as [Hz Hnd].
  apply elem_of_cons in Hx as [-> | Hx]; apply elem_of_cons in Hy as [-> | Hy]; auto.
  - exfalso. apply Hz. rewrite Hk. by apply list_elem_of_fmap_2.
  - exfalso. apply Hz. rewrite <- Hk. by apply list_elem_of_fmap_2.
Qed.

(** With distinct keys, the sorted result depends only on which elements
    are sorted, not on the order they came in. *)
Lemma sort_order_invariant (l1 l2 : list A) :
  l1 ≡ₚ l2 -> NoDup (map key l1) -> JS.sort (byKey key) l1 = JS.sort (byKey key) l2.
Proof.
  intros Hperm Hnd.
  apply (StronglySorted_unique_strong (ascendingBy key));
    [| apply sort_sorted | apply sort_sorted | by rewrite !sort_perm].
  intros x1 x2 Hx1 Hx2 H12 H21. unfold ascendingBy in *.
  apply (same_key_same_element l1); [done | | | lia].
  - by rewrite sort_perm in Hx1.
  - by rewrite sort_perm, <- Hperm in Hx2.
Qed.
(** The sort is stable: the elements of one key come out in the order
    they went in. *)
Lemma insertSorted_stable k x (l : list A) :
  filter (fun y => key y = k) (JS.insertSorted (byKey key) x l)
  = filter (fun y => key y = k) (x :: l).
Proof.
  induction l as [|y l IH]; [done |]. cbn [JS.insertSorted].
  destruct (Z.leb_spec (byKey key x y) 0) as [Hle | Hgt]; [done |].
  unfold byKey in Hgt. rewrite filter_cons, IH, !filter_cons.
  destruct (decide (key y = k)), (decide (key x = k)); try done. lia.
Qed.

Lemma sort_stable k (l : list A) :
  filter (fun y => key y = k) (JS.sort (byKey key) l) = filter (fun y => key y = k) l.
Proof.
  induction l as [|x l IH]; [done |].
  unfold JS.sort in *. cbn [foldr]. by rewrite insertSorted_stable, !filter_cons, IH.
Qed.
End SortByKey.

Lemma imap_project {A B C} (g : B -> C) (h : A -> C) (l : list A) :
  ∀ f : nat -> A -> B, (∀ i x, g (f i x) = h x) -> map g (imap f l) = map h l.
Proof.
  induction l as [|x l IH]; intros f Hf; [done |].
  cbn [imap map]. rewrite Hf. f_equal. apply IH. intros i y. apply Hf.
Qed.

(** C6, as stated, fails: two history videos whose titles carry no scene
    number have the same sort key, the stable sort keeps them in input
    order, and the two orders of the same videos give different payloads.
    The same happens in the results view for two videos with the same
    scene number. *)
Lemma merge_order_follows_input_on_equal_keys :
  ([untitled "a" "a.mp4"; untitled "b" "b.mp4"]
     ≡ₚ [untitled "b" "b.mp4"; untitled "a" "a.mp4"]
   ∧ History.mergePayload [untitled "a" "a.mp4"; untitled "b" "b.mp4"]
     ≠ History.mergePayload [untitled "b" "b.mp4"; untitled "a" "a.mp4"])
  ∧ ([video 1 (Some "a.mp4") "completed"; video 1 (Some "b.mp4") "completed"]
       ≡ₚ [video 1 (Some "b.mp4") "completed"; video 1 (Some "a.mp4") "completed"]
     ∧ VideosDisplay.videosToMerge
         [video 1 (Some "a.mp4") "completed"; video 1 (Some "b.mp4") "completed"]
       ≠ VideosDisplay.videosToMerge
           [video 1 (Some "b.mp4") "completed"; video 1 (Some "a.mp4") "completed"]).
Proof. split; (split; [apply perm_swap | by vm_compute]). Qed.

(** C6, amended. The payload lists the completed videos by ascending sort
    key (the scene number in the results view; in the history view the
    number after "Scene " in the title as [parseInt] reads it, 0 without
    one), and videos of one key stay in the order they came in. So when
    the keys are pairwise distinct, two inputs that are permutations of
    each other give the same payload. *)
Theorem merge_order_invariant_on_distinct_keys
    (videos1 videos2 : list Home.GeneratedVideo)
    (history1 history2 : list History.VideoHistory) :
  (videos1 ≡ₚ videos2 ->
   NoDup (map Home.sceneNumber (VideosDisplay.completedVideos videos1)) ->
   VideosDisplay.videosToMerge videos1 = VideosDisplay.videosToMerge videos2)
  ∧ StronglySorted Z.le (map VideosDisplay.entryScene (VideosDisplay.videosToMerge videos1))
  ∧ VideosDisplay.videosToMerge videos1
    ≡ₚ map (fun v => {| VideosDisplay.entryScene := Home.sceneNumber v;
                         VideosDisplay.entryUrl := Home.videoUrl v |})
         (VideosDisplay.completedVideos videos1)
  ∧ (∀ k, filter (fun e => VideosDisplay.entryScene e = k)
            (VideosDisplay.videosToMerge videos1)
          = map (fun v => {| VideosDisplay.entryScene := Home.sceneNumber v;
                             VideosDisplay.entryUrl := Home.videoUrl v |})
              (filter (fun v => Home.sceneNumber v = k)
                 (VideosDisplay.completedVideos videos1)))
  ∧ (history1 ≡ₚ history2 ->
     NoDup (map History.sceneOf (History.completedVideos history1)) ->
     History.mergePayload history1 = History.mergePayload history2)
  ∧ (∃ sorted,
       sorted ≡ₚ History.completedVideos history1
       ∧ StronglySorted Z.le (map History.sceneOf sorted)
       ∧ (∀ k, filter (fun v => History.sceneOf v = k) sorted
               = filter (fun v => History.sceneOf v = k)
                   (History.completedVideos history1))
       ∧ map History.entryUrl (History.mergePayload history1)
         = map History.videoUrl sorted).
Proof.
  unfold VideosDisplay.videosToMerge, History.mergePayload.
  change VideosDisplay.bySceneNumber with (byKey Home.sceneNumber).
  change History.byScene with (byKey History.sceneOf).
  split; [| split; [| split; [| split; [| split]]]].
  - intros Hv Hvk.
    assert (VideosDisplay.completedVideos videos1 ≡ₚ VideosDisplay.completedVideos videos2)
      as Hcv by (unfold VideosDisplay.completedVideos; by rewrite Hv).
    by rewrite (sort_order_invariant Home.sceneNumber _ _ Hcv Hvk).
  - rewrite map_map. cbn [VideosDisplay.entryScene]. apply sort_keys_ascending.
  - apply Permutation_map, sort_perm.
  - intros k. rewrite <- (sort_stable Home.sceneNumber k).
    induction (JS.sort (byKey Home.sceneNumber) (VideosDisplay.completedVideos videos1))
      as [|v l IH]; [done |].
    cbn [map]. rewrite !filter_cons. cbn [VideosDisplay.entryScene].
    destruct (decide (Home.sceneNumber v = k)); cbn [map]; by rewrite IH.
  - intros Hh Hhk.
    assert (History.completedVideos history1 ≡ₚ History.completedVideos history2)
      as Hch by (unfold History.completedVideos; by rewrite Hh).
    by rewrite (sort_order_invariant History.sceneOf _ _ Hch Hhk).
  - exists (JS.sort (byKey History.sceneOf) (History.completedVideos history1)).
    split; [apply sort_perm |]. split; [apply sort_keys_ascending |].
    split; [intros k; apply sort_stable |].
    by apply imap_project.
Qed.

Lemma merge_order_invariant_on_distinct_keys_witness :
  VideosDisplay.videosToMerge
    [video 2 (Some "b") "completed"; video 1 (Some "a") "completed";
     video 3 (Some "c") "completed"]
  = VideosDisplay.videosToMerge
      [video 1 (Some "a") "completed"; video 2 (Some "b") "completed";
       video 3 (Some "c") "completed"]
  ∧ History.mergePayload
      [titled "y" "Scene 2: dusk" "b"; titled "x" "Scene 1: dawn" "a"]
    = History.mergePayload
        [titled "x" "Scene 1: dawn" "a"; titled "y" "Scene 2: dusk" "b"].
Proof.
  destruct (merge_order_invariant_on_distinct_keys
              [video 2 (Some "b") "completed"; video 1 (Some "a") "completed";
               video 3 (Some "c") "completed"]
              [video 1 (Some "a") "completed"; video 2 (Some "b") "completed";
               video 3 (Some "c") "completed"]
              [titled "y" "Scene 2: dusk" "b"; titled "x" "Scene 1: dawn" "a"]
              [titled "x" "Scene 1: dawn" "a"; titled "y" "Scene 2: dusk" "b"])
    as (Hv & _ & _ & _ & Hh & _).
  split.
  - apply Hv; [apply perm_swap | apply (bool_decide_unpack _); by vm_compute].
  - apply Hh; [apply perm_swap | apply (bool_decide_unpack _); by vm_compute].
Defined.

(** ** Status normalisation *)
Section Normalisation.
Import Home.

Lemma success_status (s : option string) :
  successSynonym s -> isSuccessStatus s = true.
Proof. unfold isSuccessStatus. intros [-> | [-> | ->]]; reflexivity. Qed.

Lemma failure_status (s : option string) :
  failureSynonym s -> isSuccessStatus s = false ∧ isFailureStatus s = true.
Proof. unfold isSuccessStatus, isFailureStatus. intros [-> | ->]; split; reflexivity. Qed.

Lemma other_status (s : option string) :
  nonTerminal s -> isSuccessStatus s = false ∧ isFailureStatus s = false.
Proof.
  unfold isSuccessStatus, isFailureStatus. intros (H1 & H2 & H3 & H4 & H5).
  by rewrite !bool_decide_eq_false_2.
Qed.

Lemma status_cases (s : option string) :
  successSynonym s ∨ failureSynonym s ∨ nonTerminal s.
Proof.
  unfold successSynonym, failureSynonym, nonTerminal.
  destruct (decide (s = Some "COMPLETED")); [tauto |].
  destruct (decide (s = Some "MEDIA_GENERATION_STATUS_COMPLETE")); [tauto |].
  destruct (decide (s = Some "MEDIA_GENERATION_STATUS_SUCCESSFUL")); [tauto |].
  destruct (decide (s = Some "FAILED")); [tauto |].
  destruct (decide (s = Some "MEDIA_GENERATION_STATUS_FAILED")); tauto.
Qed.

Lemma veo_success_status (s : option string) :
  successSynonym s -> VeoGenerator.isSuccessStatus s = true.
Proof. exact (success_status s). Qed.

Lemma veo_failure_status (s : option string) :
  failureSynonym s ->
  VeoGenerator.isSuccessStatus s = false ∧ VeoGenerator.isFailureStatus s = true.
Proof. exact (failure_status s). Qed.

Lemma veo_other_status (s : option string) :
  nonTerminal s ->
  VeoGenerator.isSuccessStatus s = false ∧ VeoGenerator.isFailureStatus s = false.
Proof. exact (other_status s). Qed.

(** C3. A status answer to a live poll is a success synonym, a failure
    synonym or neither. On a success synonym the retry poller returns with
    every video of the scene completed and carrying the provider's URL
    with the time stamp appended (no URL when the answer has none), and
    the single-video flow stores the provider's URL and leaves its loop;
    on a failure synonym both go to their failure handling with the
    provider's error (or "Video generation failed"), which leaves every
    video of the scene failed with that error; on any other status
    nothing is committed and polling goes on with the next iteration. *)
Theorem status_normalisation (a : Attempt) (i : nat) (operation sid : option string)
    (statusData : StatusData) (now : N) (st : State)
    (w : VeoGenerator.World) (entry : option string) (vst : VeoGenerator.State)
    (fuel attempts : nat) :
  aborted a st = false ->
  (attempts < VeoGenerator.maxAttempts)%nat ->
  VeoGenerator.statusAt w (S attempts) = JS.Resolved statusData ->
  (successSynonym (statusOf statusData) ∨ failureSynonym (statusOf statusData)
   ∨ nonTerminal (statusOf statusData))
  ∧ (∀ n url v, sceneNumber v = n ->
       status (markCompleted n url v) = "completed"
       ∧ videoUrl (markCompleted n url v) = url)
  ∧ (∀ n msg v, sceneNumber v = n ->
       status (markFailed n msg v) = "failed"
       ∧ error (markFailed n msg v) = Some msg)
  ∧ (successSynonym (statusOf statusData) ->
     (∃ effs,
        resumeStatus a i operation sid (JS.Resolved statusData) now st
        = (finallyBlock a
             (setGeneratedVideos
                (map (markCompleted (retriedScene a)
                        (cacheBustedUrl (videoUrlOf statusData) now))) st),
           effs, None))
     ∧ (∀ v, v ∈ generatedVideos
                   (resumeStatus a i operation sid (JS.Resolved statusData) now st).1.1 ->
             sceneNumber v = retriedScene a ->
             status v = "completed"
             ∧ videoUrl v
               = match videoUrlOf statusData with
                 | Some u =>
                     if bool_decide (u = EmptyString) then None
                     else Some (u +:+ (if JS.includes "?" u then "&" else "?")
                                  +:+ "t=" +:+ decimal now)
                 | None => None
                 end)
     ∧ (∃ effs,
          VeoGenerator.pollLoop (S fuel) attempts w entry operation sid vst
          = Some (VeoGenerator.Returned
                    (VeoGenerator.setVideoUrl (videoUrlOf statusData) vst) effs))
     ∧ VeoGenerator.videoUrl (VeoGenerator.setVideoUrl (videoUrlOf statusData) vst)
       = videoUrlOf statusData)
  ∧ (failureSynonym (statusOf statusData) ->
     (∃ effs,
        resumeStatus a i operation sid (JS.Resolved statusData) now st
        = (finallyBlock a
             (setGeneratedVideos
                (map (markFailed (retriedScene a)
                        (JS.orElse (errorOf statusData) "Video generation failed"))) st),
           effs, None))
     ∧ (∀ v, v ∈ generatedVideos
                   (resumeStatus a i operation sid (JS.Resolved statusData) now st).1.1 ->
             sceneNumber v = retriedScene a ->
             status v = "failed"
             ∧ error v = Some (JS.orElse (errorOf statusData) "Video generation failed"))
     ∧ (∃ effs,
          VeoGenerator.pollLoop (S fuel) attempts w entry operation sid vst
          = Some (VeoGenerator.Threw
                    (JS.ErrorObject
                       (JS.orElse (errorOf statusData) "Video generation failed"))
                    vst effs))
     ∧ (∀ e effs,
          VeoGenerator.error
            (VeoGenerator.settleExit entry
               (VeoGenerator.Threw (JS.ErrorObject e) vst effs)).1 = Some e))
  ∧ (nonTerminal (statusOf statusData) ->
     ((S i < maxAttempts)%nat ->
      resumeStatus a i operation sid (JS.Resolved statusData) now st
      = (st, [], Some {| retriedScene := retriedScene a; controller := controller a;
                         phase := AwaitTimer (S i) operation sid |}))
     ∧ VeoGenerator.pollLoop (S fuel) attempts w entry operation sid vst
       = VeoGenerator.emitFirst [VeoGenerator.PostCheckVideoStatus operation sid]
           <$> VeoGenerator.pollLoop fuel (S attempts) w entry operation sid vst).
Proof.
  intros Hlive Hlt Hw. split; [apply status_cases |].
  apply Nat.ltb_lt in Hlt.
  split; [| split; [| split; [| split]]].
  - intros n url v Hn. unfold markCompleted. by rewrite bool_decide_eq_true_2.
  - intros n msg v Hn. unfold markFailed. by rewrite bool_decide_eq_true_2.
  - intros Hs. split; [| split; [| split]].
    + unfold resumeStatus. rewrite (success_status _ Hs), Hlive. eauto.
    + unfold resumeStatus. rewrite (success_status _ Hs), Hlive.
      cbn [fst finallyBlock setGeneratedVideos generatedVideos].
      intros v (v0 & -> & _)%list_elem_of_fmap. unfold markCompleted.
      case_bool_decide as Hscene; [| done]. intros _.
      cbn [status videoUrl]. split; [done |].
      unfold cacheBustedUrl. destruct (videoUrlOf statusData) as [u|]; [| done].
      cbn [JS.truthy default]. unfold id. by case_bool_decide.
    + cbn [VeoGenerator.pollLoop]. rewrite Hlt, Hw, (veo_success_status _ Hs). eauto.
    + reflexivity.
  - intros Hf. split; [| split; [| split]].
    + unfold resumeStatus.
      destruct (failure_status _ Hf) as [-> ->].
      unfold catchBlock. rewrite Hlive. eauto.
    + unfold resumeStatus.
      destruct (failure_status _ Hf) as [-> ->].
      unfold catchBlock. rewrite Hlive.
      cbn [fst finallyBlock setGeneratedVideos generatedVideos thrownMessage].
      intros v (v0 & -> & _)%list_elem_of_fmap. unfold markFailed.
      case_bool_decide as Hscene; [| done]. by intros _.
    + cbn [VeoGenerator.pollLoop]. rewrite Hlt, Hw.
      destruct (veo_failure_status _ Hf) as [-> ->]. eauto.
    + reflexivity.
  - intros Ho. split.
    + intros Hi. unfold resumeStatus.
      destruct (other_status _ Ho) as [-> ->].
      unfold loopHead. apply Nat.ltb_lt in Hi. by rewrite Hi, Hlive.
    + cbn [VeoGenerator.pollLoop]. rewrite Hlt, Hw.
      by destruct (veo_other_status _ Ho) as [-> ->].
Qed.

Lemma status_normalisation_witness :
  aborted (attemptOf 2 0) (handleRetryVideo 2 failedPage).1.1 = false
  ∧ (0 < VeoGenerator.maxAttempts)%nat
  ∧ (∀ v, v ∈ generatedVideos
                (resumeStatus (attemptOf 2 0) 0 None None (JS.Resolved completedAnswer)
                   1700 (handleRetryVideo 2 failedPage).1.1).1.1 ->
          sceneNumber v = 2%Z ->
          status v = "completed" ∧ videoUrl v = Some "/videos/new.mp4?t=1700")
  ∧ map (fun v => (sceneNumber v, status v, videoUrl v))
      (generatedVideos
         (resumeStatus (attemptOf 2 0) 0 None None (JS.Resolved completedAnswer)
            1700 (handleRetryVideo 2 failedPage).1.1).1.1)
    = [(2%Z, "completed", Some "/videos/new.mp4?t=1700")]
  ∧ (∃ effs,
       VeoGenerator.pollLoop 1 0 (veoAnswering completedAnswer) None None None veoIdle
       = Some (VeoGenerator.Returned
                 {| VeoGenerator.prompt := JS.text "a cat";
                    VeoGenerator.aspectRatio := "landscape";
                    VeoGenerator.isGenerating := false;
                    VeoGenerator.videoUrl := Some "/videos/new.mp4";
                    VeoGenerator.error := None |} effs))
  ∧ (∀ v, v ∈ generatedVideos
                (resumeStatus (attemptOf 2 0) 0 None None (JS.Resolved failedAnswer)
                   1700 (handleRetryVideo 2 failedPage).1.1).1.1 ->
          sceneNumber v = 2%Z ->
          status v = "failed" ∧ error v = Some "quota exceeded")
  ∧ nonTerminal (Some "PENDING")
  ∧ resumeStatus (attemptOf 2 0) 0 None None (statusResponse stillPending) 0
      (handleRetryVideo 2 failedPage).1.1
    = ((handleRetryVideo 2 failedPage).1.1, [],
       Some {| retriedScene := 2; controller := 0; phase := AwaitTimer 1 None None |}).
Proof.
  assert (aborted (attemptOf 2 0) (handleRetryVideo 2 failedPage).1.1 = false)
    as Hlive by (by vm_compute).
  assert (0 < VeoGenerator.maxAttempts)%nat as Hlt by (unfold VeoGenerator.maxAttempts; lia).
  assert (nonTerminal (Some "PENDING")) as Hnt by (repeat split; discriminate).
  split; [exact Hlive |]. split; [exact Hlt |].
  destruct (status_normalisation (attemptOf 2 0) 0 None None completedAnswer
              1700%N (handleRetryVideo 2 failedPage).1.1 (veoAnswering completedAnswer)
              None veoIdle 0 0 Hlive Hlt eq_refl) as (_ & _ & _ & Hdone & _ & _).
  destruct Hdone as (_ & Hvideos & Hveo & _); [right; right; reflexivity |].
  split; [exact Hvideos |]. split; [reflexivity |]. split; [exact Hveo |].
  destruct (status_normalisation (attemptOf 2 0) 0 None None failedAnswer
              1700%N (handleRetryVideo 2 failedPage).1.1 (veoAnswering failedAnswer)
              None veoIdle 0 0 Hlive Hlt eq_refl) as (_ & _ & _ & _ & Hfailed & _).
  destruct Hfailed as (_ & Hvideos' & _); [right; reflexivity |].
  split; [exact Hvideos' |]. split; [exact Hnt |].
  destruct (status_normalisation (attemptOf 2 0) 0 None None
              {| statusOf := Some "PENDING"; videoUrlOf := None; errorOf := None |}
              0%N (handleRetryVideo 2 failedPage).1.1 veoPending None veoIdle
              0 0 Hlive Hlt eq_refl) as (_ & _ & _ & _ & _ & Hother).
  destruct (Hother Hnt) as [Hgo _].
  apply Hgo. unfold maxAttempts. lia.
Defined.
End Normalisation.

(** ** Cancellation *)
Section Cancellation.
Import Home.

Lemma afterLoop_aborted a st :
  aborted a st = true -> afterLoop a st = (finallyBlock a st, [], None).
Proof. intros H. unfold afterLoop. by rewrite H. Qed.

Lemma catchBlock_aborted a e st :
  aborted a st = true -> catchBlock a e st = (finallyBlock a st, [], None).
Proof. intros H. unfold catchBlock. by rewrite H. Qed.

Lemma loopHead_aborted a i operation sid st :
  aborted a st = true -> loopHead a i operation sid st = (finallyBlock a st, [], None).
Proof.
  intros H. unfold loopHead. rewrite H.
  destruct (i <? maxAttempts)%nat; by apply afterLoop_aborted.
Qed.

(** Whatever the pending await of an aborted attempt settles with, the
    attempt goes straight to its [finally] block. *)
Lemma resume_aborted a w st :
  aborted a st = true -> resume a w st = (finallyBlock a st, [], None).
Proof.
  intros H. unfold resume. destruct (phase a) as [|i operation sid|i operation sid].
  - unfold resumeGenerate. destruct (generateResponse w) as [[[] result]|e];
      auto using loopHead_aborted, catchBlock_aborted.
  - unfold resumeTimer. rewrite H. by apply afterLoop_aborted.
  - unfold resumeStatus. destruct (statusResponse w) as [statusData|e];
      [| by apply catchBlock_aborted].
    destruct (isSuccessStatus _); [rewrite H; by apply afterLoop_aborted |].
    destruct (isFailureStatus _);
      auto using loopHead_aborted, catchBlock_aborted.
Qed.

(** No handler ever resets an aborted signal. *)
Lemma resume_signals a w st :
  abortedSignals (resume a w st).1.1 = abortedSignals st.
Proof.
  unfold resume, resumeGenerate, resumeTimer, resumeStatus, loopHead, afterLoop,
    catchBlock.
  repeat match goal with
         | |- context [match ?x with _ => _ end] => destruct x
         end; reflexivity.
Qed.

Lemma handleRetryVideo_signals n st :
  abortedSignals st ⊆ abortedSignals (handleRetryVideo n st).1.1.
Proof.
  unfold handleRetryVideo. destruct (find _ _); [| done].
  cbn. unfold abortExisting. destruct (abortControllers st !! n); cbn; set_solver.
Qed.

(** C9. A registered attempt is cancelled by the next retry of its scene
    and by the page's cleanup. Once cancelled it stays cancelled whatever
    other handlers run, and whatever its pending await settles with
    (success, failure, error, the timer) it leaves the videos as they
    are, shows and sends nothing, and is over: no further poll. *)
Theorem cancelled_attempt_commits_nothing (a : Attempt) (st : State) :
  (abortControllers st !! retriedScene a = Some (controller a) ->
   aborted a (abortExisting (retriedScene a) st) = true
   ∧ aborted a (abortAll st) = true)
  ∧ (aborted a st = true ->
     (∀ n, aborted a (handleRetryVideo n st).1.1 = true)
     ∧ (∀ b w, aborted a (resume b w st).1.1 = true)
     ∧ (∀ w,
          generatedVideos (resume a w st).1.1 = generatedVideos st
          ∧ (resume a w st).1.2 = []
          ∧ (resume a w st).2 = None)).
Proof.
  split.
  - intros Hreg. unfold aborted, abortExisting, abortAll. rewrite Hreg. cbn.
    split; apply bool_decide_eq_true; [set_solver |].
    apply elem_of_union_l, elem_of_map_img. eauto.
  - intros Hab. split; [| split].
    + intros n. unfold aborted in *. apply bool_decide_eq_true in Hab.
      apply bool_decide_eq_true. by apply handleRetryVideo_signals.
    + intros b w. unfold aborted in *. by rewrite resume_signals.
    + intros w. by rewrite resume_aborted.
Qed.

Lemma cancelled_attempt_commits_nothing_witness :
  abortControllers (handleRetryVideo 2 failedPage).1.1 !! 2%Z = Some 0%nat
  ∧ aborted (attemptOf 2 0) (abortAll (handleRetryVideo 2 failedPage).1.1) = true
  ∧ generatedVideos
      (resume (attemptOf 2 0) stillPending
         (abortAll (handleRetryVideo 2 failedPage).1.1)).1.1
    = generatedVideos (abortAll (handleRetryVideo 2 failedPage).1.1).
Proof.
  assert (abortControllers (handleRetryVideo 2 failedPage).1.1 !! 2%Z = Some 0%nat)
    as Hreg by (by vm_compute).
  destruct (cancelled_attempt_commits_nothing (attemptOf 2 0)
              (handleRetryVideo 2 failedPage).1.1) as [Hcancel _].
  destruct (Hcancel Hreg) as [_ Hab].
  split; [exact Hreg |]. split; [exact Hab |].
  destruct (cancelled_attempt_commits_nothing (attemptOf 2 0)
              (abortAll (handleRetryVideo 2 failedPage).1.1)) as [_ Hafter].
  destruct (Hafter Hab) as (_ & _ & Hquiet).
  by destruct (Hquiet stillPending) as (Hv & _ & _).
Defined.
End Cancellation.

(** ** Bounded polling *)
Section Bound.
Import Home.

Lemma statusChecks_app e1 e2 :
  statusChecks (e1 ++ e2) = (statusChecks e1 + statusChecks e2)%nat.
Proof. unfold statusChecks. by rewrite List.filter_app, length_app. Qed.

Lemma catchBlock_done a e st : ∃ st' effs,
  catchBlock a e st = (st', effs, None) ∧ statusChecks effs = 0%nat.
Proof. unfold catchBlock. destruct (aborted a st); eauto. Qed.

Lemma afterLoop_done a st : ∃ st' effs,
  afterLoop a st = (st', effs, None) ∧ statusChecks effs = 0%nat.
Proof. unfold afterLoop. destruct (aborted a st); eauto using catchBlock_done. Qed.

(** The attempt stays suspended: the bound holds and progress was made. *)
Ltac still_suspended :=
  cbn [Home.phase]; (split; [| split]);
  [ unfold wellFormed; cbn [Home.phase]; lia
  | lia
  | unfold statusChecks; cbn [List.filter isStatusCheck length]; lia ].

Lemma resume_progress a w st : wellFormed a -> progressing a (resume a w st).
Proof.
  unfold wellFormed, resume, progressing, stepsLeft, checksLeft.
  destruct (phase a) as [|i operation sid|i operation sid] eqn:Hp; intros Hwf.
  - unfold resumeGenerate. destruct (generateResponse w) as [[[] result]|e].
    + unfold loopHead. destruct (Nat.ltb_spec 0 maxAttempts).
      * destruct (aborted a st).
        -- by destruct (afterLoop_done a st) as (? & ? & -> & ?).
        -- still_suspended.
      * by destruct (afterLoop_done a st) as (? & ? & -> & ?).
    + by destruct (catchBlock_done a
          (JS.ErrorObject (JS.orElse (message result) "Failed to start video generation")) st)
        as (? & ? & -> & ?).
    + by destruct (catchBlock_done a e st) as (? & ? & -> & ?).
  - unfold resumeTimer. destruct (aborted a st).
    + by destruct (afterLoop_done a st) as (? & ? & -> & ?).
    + still_suspended.
  - unfold resumeStatus. destruct (statusResponse w) as [statusData|e].
    + destruct (isSuccessStatus _).
      * destruct (aborted a st); [| done].
        by destruct (afterLoop_done a st) as (? & ? & -> & ?).
      * destruct (isFailureStatus _).
        -- by destruct (catchBlock_done a
             (JS.ErrorObject (JS.orElse (errorOf statusData) "Video generation failed")) st)
             as (? & ? & -> & ?).
        -- unfold loopHead. destruct (Nat.ltb_spec (S i) maxAttempts).
           ++ destruct (aborted a st).
              ** by destruct (afterLoop_done a st) as (? & ? & -> & ?).
              ** still_suspended.
           ++ by destruct (afterLoop_done a st) as (? & ? & -> & ?).
    + by destruct (catchBlock_done a e st) as (? & ? & -> & ?).
Qed.

Lemma stepsLeft_pos a : wellFormed a -> (0 < stepsLeft a)%nat.
Proof. unfold wellFormed, stepsLeft. destruct (phase a); lia. Qed.

Lemma drive_returns fuel : ∀ env k a st,
  wellFormed a -> (stepsLeft a <= fuel)%nat ->
  ∃ st' effs, drive fuel env k a st = (st', effs, None)
              ∧ (statusChecks effs <= checksLeft a)%nat.
Proof.
  induction fuel as [|fuel IH]; intros env k a st Hwf Hfuel.
  - pose proof (stepsLeft_pos a Hwf). lia.
  - cbn [drive]. pose proof (resume_progress a (env k) st Hwf) as Hp.
    destruct (resume a (env k) st) as [[st1 effs1] [a'|]]; cbn in Hp.
    + destruct Hp as (Hwf' & Hsteps & Hchecks).
      destruct (IH env (S k) a' st1 Hwf' ltac:(lia)) as (st2 & effs2 & -> & Hb).
      eexists _, _. split; [done |]. rewrite statusChecks_app. lia.
    + eexists _, _. split; [done |]. lia.
Qed.

Lemma awaitRetryVideo_returns env n st : ∃ st' effs,
  awaitRetryVideo env n st = (st', effs, None)
  ∧ (statusChecks effs <= maxAttempts)%nat.
Proof.
  unfold awaitRetryVideo, handleRetryVideo.
  destruct (find _ _) as [sc|].
  - match goal with |- context [drive _ _ _ ?a ?s] =>
      destruct (drive_returns enoughFuel env 0 a s) as (st2 & effs2 & -> & Hb)
    end; [done | unfold stepsLeft, enoughFuel; cbn [phase]; lia |].
    eexists _, _. split; [done |]. rewrite statusChecks_app.
    unfold checksLeft in Hb. cbn [phase] in Hb.
    unfold statusChecks at 1. cbn [List.filter isStatusCheck length]. lia.
  - eexists _, _. split; [done |].
    unfold statusChecks. cbn [List.filter isStatusCheck length]. lia.
Qed.
End Bound.

Section Timeout.
Import Home.

Lemma drive_times_out (env : nat -> Settlement) n c operation sid st :
  neverTerminal (fun k => statusResponse (env k)) ->
  c ∉ abortedSignals st ->
  ∀ m i fuel k,
    (i + m = maxAttempts)%nat -> (0 < m)%nat -> (2 * m <= fuel)%nat ->
    ∃ effs,
      drive fuel env k
        {| retriedScene := n; controller := c; phase := AwaitTimer i operation sid |} st
      = (finallyBlock {| retriedScene := n; controller := c; phase := AwaitGenerate |}
           (timedOut n st), effs, None)
      ∧ statusChecks effs = m.
Proof.
  intros Hnever Hlive.
  assert (∀ p, aborted {| retriedScene := n; controller := c; phase := p |} st = false)
    as Hab by (intros p; by apply bool_decide_eq_false).
  induction m as [|m IH]; intros i fuel k Hi Hm Hfuel; [lia |].
  destruct fuel as [|[|fuel]]; [lia | lia |].
  destruct (Hnever (S k)) as (statusData & Hsd & Hnt).
  cbn [drive resume phase]. unfold resumeTimer. rewrite Hab.
  cbn [retriedScene controller]. cbn [resume phase]. unfold resumeStatus.
  cbn beta in Hsd. rewrite Hsd.
  destruct (other_status _ Hnt) as [-> ->].
  unfold loopHead. destruct (Nat.ltb_spec (S i) maxAttempts) as [Hlt | Hge].
  - rewrite Hab. cbn [retriedScene controller].
    destruct (IH (S i) fuel (S (S k))) as (effs & -> & Hc); [lia | lia | lia |].
    eexists. split; [reflexivity |].
    rewrite !statusChecks_app, Hc. reflexivity.
  - unfold afterLoop, catchBlock. rewrite Hab.
    eexists. split; [reflexivity |].
    assert (m = 0)%nat as -> by lia. reflexivity.
Qed.
End Timeout.

Section VeoBound.
Import VeoGenerator.

Lemma veoStatusChecks_app e1 e2 :
  veoStatusChecks (e1 ++ e2) = (veoStatusChecks e1 + veoStatusChecks e2)%nat.
Proof. unfold veoStatusChecks. by rewrite List.filter_app, length_app. Qed.

Lemma exitEffects_emitFirst effs x :
  exitEffects (emitFirst effs x) = effs ++ exitEffects x.
Proof. by destruct x. Qed.

Lemma veoStatusChecks_patchIf entry body : veoStatusChecks (patchIf entry body) = 0%nat.
Proof. unfold patchIf. by destruct (JS.truthy entry). Qed.

Lemma pollLoop_returns w entry operation sid st fuel : ∀ attempts,
  (maxAttempts - attempts < fuel)%nat ->
  ∃ x, pollLoop fuel attempts w entry operation sid st = Some x
       ∧ (veoStatusChecks (exitEffects x) <= maxAttempts - attempts)%nat.
Proof.
  induction fuel as [|fuel IH]; intros attempts Hfuel; [lia |].
  cbn [pollLoop]. destruct (Nat.ltb_spec attempts maxAttempts) as [Hlt | Hge].
  - destruct (statusAt w (S attempts)) as [statusData | e].
    + destruct (isSuccessStatus _).
      * eexists. split; [reflexivity |]. cbn [exitEffects].
        rewrite !veoStatusChecks_app, veoStatusChecks_patchIf.
        unfold veoStatusChecks. cbn [List.filter isVeoStatusCheck length]. lia.
      * destruct (isFailureStatus _).
        -- eexists. split; [reflexivity |].
           unfold veoStatusChecks. cbn [exitEffects List.filter isVeoStatusCheck length]. lia.
        -- destruct (IH (S attempts)) as (x & -> & Hb); [lia |].
           eexists. split; [reflexivity |].
           rewrite exitEffects_emitFirst, veoStatusChecks_app.
           unfold veoStatusChecks at 1. cbn [List.filter isVeoStatusCheck length]. lia.
    + eexists. split; [reflexivity |].
      unfold veoStatusChecks. cbn [exitEffects List.filter isVeoStatusCheck length]. lia.
  - eexists. split; [reflexivity |].
    unfold veoStatusChecks. cbn [exitEffects List.filter isVeoStatusCheck length]. lia.
Qed.

(** More fuel than needed changes nothing. *)
Lemma pollLoop_more_fuel w entry operation sid st fuel : ∀ attempts fuel' x,
  pollLoop fuel attempts w entry operation sid st = Some x ->
  (fuel <= fuel')%nat ->
  pollLoop fuel' attempts w entry operation sid st = Some x.
Proof.
  induction fuel as [|fuel IH]; intros attempts fuel' x Hx Hle; [done |].
  destruct fuel' as [|fuel']; [lia |]. cbn [pollLoop] in *.
  destruct (attempts <? maxAttempts)%nat; [| done].
  destruct (statusAt w (S attempts)) as [statusData | e]; [| done].
  destruct (isSuccessStatus _); [done |].
  destruct (isFailureStatus _); [done |].
  destruct (pollLoop fuel (S attempts) w entry operation sid st) as [y|] eqn:Hy;
    [| done].
  rewrite (IH (S attempts) fuel' y Hy); [done | lia].
Qed.

Lemma pollLoop_times_out w entry operation sid st :
  neverTerminal (statusAt w) ->
  ∀ m attempts fuel,
    (attempts + m = maxAttempts)%nat -> (m < fuel)%nat ->
    ∃ effs,
      pollLoop fuel attempts w entry operation sid st
      = Some (Threw (JS.ErrorObject "Video generation timed out") st effs)
      ∧ veoStatusChecks effs = m.
Proof.
  intros Hnever. induction m as [|m IH]; intros attempts fuel Hm Hfuel.
  - destruct fuel as [|fuel]; [lia |]. cbn [pollLoop].
    destruct (Nat.ltb_spec attempts maxAttempts); [lia |]. eauto.
  - destruct fuel as [|fuel]; [lia |]. cbn [pollLoop].
    destruct (Nat.ltb_spec attempts maxAttempts); [| lia].
    destruct (Hnever (S attempts)) as (statusData & -> & Hnt).
    destruct (veo_other_status _ Hnt) as [-> ->].
    destruct (IH (S attempts) fuel) as (effs & -> & Hc); [lia | lia |].
    eexists. split; [reflexivity |].
    rewrite veoStatusChecks_app, Hc. reflexivity.
Qed.

Lemma handleGenerate_returns w st : ∃ st' effs,
  handleGenerate enoughFuel w st = Some (st', effs)
  ∧ (veoStatusChecks effs <= maxAttempts)%nat.
Proof.
  unfold handleGenerate. destruct (JS.trim (prompt st)) as [|c t].
  { eexists _, _. split; [reflexivity |]. cbn. lia. }
  destruct (generated w) as [[[] result] | e].
  - match goal with |- context [pollLoop _ _ _ ?en ?op ?si ?s] =>
      destruct (pollLoop_returns w en op si s enoughFuel 0) as (x & -> & Hb)
    end; [unfold enoughFuel; lia |].
    cbn [fmap option_fmap option_map].
    destruct x as [st1 effs1 | t1 st1 effs1]; cbn [emitFirst settleExit exitEffects] in *;
      eexists _, _; (split; [reflexivity |]);
      rewrite ?veoStatusChecks_app, ?veoStatusChecks_patchIf;
      match goal with |- context [if ?b then _ else _] => destruct b end;
      unfold veoStatusChecks in *; cbn [List.filter isVeoStatusCheck length] in *; lia.
  - eexists _, _. split; [reflexivity |]. cbn [settleExit].
    rewrite !veoStatusChecks_app, veoStatusChecks_patchIf. cbn. lia.
  - eexists _, _. split; [reflexivity |]. cbn [settleExit].
    rewrite !veoStatusChecks_app, veoStatusChecks_patchIf. cbn. lia.
Qed.
End VeoBound.

Section Polling.

Lemma fresh_controller_live n st :
  controllersKnown st ->
  Home.controllersCreated st
    ∉ Home.abortedSignals
        (Home.setGeneratedVideos (map (Home.markGenerating n))
           (Home.installController n (Home.abortExisting n st))).
Proof.
  intros [Hsig Hreg]. cbn. unfold Home.abortExisting.
  destruct (Home.abortControllers st !! n) as [c|] eqn:Hc; cbn.
  - intros [Hin | Hin]%elem_of_union.
    + apply elem_of_singleton in Hin. apply Hreg in Hc. lia.
    + apply Hsig in Hin. lia.
  - intros Hin. apply Hsig in Hin. lia.
Qed.

Lemma failedPage_known : controllersKnown failedPage.
Proof.
  split; [intros c Hc; by apply not_elem_of_empty in Hc |].
  intros n c Hc. unfold failedPage in Hc. cbn in Hc. by rewrite lookup_empty in Hc.
Qed.

(** C2. Awaiting a retry always returns, after at most 300 status checks;
    when the attempt is not cancelled, the generate request is accepted and
    none of the answers is terminal, exactly 300 checks are made and the
    scene's videos end up failed with "Video generation timed out". The
    single-video flow always returns, after at most 120 checks, and with
    answers that are never terminal it makes 120 checks and ends with the
    same timeout error and no video. *)
Theorem polling_is_bounded :
  Home.maxAttempts = 300%nat ∧ VeoGenerator.maxAttempts = 120%nat
  ∧ (∀ env n st, ∃ st' effs,
       Home.awaitRetryVideo env n st = (st', effs, None)
       ∧ (statusChecks effs <= 300)%nat)
  ∧ (∀ env n st sc result,
       controllersKnown st ->
       find (fun s => bool_decide (Home.scene s = n)) (Home.scenes st) = Some sc ->
       Home.generateResponse (env 0%nat) = JS.Resolved (true, result) ->
       neverTerminal (fun k => Home.statusResponse (env k)) ->
       ∃ st' effs,
         Home.awaitRetryVideo env n st = (st', effs, None)
         ∧ statusChecks effs = 300%nat
         ∧ Home.generatedVideos st'
           = map (Home.markFailed n "Video generation timed out")
               (map (Home.markGenerating n) (Home.generatedVideos st)))
  ∧ (∀ w st, ∃ st' effs,
       VeoGenerator.handleGenerate VeoGenerator.enoughFuel w st = Some (st', effs)
       ∧ (veoStatusChecks effs <= 120)%nat)
  ∧ (∀ w st result,
       JS.trim (VeoGenerator.prompt st) ≠ [] ->
       VeoGenerator.generated w = JS.Resolved (true, result) ->
       neverTerminal (VeoGenerator.statusAt w) ->
       ∃ st' effs,
         VeoGenerator.handleGenerate VeoGenerator.enoughFuel w st = Some (st', effs)
         ∧ veoStatusChecks effs = 120%nat
         ∧ VeoGenerator.error st' = Some "Video generation timed out"
         ∧ VeoGenerator.videoUrl st' = None
         ∧ VeoGenerator.isGenerating st' = false).
Proof.
  split; [reflexivity |]. split; [reflexivity |].
  split; [exact awaitRetryVideo_returns |].
  split; [| split; [exact handleGenerate_returns |]].
  - intros env n st sc result Hknown Hfind Hgen Hnever.
    unfold Home.awaitRetryVideo, Home.handleRetryVideo. rewrite Hfind.
    unfold Home.enoughFuel. cbn [Nat.add Home.drive Home.resume Home.phase].
    unfold Home.resumeGenerate. rewrite Hgen. unfold Home.loopHead.
    change (0 <? Home.maxAttempts)%nat with true. cbv iota.
    pose proof (fresh_controller_live n st Hknown) as Hlive.
    assert (Home.controllersCreated (Home.abortExisting n st) = Home.controllersCreated st)
      as Hsame by (unfold Home.abortExisting; by destruct (_ !! _)).
    rewrite Hsame.
    unfold Home.aborted at 1. cbn [Home.controller].
    rewrite bool_decide_eq_false_2 by exact Hlive.
    cbn [Home.retriedScene Home.controller].
    destruct (drive_times_out env n (Home.controllersCreated st)
                (Home.operationName result) (Home.sceneId result) _ Hnever Hlive
                Home.maxAttempts 0%nat (2 * Home.maxAttempts)%nat 1%nat)
      as (effs & Heq & Hc); [lia | unfold Home.maxAttempts; lia | lia |].
    rewrite Heq.
    eexists _, _. split; [reflexivity |]. split.
    + rewrite !statusChecks_app, Hc. reflexivity.
    + cbn. unfold Home.abortExisting. by destruct (_ !! _).
  - intros w st result Hprompt Hgen Hnever.
    unfold VeoGenerator.handleGenerate.
    destruct (JS.trim (VeoGenerator.prompt st)) as [|c t]; [done |].
    rewrite Hgen.
    match goal with |- context [VeoGenerator.pollLoop _ _ _ ?en ?op ?si ?s] =>
      destruct (pollLoop_times_out w en op si s Hnever VeoGenerator.maxAttempts 0%nat
                  VeoGenerator.enoughFuel) as (effs & -> & Hc)
    end; [lia | unfold VeoGenerator.enoughFuel; lia |].
    cbn [fmap option_fmap option_map VeoGenerator.emitFirst VeoGenerator.settleExit].
    eexists _, _. split; [reflexivity |]. split; [| done].
    rewrite !veoStatusChecks_app, veoStatusChecks_patchIf, Hc.
    match goal with |- context [if ?b then _ else _] => destruct b end; reflexivity.
Qed.

Lemma polling_is_bounded_witness :
  controllersKnown failedPage
  ∧ neverTerminal (fun k : nat => Home.statusResponse stillPending)
  ∧ (∃ st' effs,
       Home.awaitRetryVideo (fun _ => stillPending) 2 failedPage = (st', effs, None)
       ∧ statusChecks effs = 300%nat
       ∧ Home.generatedVideos st'
         = map (Home.markFailed 2 "Video generation timed out")
             (map (Home.markGenerating 2) (Home.generatedVideos failedPage)))
  ∧ (∃ st' effs,
       VeoGenerator.handleGenerate VeoGenerator.enoughFuel veoPending veoIdle
       = Some (st', effs)
       ∧ veoStatusChecks effs = 120%nat
       ∧ VeoGenerator.error st' = Some "Video generation timed out"
       ∧ VeoGenerator.videoUrl st' = None
       ∧ VeoGenerator.isGenerating st' = false).
Proof.
  pose proof failedPage_known as Hknown.
  assert (neverTerminal (fun k : nat => Home.statusResponse stillPending)) as Hnever.
  { intros k. eexists. split; [reflexivity |]. repeat split; discriminate. }
  split; [exact Hknown |]. split; [exact Hnever |].
  destruct polling_is_bounded as (_ & _ & _ & Hretry & _ & Hveo).
  split.
  - apply (Hretry (fun _ => stillPending) 2%Z failedPage sceneTwo
             {| Home.message := None; Home.operationName := Some "op";
                Home.sceneId := Some "scene" |}); [exact Hknown | | | exact Hnever];
      reflexivity.
  - apply (Hveo veoPending veoIdle
             {| VeoGenerator.resultError := None; VeoGenerator.operationName := Some "op";
                VeoGenerator.sceneId := Some "scene"; VeoGenerator.tokenId := None |});
      [by vm_compute | reflexivity | exact Hnever].
Defined.
End Polling.


(** ** Framing of the event stream *)
Section Framing.
Import JS.

Lemma split_nonempty sep (t : Text) : split sep t ≠ [].
Proof.
  destruct t as [|c t]; [done |]. cbn [split].
  case_bool_decide; [done |]. by destruct (split sep t).
Qed.

Lemma split_app sep (a b : Text) :
  split sep (a ++ b)
  = removelast (split sep a) ++ split sep (List.last (split sep a) [] ++ b).
Proof.
  induction a as [|c a IH]; [done |].
  cbn [app split]. pose proof (split_nonempty sep a) as Hne.
  case_bool_decide.
  - rewrite IH. destruct (split sep a) as [|p ps]; [done |]. reflexivity.
  - rewrite IH. destruct (split sep a) as [|p [|p2 ps]]; [done | |].
    + cbn [removelast List.last app split]. rewrite bool_decide_eq_false_2 by done.
      reflexivity.
    + reflexivity.
Qed.

Lemma last_of_app {A} (l l' : list A) d :
  l' ≠ [] -> List.last (l ++ l') d = List.last l' d.
Proof.
  intros Hne. rewrite (app_removelast_last d Hne), app_assoc.
  by rewrite !last_last.
Qed.

Lemma completeLines_app (a b : Text) :
  completeLines (a ++ b) = completeLines a ++ completeLines (partialLine a ++ b).
Proof.
  unfold completeLines, partialLine. rewrite split_app.
  rewrite removelast_app by apply split_nonempty. reflexivity.
Qed.

Lemma partialLine_app (a b : Text) :
  partialLine (a ++ b) = partialLine (partialLine a ++ b).
Proof.
  unfold partialLine. rewrite split_app.
  rewrite last_of_app by apply split_nonempty. reflexivity.
Qed.

Lemma split_pieces sep (t : Text) : Forall (fun piece => sep ∉ piece) (split sep t).
Proof.
  induction t as [|c t IH]; cbn [split].
  - constructor; [apply not_elem_of_nil | constructor].
  - case_bool_decide as Hc.
    + constructor; [apply not_elem_of_nil | done].
    + destruct (split sep t) as [|p ps].
      * constructor; [| constructor].
        intros [->| Hin%not_elem_of_nil]%elem_of_cons; done.
      * inversion IH as [|? ? Hp Hps]; subst. constructor; [| done].
        intros [->| Hin]%elem_of_cons; done.
Qed.

Lemma lines_and_remainder (t : Text) :
  completeLines t ++ [partialLine t] = split newline t.
Proof.
  unfold completeLines, partialLine. symmetry.
  apply app_removelast_last, split_nonempty.
Qed.
End Framing.

Section Consumer.
Import Home.
Variable parseJSON : JS.Text -> option SseData.
Variable pageScenes : list Scene.


Lemma dispatch_setBuffer b data s :
  dispatch pageScenes data (setBuffer b s)
  = (setBuffer b (dispatch pageScenes data s).1, (dispatch pageScenes data s).2).
Proof.
  unfold dispatch. repeat case_bool_decide; try reflexivity.
  destruct (dataCurrent data) as [c|]; [| reflexivity].
  case_bool_decide; reflexivity.
Qed.

Lemma processLine_setBuffer b s effs line :
  processLine parseJSON pageScenes (setBuffer b s, effs) line
  = (setBuffer b (processLine parseJSON pageScenes (s, effs) line).1,
     (processLine parseJSON pageScenes (s, effs) line).2).
Proof.
  unfold Home.processLine. destruct (JS.startsWith _ _); [| reflexivity].
  destruct (parseJSON _) as [data|]; [| reflexivity].
  cbn [fst snd]. rewrite dispatch_setBuffer.
  by destruct (dispatch pageScenes data s).
Qed.

Lemma processLines_setBuffer b lines : ∀ s effs,
  foldl (processLine parseJSON pageScenes) (setBuffer b s, effs) lines
  = (setBuffer b (foldl (processLine parseJSON pageScenes) (s, effs) lines).1,
     (foldl (processLine parseJSON pageScenes) (s, effs) lines).2).
Proof.
  induction lines as [|line lines IH]; intros s effs; [reflexivity |].
  cbn [foldl]. rewrite processLine_setBuffer.
  rewrite IH. by destruct (processLine parseJSON pageScenes (s, effs) line).
Qed.

Lemma setBuffer_setBuffer b b' s : setBuffer b (setBuffer b' s) = setBuffer b s.
Proof. reflexivity. Qed.

Lemma buffer_setBuffer b s : buffer (setBuffer b s) = b.
Proof. reflexivity. Qed.

Lemma readChunks_spec chunks : ∀ s effs seen,
  foldl (readChunk parseJSON pageScenes) (setBuffer (partialLine seen) s, effs) chunks
  = (setBuffer (partialLine (seen ++ concat chunks))
       (foldl (processLine parseJSON pageScenes) (s, effs)
          (completeLines (partialLine seen ++ concat chunks))).1,
     (foldl (processLine parseJSON pageScenes) (s, effs)
        (completeLines (partialLine seen ++ concat chunks))).2).
Proof.
  induction chunks as [|chunk chunks IH]; intros s effs seen.
  - cbn [foldl concat]. rewrite !app_nil_r.
    assert (completeLines (partialLine seen) = []) as ->.
    { pose proof (completeLines_app seen []) as H. rewrite !app_nil_r in H.
      apply (f_equal length) in H. rewrite length_app in H.
      destruct (completeLines (partialLine seen)); [done | cbn in H; lia]. }
    reflexivity.
  - cbn [foldl concat]. unfold Home.readChunk at 2. cbn [fst snd].
    rewrite buffer_setBuffer, setBuffer_setBuffer.
    fold (completeLines (partialLine seen ++ chunk)).
    fold (partialLine (partialLine seen ++ chunk)).
    rewrite processLines_setBuffer.
    rewrite <- partialLine_app.
    rewrite (IH _ _ (seen ++ chunk)).
    rewrite <- app_assoc.
    rewrite (partialLine_app seen chunk).
    rewrite (app_assoc (partialLine seen) chunk (concat chunks)).
    rewrite (completeLines_app (partialLine seen ++ chunk) (concat chunks)).
    rewrite foldl_app.
    rewrite <- (partialLine_app seen chunk).
    by destruct (foldl (processLine parseJSON pageScenes) (s, effs)
                   (completeLines (partialLine seen ++ chunk))).
Qed.

Lemma consume_spec chunks s :
  consume parseJSON pageScenes chunks s
  = (setBuffer (partialLine (concat chunks))
       (foldl (processLine parseJSON pageScenes) (s, []) (completeLines (concat chunks))).1,
     (foldl (processLine parseJSON pageScenes) (s, []) (completeLines (concat chunks))).2).
Proof.
  unfold Home.consume.
  change (setBuffer [] s) with (setBuffer (partialLine []) s).
  rewrite readChunks_spec. reflexivity.
Qed.

End Consumer.

(** C8. The consumer's result depends only on the text received, not on
    how it was cut into chunks: it is what processing, in order, the
    complete lines of the whole text gives, with the piece after the last
    newline left in the buffer. The complete lines followed by that piece
    are exactly the pieces of the text between newlines, so no line is
    skipped and none is cut. *)
Theorem stream_framing_ignores_chunking (parseJSON : JS.Text -> option Home.SseData)
    (pageScenes : list Home.Scene) (chunks1 chunks2 : list JS.Text) (s : Home.Stream) :
  concat chunks1 = concat chunks2 ->
  Home.consume parseJSON pageScenes chunks1 s = Home.consume parseJSON pageScenes chunks2 s
  ∧ Home.consume parseJSON pageScenes chunks1 s
    = (Home.setBuffer (partialLine (concat chunks1))
         (foldl (Home.processLine parseJSON pageScenes) (s, [])
            (completeLines (concat chunks1))).1,
       (foldl (Home.processLine parseJSON pageScenes) (s, [])
          (completeLines (concat chunks1))).2)
  ∧ completeLines (concat chunks1) ++ [partialLine (concat chunks1)]
    = JS.split JS.newline (concat chunks1)
  ∧ (JS.newline ∉ partialLine (concat chunks1))
  ∧ Forall (fun line => JS.newline ∉ line) (completeLines (concat chunks1)).
Proof.
  intros Hsame. rewrite !consume_spec, Hsame.
  split; [reflexivity |]. split; [reflexivity |].
  split; [apply lines_and_remainder |].
  pose proof (split_pieces JS.newline (concat chunks2)) as Hp.
  rewrite <- lines_and_remainder in Hp. apply Forall_app in Hp as [Hl Hr].
  split; [by inversion Hr | done].
Qed.

Lemma stream_framing_ignores_chunking_witness :
  concat [JS.text "data: 1"; [JS.newline]; JS.text "da"; JS.text "ta: 2"]
  = concat [JS.text "data: 1" ++ [JS.newline] ++ JS.text "data: 2"]
  ∧ Home.consume (fun _ => None) []
      [JS.text "data: 1"; [JS.newline]; JS.text "da"; JS.text "ta: 2"] emptyStream
    = Home.consume (fun _ => None) []
        [JS.text "data: 1" ++ [JS.newline] ++ JS.text "data: 2"] emptyStream.
Proof.
  assert (concat [JS.text "data: 1"; [JS.newline]; JS.text "da"; JS.text "ta: 2"]
          = concat [JS.text "data: 1" ++ [JS.newline] ++ JS.text "data: 2"])
    as Hsame by reflexivity.
  split; [exact Hsame |].
  exact (proj1 (stream_framing_ignores_chunking (fun _ => None) [] _ _ emptyStream Hsame)).
Defined.


(** ** Retry all failed *)
Section RetryAll.
Import Home.

Lemma isFailed_markGenerating n m v :
  n ≠ m -> isFailed n (markGenerating m v) = isFailed n v.
Proof.
  intros Hne. unfold markGenerating.
  case_bool_decide as Hm; [| done]. unfold isFailed. cbn [sceneNumber].
  by rewrite !(bool_decide_eq_false_2 (sceneNumber v = n)) by congruence.
Qed.

Lemma isFailed_markCompleted n m url v :
  n ≠ m -> isFailed n (markCompleted m url v) = isFailed n v.
Proof.
  intros Hne. unfold markCompleted.
  case_bool_decide as Hm; [| done]. unfold isFailed. cbn [sceneNumber].
  by rewrite !(bool_decide_eq_false_2 (sceneNumber v = n)) by congruence.
Qed.

Lemma isFailed_markFailed n m msg v :
  n ≠ m -> isFailed n (markFailed m msg v) = isFailed n v.
Proof.
  intros Hne. unfold markFailed.
  case_bool_decide as Hm; [| done]. unfold isFailed. cbn [sceneNumber].
  by rewrite !(bool_decide_eq_false_2 (sceneNumber v = n)) by congruence.
Qed.

Lemma existsb_map_same {A} (p : A -> bool) (f : A -> A) (l : list A) :
  (∀ x, p (f x) = p x) -> existsb p (map f l) = existsb p l.
Proof.
  intros H. induction l as [|x l IH]; [done |]. cbn [map existsb]. by rewrite H, IH.
Qed.

Lemma stillFailed_setGeneratedVideos n f st :
  (∀ v, isFailed n (f v) = isFailed n v) ->
  stillFailed n (setGeneratedVideos (map f) st) = stillFailed n st.
Proof. intros H. unfold stillFailed. cbn. by apply existsb_map_same. Qed.

Lemma stillFailed_finallyBlock n a st :
  stillFailed n (finallyBlock a st) = stillFailed n st.
Proof. reflexivity. Qed.

Lemma stillFailed_catchBlock n a e st :
  n ≠ retriedScene a -> stillFailed n (catchBlock a e st).1.1 = stillFailed n st.
Proof.
  intros Hne. unfold catchBlock. destruct (aborted a st); [done |].
  cbn [fst]. rewrite stillFailed_finallyBlock.
  apply stillFailed_setGeneratedVideos. intros v. by apply isFailed_markFailed.
Qed.

Lemma stillFailed_afterLoop n a st :
  n ≠ retriedScene a -> stillFailed n (afterLoop a st).1.1 = stillFailed n st.
Proof.
  intros Hne. unfold afterLoop. destruct (aborted a st); [done |].
  by apply stillFailed_catchBlock.
Qed.

Lemma stillFailed_loopHead n a i operation sid st :
  n ≠ retriedScene a ->
  stillFailed n (loopHead a i operation sid st).1.1 = stillFailed n st.
Proof.
  intros Hne. unfold loopHead.
  destruct (i <? maxAttempts)%nat; [destruct (aborted a st) |];
    auto using stillFailed_afterLoop.
Qed.

Lemma stillFailed_resume n a w st :
  n ≠ retriedScene a -> stillFailed n (resume a w st).1.1 = stillFailed n st.
Proof.
  intros Hne. unfold resume. destruct (phase a) as [|i operation sid|i operation sid].
  - unfold resumeGenerate. destruct (generateResponse w) as [[[] result]|e];
      auto using stillFailed_loopHead, stillFailed_catchBlock.
  - unfold resumeTimer. destruct (aborted a st); auto using stillFailed_afterLoop.
  - unfold resumeStatus. destruct (statusResponse w) as [statusData|e];
      [| by apply stillFailed_catchBlock].
    destruct (isSuccessStatus _).
    + destruct (aborted a st); [by apply stillFailed_afterLoop |].
      cbn [fst]. rewrite stillFailed_finallyBlock.
      apply stillFailed_setGeneratedVideos. intros v. by apply isFailed_markCompleted.
    + destruct (isFailureStatus _);
        auto using stillFailed_loopHead, stillFailed_catchBlock.
Qed.

Lemma resume_same_scene a w st a' :
  (resume a w st).2 = Some a' -> retriedScene a' = retriedScene a.
Proof.
  unfold resume, resumeGenerate, resumeTimer, resumeStatus, loopHead, afterLoop,
    catchBlock.
  repeat match goal with
         | |- context [match ?x with _ => _ end] => destruct x
         end; cbn [snd]; intros [= <-]; reflexivity.
Qed.

Lemma stillFailed_drive n fuel : ∀ env k a st,
  n ≠ retriedScene a -> stillFailed n (drive fuel env k a st).1.1 = stillFailed n st.
Proof.
  induction fuel as [|fuel IH]; intros env k a st Hne; [done |].
  cbn [drive].
  pose proof (stillFailed_resume n a (env k) st Hne) as Hr.
  pose proof (resume_same_scene a (env k) st) as Hs.
  destruct (resume a (env k) st) as [[st1 effs1] [a'|]]; cbn [fst snd] in *; [| done].
  specialize (IH env (S k) a' st1). rewrite (Hs a' eq_refl) in IH.
  specialize (IH Hne).
  destruct (drive fuel env (S k) a' st1) as [[st2 effs2] next]. cbn [fst] in *. congruence.
Qed.

Lemma stillFailed_awaitRetryVideo n env m st :
  n ≠ m -> stillFailed n (awaitRetryVideo env m st).1.1 = stillFailed n st.
Proof.
  intros Hne. unfold awaitRetryVideo, handleRetryVideo.
  destruct (find _ _) as [sc|]; [| done].
  match goal with |- context [drive ?f ?e ?k ?a ?s] =>
    pose proof (stillFailed_drive n f e k a s Hne) as Hd;
    destruct (drive f e k a s) as [[st2 effs2] next]
  end.
  cbn [fst] in *. rewrite Hd.
  rewrite stillFailed_setGeneratedVideos by (intros v; by apply isFailed_markGenerating).
  unfold stillFailed. cbn. unfold abortExisting. by destruct (_ !! _).
Qed.

Lemma failed_in_snapshot n st :
  n ∈ failedSceneNumbers st -> stillFailed n st = true.
Proof.
  unfold failedSceneNumbers, stillFailed.
  intros (v & -> & Hv)%list_elem_of_fmap. apply list_elem_of_filter in Hv as [Hs Hv].
  apply existsb_exists. exists v. split; [by apply list_elem_of_In |].
  unfold isFailed. by rewrite !bool_decide_eq_true_2.
Qed.

Lemma retryLoop_closed sur pending : ∀ turn st,
  retryLoop sur turn pending false st = (st, [], []).
Proof. induction pending as [|n rest IH]; intros turn st; [done | apply IH]. Qed.

Lemma retryLoop_sublist sur pending : ∀ turn open st,
  (retryLoop sur turn pending open st).2 `sublist_of` pending.
Proof.
  induction pending as [|n rest IH]; intros turn open st; [done |].
  cbn [retryLoop]. destruct (readNow open false _ st).
  - destruct (awaitRetryVideo (settle sur turn) n st) as [[st1 effs1] next].
    match goal with |- context [retryLoop sur (S turn) rest ?o ?s] =>
      specialize (IH (S turn) o s); destruct (retryLoop sur (S turn) rest o s)
        as [[st2 effs2] calls]
    end.
    cbn [snd] in *. by apply sublist_skip.
  - by apply sublist_cons.
Qed.

Lemma retryLoop_skips sur n pending : ∀ turn open st,
  neverFails sur n -> stillFailed n st = false ->
  n ∉ (retryLoop sur turn pending open st).2.
Proof.
  induction pending as [|m rest IH]; intros turn open st Hnf Hn; [apply not_elem_of_nil |].
  cbn [retryLoop]. unfold readNow at 1.
  destruct open; [| rewrite retryLoop_closed; apply not_elem_of_nil].
  fold (stillFailed m st).
  destruct (stillFailed m st) eqn:Hm; [| by apply IH].
  assert (n ≠ m) as Hne by (intros ->; congruence).
  pose proof (stillFailed_awaitRetryVideo n (settle sur turn) m st Hne) as Hk.
  destruct (awaitRetryVideo (settle sur turn) m st) as [[st1 effs1] next].
  cbn [fst] in Hk.
  match goal with |- context [retryLoop sur (S turn) rest ?o ?s] =>
    specialize (IH (S turn) o s Hnf); destruct (retryLoop sur (S turn) rest o s)
      as [[st2 effs2] calls]
  end.
  cbn [snd] in *. intros [Heq | Hin]%elem_of_cons; [done |].
  apply IH; [| done]. apply Hnf. congruence.
Qed.
End RetryAll.


(** ** The retry guard of the results view *)
Section Guard.

Lemma handleRetryVideo_attempt n st st' effs a :
  Home.handleRetryVideo n st = (st', effs, Some a) ->
  a = attemptOf n (Home.controllersCreated st).
Proof.
  unfold Home.handleRetryVideo. destruct (find _ _); [| done].
  intros [= _ _ <-]. unfold attemptOf. f_equal.
  unfold Home.abortExisting. by destruct (_ !! _).
Qed.

Lemma guard_blocks n d pg :
  n ∈ VideosDisplay.retryingScenes d ->
  VideosDisplay.handleRetryVideo Home.handleRetryVideo n d pg = (d, (pg, [], None)).
Proof.
  intros H. unfold VideosDisplay.handleRetryVideo. by rewrite bool_decide_eq_true_2.
Qed.

Lemma guarded_step s s' : guarded s -> Session.step s s' -> guarded s'.
Proof.
  intros [Hnd Hin] Hstep. destruct Hstep as
    [s n d pg effs next Hclick
    |s n pg effs next Hfailed Hcall
    |s before a after w d pg effs next Hsplit Hres
    |s before a after w pg effs next Hsplit Hres]; unfold guarded; cbn.
  - unfold VideosDisplay.handleRetryVideo in Hclick.
    case_bool_decide as Hn.
    { injection Hclick as <- <- <- <-. cbn. by rewrite app_nil_r. }
    destruct (Home.handleRetryVideo n (Session.page s)) as [[pg1 effs1] [a|]] eqn:Hcall;
      injection Hclick as <- <- <- <-; cbn.
    + apply handleRetryVideo_attempt in Hcall. subst a.
      rewrite map_app. cbn. split.
      * apply NoDup_app. split; [done |]. split; [| apply NoDup_singleton].
        intros k Hk Hk'. apply list_elem_of_singleton in Hk'. subst k.
        apply list_elem_of_fmap in Hk as (b & Hb & Hbin). apply Hn.
        rewrite Hb. by apply Hin.
      * intros b [Hb | Hb]%elem_of_app; [apply elem_of_union_l; by apply Hin |].
        apply list_elem_of_singleton in Hb. subst b. cbn. set_solver.
    + rewrite app_nil_r. split; [done |].
      intros b Hb. specialize (Hin b Hb).
      assert (Home.retriedScene b ≠ n) by (intros <-; done). set_solver.
  - done.
  - unfold VideosDisplay.resumeRetry in Hres.
    pose proof (resume_same_scene a w (Session.page s)) as Hscene.
    destruct (Home.resume a w (Session.page s)) as [[pg1 effs1] [a'|]];
      injection Hres as <- <- <- <-; cbn.
    + specialize (Hscene a' eq_refl).
      rewrite Hsplit in Hnd, Hin. rewrite !map_app in *. cbn in *.
      rewrite Hscene. split; [done |].
      intros b Hb. rewrite elem_of_app, elem_of_cons in Hb.
      destruct Hb as [Hb | [-> | Hb]].
      * apply Hin. rewrite elem_of_app. by left.
      * rewrite Hscene. apply Hin. rewrite elem_of_app, elem_of_cons. auto.
      * apply Hin. rewrite elem_of_app, elem_of_cons. auto.
    + clear Hscene. rewrite Hsplit in Hnd, Hin. rewrite !map_app in *. cbn in *.
      apply NoDup_app in Hnd as (Hbefore & Hsep & Ha).
      apply NoDup_cons in Ha as [Ha Hafter]. split.
      * apply NoDup_app. repeat split; [done | | done].
        intros k Hk Hk'. apply (Hsep k Hk). by right.
      * intros b Hb. apply elem_of_difference. split.
        -- apply Hin. rewrite elem_of_app, elem_of_cons.
           apply elem_of_app in Hb as [Hb | Hb]; auto.
        -- intros Heq%elem_of_singleton.
           apply elem_of_app in Hb as [Hb | Hb].
           ++ apply (Hsep (Home.retriedScene b)); [by apply list_elem_of_fmap_2 |].
              rewrite Heq. by left.
           ++ apply Ha. rewrite <- Heq. by apply list_elem_of_fmap_2.
  - done.
Qed.

Lemma guarded_reachable pg s : Session.reachable pg s -> guarded s.
Proof.
  induction 1 as [|s s' _ IH Hstep]; [| by eapply guarded_step].
  split; [constructor |]. intros a Ha. by apply not_elem_of_nil in Ha.
Qed.

Lemma one_in_flight_via_view s n :
  guarded s -> (length (Session.inFlightViaView n s) <= 1)%nat.
Proof.
  intros [Hnd _]. unfold Session.inFlightViaView.
  induction (Session.viaView s) as [|a l IH]; [cbn; lia |].
  cbn [map] in Hnd. apply NoDup_cons in Hnd as [Ha Hnd].
  rewrite filter_cons. case_decide as Hn; [| by apply IH].
  assert (filter (fun a => Home.retriedScene a = n) l = []) as ->; [| cbn; lia].
  clear IH. induction l as [|b l IH]; [done |].
  cbn [map] in *. apply NoDup_cons in Hnd as [Hb Hnd].
  rewrite filter_cons. rewrite decide_False.
  - apply IH; [| done]. intros Hin. apply Ha. by right.
  - intros Hbn. apply Ha. rewrite Hn, <- Hbn. by left.
Qed.
End Guard.

Section Replacement.

Lemma replaces_registered n st sc :
  find (fun s => bool_decide (Home.scene s = n)) (Home.scenes st) = Some sc ->
  ∃ st',
    Home.handleRetryVideo n st
    = (st', [Home.PostGenerateVideo sc (Home.controllersCreated st)],
       Some (attemptOf n (Home.controllersCreated st)))
    ∧ Home.abortControllers st' !! n = Some (Home.controllersCreated st)
    ∧ (∀ c, Home.abortControllers st !! n = Some c -> c ∈ Home.abortedSignals st')
    ∧ (controllersKnown st ->
       (Home.controllersCreated st ∉ Home.abortedSignals st')
       ∧ ∀ c, Home.abortControllers st !! n = Some c -> c ≠ Home.controllersCreated st).
Proof.
  intros Hfind. unfold Home.handleRetryVideo. rewrite Hfind.
  assert (Home.controllersCreated (Home.abortExisting n st) = Home.controllersCreated st)
    as Hsame by (unfold Home.abortExisting; by destruct (_ !! _)).
  rewrite Hsame. eexists. split; [reflexivity |]. split; [| split].
  - cbn. rewrite Hsame. apply lookup_insert_eq.
  - intros c Hc. cbn. unfold Home.abortExisting. rewrite Hc. cbn. set_solver.
  - intros Hknown. split; [by apply fresh_controller_live |].
    intros c Hc. destruct Hknown as [_ Hreg]. apply Hreg in Hc. lia.
Qed.

(** C1, as stated, fails: while the retry that "retry all failed" started
    for scene 2 is in flight and not cancelled, a click on the scene's
    retry button is not a no-op. The view's guard does not know that
    retry, so the page's handler runs again: it sends a second generate
    request and starts a second attempt, aborting the first. *)
Lemma retry_during_retry_all_is_not_coalesced :
  let running :=
    {| Session.page := (Home.handleRetryVideo 2 failedPage).1.1;
       Session.view := Session.view (Session.mounted failedPage);
       Session.viaView := [];
       Session.direct := [attemptOf 2 0] |} in
  Session.reachable failedPage running
  ∧ Home.aborted (attemptOf 2 0) (Session.page running) = false
  ∧ VideosDisplay.handleRetryVideo Home.handleRetryVideo 2
      (Session.view running) (Session.page running)
    ≠ (Session.view running, (Session.page running, [], None))
  ∧ ∃ d pg,
      VideosDisplay.handleRetryVideo Home.handleRetryVideo 2
        (Session.view running) (Session.page running)
      = (d, (pg, [Home.PostGenerateVideo sceneTwo 1], Some (attemptOf 2 1)))
      ∧ Home.aborted (attemptOf 2 0) pg = true
      ∧ Home.abortControllers pg !! 2%Z = Some 1%nat.
Proof.
  intros running. split; [| split; [| split]].
  - apply (Session.reachable_step failedPage (Session.mounted failedPage));
      [constructor |].
    apply (Session.step_retry_all_turn (Session.mounted failedPage) 2
             (Home.handleRetryVideo 2 failedPage).1.1
             [Home.PostGenerateVideo sceneTwo 0] (Some (attemptOf 2 0))); reflexivity.
  - by vm_compute.
  - intros Hnoop. apply (f_equal (fun r => r.2.2)) in Hnoop. discriminate Hnoop.
  - eexists _, _. split; [reflexivity |]. split; by vm_compute.
Qed.

(** The [finally] block deletes the registry entry of the scene, whoever
    holds it: when an aborted attempt returns after its successor was
    registered, the successor is left unregistered, and a later retry of
    the scene no longer aborts it. *)
Lemma aborted_attempt_unregisters_its_successor :
  let replaced := (Home.handleRetryVideo 2 (Home.handleRetryVideo 2 failedPage).1.1).1.1 in
  let returned := (Home.resume (attemptOf 2 0) stillPending replaced).1.1 in
  let retried := (Home.handleRetryVideo 2 returned).1.1 in
  Home.abortControllers replaced !! 2%Z = Some 1%nat
  ∧ Home.abortControllers returned !! 2%Z = None
  ∧ Home.aborted (attemptOf 2 1) retried = false
  ∧ Home.aborted (attemptOf 2 2) retried = false.
Proof. repeat split; by vm_compute. Qed.

(** C1, amended. Of the retries started through the results view's
    handler, at most one per scene is in flight, and a call to that handler
    for a scene with such a retry in flight is a no-op. A call that reaches
    the page's handler is never coalesced: it sends a generate request and
    starts a new attempt, registered under the scene in place of the
    attempt registered before, which is aborted; the new attempt is not
    aborted. *)
Theorem retry_guard_and_replacement :
  (∀ pg s n, Session.reachable pg s ->
     (length (Session.inFlightViaView n s) <= 1)%nat)
  ∧ (∀ pg s n, Session.reachable pg s ->
       Session.inFlightViaView n s ≠ [] ->
       VideosDisplay.handleRetryVideo Home.handleRetryVideo n
         (Session.view s) (Session.page s)
       = (Session.view s, (Session.page s, [], None)))
  ∧ (∀ n st sc,
       find (fun s => bool_decide (Home.scene s = n)) (Home.scenes st) = Some sc ->
       ∃ st',
         Home.handleRetryVideo n st
         = (st', [Home.PostGenerateVideo sc (Home.controllersCreated st)],
            Some (attemptOf n (Home.controllersCreated st)))
         ∧ Home.abortControllers st' !! n = Some (Home.controllersCreated st)
         ∧ (∀ c, Home.abortControllers st !! n = Some c -> c ∈ Home.abortedSignals st')
         ∧ (controllersKnown st ->
            (Home.controllersCreated st ∉ Home.abortedSignals st')
            ∧ ∀ c, Home.abortControllers st !! n = Some c ->
                   c ≠ Home.controllersCreated st)).
Proof.
  split; [| split].
  - intros pg s n Hr. apply one_in_flight_via_view. by eapply guarded_reachable.
  - intros pg s n Hr Hne. apply guard_blocks.
    destruct (guarded_reachable pg s Hr) as [_ Hin].
    unfold Session.inFlightViaView in Hne.
    destruct (filter _ _) as [|a l] eqn:Hf; [done |].
    assert (a ∈ filter (fun a => Home.retriedScene a = n) (Session.viaView s)) as Ha
      by (rewrite Hf; by left).
    apply list_elem_of_filter in Ha as [<- Ha]. by apply Hin.
  - exact replaces_registered.
Qed.
Lemma retry_guard_and_replacement_witness :
  Session.reachable failedPage (Session.mounted failedPage)
  ∧ (length (Session.inFlightViaView 2 (Session.mounted failedPage)) <= 1)%nat
  ∧ controllersKnown failedPage
  ∧ ∃ st',
      Home.handleRetryVideo 2 failedPage
      = (st', [Home.PostGenerateVideo sceneTwo 0], Some (attemptOf 2 0))
      ∧ Home.abortControllers st' !! 2%Z = Some 0%nat
      ∧ 0%nat ∉ Home.abortedSignals st'.
Proof.
  assert (Session.reachable failedPage (Session.mounted failedPage)) as Hr
    by constructor.
  pose proof failedPage_known as Hknown.
  destruct retry_guard_and_replacement as (Hone & _ & Hnew).
  split; [exact Hr |]. split; [exact (Hone _ _ 2%Z Hr) |]. split; [exact Hknown |].
  destruct (Hnew 2%Z failedPage sceneTwo eq_refl) as (st' & Heq & Hreg & _ & Hfresh).
  exists st'. split; [exact Heq |]. split; [exact Hreg |].
  exact (proj1 (Hfresh Hknown)).
Defined.
End Replacement.


(** ** The streamed generation, record by record *)
Section StreamRecords.
Variable parseJSON : JS.Text -> option Home.SseData.
Variable pageScenes : list Home.Scene.

Lemma processLines_records lines : ∀ acc,
  foldl (Home.processLine parseJSON pageScenes) acc lines
  = foldl (StoryPage.dispatchAll pageScenes) acc (StoryPage.records parseJSON lines).
Proof.
  induction lines as [|line lines IH]; intros acc; [reflexivity |].
  cbn [foldl StoryPage.records omap list_omap]. rewrite IH.
  unfold Home.processLine at 1.
  destruct (JS.startsWith (JS.text "data: ") line); [| reflexivity].
  destruct (parseJSON (drop 6 line)) as [data|]; reflexivity.
Qed.

(** What the whole read loop comes to. *)
Lemma consume_records chunks s :
  Home.consume parseJSON pageScenes chunks s
  = (Home.setBuffer (partialLine (concat chunks))
       (foldl (StoryPage.dispatchAll pageScenes) (s, [])
          (StoryPage.records parseJSON (completeLines (concat chunks)))).1,
     (foldl (StoryPage.dispatchAll pageScenes) (s, [])
        (StoryPage.records parseJSON (completeLines (concat chunks)))).2).
Proof. rewrite consume_spec. by rewrite processLines_records. Qed.

Lemma dispatch_shape data s :
  map Home.progressScene (Home.videoProgress (Home.dispatch pageScenes data s).1)
  = map Home.progressScene (Home.videoProgress s)
  ∧ map Home.progressTitle (Home.videoProgress (Home.dispatch pageScenes data s).1)
    = map Home.progressTitle (Home.videoProgress s).
Proof.
  assert (∀ f : Home.VideoProgress -> Home.VideoProgress,
            (∀ p, Home.progressScene (f p) = Home.progressScene p
                  ∧ Home.progressTitle (f p) = Home.progressTitle p) ->
            map Home.progressScene (map f (Home.videoProgress s))
            = map Home.progressScene (Home.videoProgress s)
            ∧ map Home.progressTitle (map f (Home.videoProgress s))
              = map Home.progressTitle (Home.videoProgress s)) as Hmap.
  { intros f Hf. rewrite !map_map. split; apply map_ext; intros p; apply Hf. }
  unfold Home.dispatch. repeat case_bool_decide; cbn [fst]; try done.
  - destruct (Home.dataCurrent data) as [c|]; [case_bool_decide |];
      apply Hmap; intros p; unfold Home.onProgress; by case_bool_decide.
  - apply Hmap. intros p. unfold Home.onVideoComplete. by case_bool_decide.
  - apply Hmap. intros p. unfold Home.onError. by case_bool_decide.
Qed.

Lemma dispatchAll_shape datas : ∀ acc,
  map Home.progressScene
    (Home.videoProgress (foldl (StoryPage.dispatchAll pageScenes) acc datas).1)
  = map Home.progressScene (Home.videoProgress acc.1)
  ∧ map Home.progressTitle
      (Home.videoProgress (foldl (StoryPage.dispatchAll pageScenes) acc datas).1)
    = map Home.progressTitle (Home.videoProgress acc.1).
Proof.
  induction datas as [|data datas IH]; intros acc; [done |].
  cbn [foldl]. destruct (IH (StoryPage.dispatchAll pageScenes acc data)) as [-> ->].
  unfold StoryPage.dispatchAll.
  pose proof (dispatch_shape data acc.1) as Hd.
  by destruct (Home.dispatch pageScenes data acc.1).
Qed.

(** A record leaves alone the entries of the scenes it does not name. *)
Lemma dispatch_other_scene data s n i p :
  Home.dataScene data ≠ Some n ->
  Home.videoProgress s !! i = Some p -> Home.progressScene p = n ->
  Home.videoProgress (Home.dispatch pageScenes data s).1 !! i = Some p.
Proof.
  intros Hn Hp Hs.
  assert (∀ f : Home.VideoProgress -> Home.VideoProgress,
            f p = p -> map f (Home.videoProgress s) !! i = Some p) as Hmap.
  { intros f Hf. change (map f (Home.videoProgress s)) with (f <$> Home.videoProgress s).
    by rewrite list_lookup_fmap, Hp; cbn; rewrite Hf. }
  assert (Some (Home.progressScene p) ≠ Home.dataScene data) as Hne by congruence.
  unfold Home.dispatch. repeat case_bool_decide; cbn [fst]; try done.
  - destruct (Home.dataCurrent data) as [c|]; [case_bool_decide |];
      apply Hmap; unfold Home.onProgress; by rewrite bool_decide_eq_false_2.
  - apply Hmap. unfold Home.onVideoComplete. by rewrite bool_decide_eq_false_2.
  - apply Hmap. unfold Home.onError. by rewrite bool_decide_eq_false_2.
Qed.

Lemma dispatchAll_other_scene n i p datas : ∀ acc,
  Forall (fun data => Home.dataScene data ≠ Some n) datas ->
  Home.videoProgress acc.1 !! i = Some p -> Home.progressScene p = n ->
  Home.videoProgress (foldl (StoryPage.dispatchAll pageScenes) acc datas).1 !! i = Some p.
Proof.
  induction datas as [|data datas IH]; intros acc Hall Hp Hs; [done |].
  apply Forall_cons in Hall as [Hd Hall]. cbn [foldl]. apply IH; [done | | done].
  unfold StoryPage.dispatchAll.
  pose proof (dispatch_other_scene data acc.1 n i p Hd Hp Hs) as Hone.
  by destruct (Home.dispatch pageScenes data acc.1).
Qed.

(** Only a record of type "complete" moves the page to another step or
    replaces the list of videos, and it moves the page to step 5. *)
Lemma dispatch_step data s :
  (Home.dataType data ≠ Some "complete" ->
   Home.currentStep (Home.dispatch pageScenes data s).1 = Home.currentStep s
   ∧ Home.streamedVideos (Home.dispatch pageScenes data s).1 = Home.streamedVideos s)
  ∧ (Home.dataType data = Some "complete" ->
     Home.currentStep (Home.dispatch pageScenes data s).1 = 5%Z
     ∧ Home.streamedVideos (Home.dispatch pageScenes data s).1 = Home.dataVideos data).
Proof.
  unfold Home.dispatch. split.
  - intros Hne. repeat case_bool_decide; cbn [fst]; try done.
    destruct (Home.dataCurrent data) as [c|]; [case_bool_decide |]; done.
  - intros ->. rewrite !bool_decide_eq_false_2 by discriminate.
    by rewrite bool_decide_eq_true_2.
Qed.

Lemma dispatchAll_step datas : ∀ acc,
  (Forall (fun data => Home.dataType data ≠ Some "complete") datas ->
   Home.currentStep (foldl (StoryPage.dispatchAll pageScenes) acc datas).1
   = Home.currentStep acc.1
   ∧ Home.streamedVideos (foldl (StoryPage.dispatchAll pageScenes) acc datas).1
     = Home.streamedVideos acc.1)
  ∧ (Exists (fun data => Home.dataType data = Some "complete") datas ->
     Home.currentStep (foldl (StoryPage.dispatchAll pageScenes) acc datas).1 = 5%Z).
Proof.
  induction datas as [|data datas IH]; intros acc.
  { split; [done | intros H; by apply Exists_nil in H]. }
  cbn [foldl]. destruct (IH (StoryPage.dispatchAll pageScenes acc data)) as [IHn IHe].
  pose proof (dispatch_step data acc.1) as [Hn He].
  assert ((StoryPage.dispatchAll pageScenes acc data).1
          = (Home.dispatch pageScenes data acc.1).1) as Hfst
    by (unfold StoryPage.dispatchAll; by destruct (Home.dispatch pageScenes data acc.1)).
  split.
  - intros [Hd Hall]%Forall_cons. destruct (IHn Hall) as [-> ->].
    rewrite Hfst. by apply Hn.
  - intros Hex. destruct (decide (Exists (fun data => Home.dataType data = Some "complete") datas))
      as [Hlater | Hnone]; [by apply IHe |].
    apply Exists_cons in Hex as [Hd | Hlater]; [| done].
    apply not_Exists_Forall in Hnone; [| intros d; apply _].
    destruct (IHn Hnone) as [-> _]. rewrite Hfst. by apply He.
Qed.
End StreamRecords.

Section StreamTheorems.
Variable parseJSON : JS.Text -> option Home.SseData.
Variable pageScenes : list Home.Scene.

Lemma dispatchAll_effects datas : ∀ acc,
  filter isHistoryPost (foldl (StoryPage.dispatchAll pageScenes) acc datas).2
  = filter isHistoryPost acc.2
    ++ map (Home.historyEntry pageScenes) (filter isVideoComplete datas).
Proof.
  induction datas as [|data datas IH]; intros acc.
  { cbn. by rewrite app_nil_r. }
  cbn [foldl]. rewrite IH.
  assert (filter isHistoryPost (StoryPage.dispatchAll pageScenes acc data).2
          = filter isHistoryPost acc.2
            ++ (if isVideoComplete data then [Home.historyEntry pageScenes data] else []))
    as ->.
  { unfold StoryPage.dispatchAll, Home.dispatch, isVideoComplete.
    repeat case_bool_decide; cbn [snd]; rewrite filter_app; try congruence.
    all: f_equal; reflexivity. }
  rewrite <- app_assoc. f_equal. rewrite filter_cons.
  by destruct (isVideoComplete data).
Qed.

Lemma split_without sep (t : JS.Text) : sep ∉ t -> JS.split sep t = [t].
Proof.
  induction t as [|c t IH]; intros Hno; [done |].
  cbn [JS.split]. rewrite bool_decide_eq_false_2.
  - rewrite IH; [done |]. intros Hin. apply Hno. by right.
  - intros ->. apply Hno. by left.
Qed.

Lemma partialLine_without (t : JS.Text) : JS.newline ∉ partialLine t.
Proof.
  pose proof (split_pieces JS.newline t) as Hall.
  rewrite <- lines_and_remainder in Hall.
  apply Forall_app in Hall as [_ Hlast]. by apply Forall_inv in Hlast.
Qed.

Lemma terminated_lines (t : JS.Text) :
  terminated (completeLines t) ++ partialLine t = t.
Proof.
  unfold terminated, completeLines, partialLine.
  induction t as [|c t IH]; [done |].
  cbn [JS.split]. pose proof (split_nonempty JS.newline t) as Hne.
  case_bool_decide as Hc.
  - subst c. destruct (JS.split JS.newline t) as [|p ps] eqn:Hs; [done |].
    cbn [removelast List.last map concat app]. cbn [removelast List.last] in IH.
    by rewrite IH.
  - destruct (JS.split JS.newline t) as [|p [|p2 ps]] eqn:Hs; [done | |].
    + cbn in IH |- *. by rewrite IH.
    + cbn [removelast List.last map concat app] in IH |- *.
      rewrite <- app_assoc in IH. cbn [app] in IH. rewrite <- app_assoc. cbn [app].
      by rewrite IH.
Qed.
End StreamTheorems.

(** Whatever the stream delivers, the progress list keeps one entry per
    scene of the story, with the scene numbers and titles it was started
    with, in scene order: records only rewrite the other fields. *)
Theorem stream_progress_keeps_scenes
    (parseJSON : JS.Text -> option Home.SseData) (scenes : list Home.Scene)
    (chunks : list JS.Text) (s : Home.Stream) :
  let s' := (Home.consume parseJSON scenes chunks
               (StoryPage.handleGenerateVideos scenes s)).1 in
  map Home.progressScene (Home.videoProgress s') = map Home.scene scenes
  ∧ map Home.progressTitle (Home.videoProgress s') = map Home.title scenes.
Proof.
  cbv zeta. rewrite consume_records. cbn [fst Home.setBuffer Home.videoProgress].
  destruct (dispatchAll_shape scenes
              (StoryPage.records parseJSON (completeLines (concat chunks)))
              (StoryPage.handleGenerateVideos scenes s, [])) as [-> ->].
  cbn [fst StoryPage.handleGenerateVideos Home.videoProgress].
  unfold StoryPage.initialProgress. by rewrite !map_map.
Qed.

(** The read loop loses no character of the stream: the complete lines,
    each with its newline, followed by what is left in the buffer, are the
    text received. *)
Theorem stream_framing_loses_nothing
    (parseJSON : JS.Text -> option Home.SseData) (pageScenes : list Home.Scene)
    (chunks : list JS.Text) (s : Home.Stream) :
  terminated (completeLines (concat chunks))
  ++ Home.buffer (Home.consume parseJSON pageScenes chunks s).1
  = concat chunks.
Proof.
  rewrite consume_records. cbn [fst Home.setBuffer Home.buffer].
  apply terminated_lines.
Qed.

(** Text that arrives after the last newline is only buffered: a final
    chunk without a newline dispatches nothing, so a last record that the
    server did not terminate is dropped when the stream ends. *)
Theorem stream_unterminated_tail_is_only_buffered
    (parseJSON : JS.Text -> option Home.SseData) (pageScenes : list Home.Scene)
    (chunks : list JS.Text) (tail : JS.Text) (s : Home.Stream) :
  JS.newline ∉ tail ->
  Home.consume parseJSON pageScenes (chunks ++ [tail]) s
  = (Home.setBuffer (Home.buffer (Home.consume parseJSON pageScenes chunks s).1 ++ tail)
       (Home.consume parseJSON pageScenes chunks s).1,
     (Home.consume parseJSON pageScenes chunks s).2).
Proof.
  intros Hno. unfold Home.consume at 1. rewrite foldl_app. cbn [foldl].
  change (foldl (Home.readChunk parseJSON pageScenes) (Home.setBuffer [] s, []) chunks)
    with (Home.consume parseJSON pageScenes chunks s).
  unfold Home.readChunk. rewrite split_without; [reflexivity |].
  rewrite consume_records. cbn [fst Home.setBuffer Home.buffer].
  intros [Hin | Hin]%elem_of_app; [by apply partialLine_without in Hin | done].
Qed.

Lemma stream_unterminated_tail_is_only_buffered_witness :
  Home.consume oneLetter [sceneOne] ([JS.text "data: P" ++ [JS.newline]] ++ [JS.text "data: C"])
    (StoryPage.handleGenerateVideos [sceneOne] emptyStream)
  = (Home.setBuffer
       (Home.buffer (Home.consume oneLetter [sceneOne] [JS.text "data: P" ++ [JS.newline]]
                       (StoryPage.handleGenerateVideos [sceneOne] emptyStream)).1
        ++ JS.text "data: C")
       (Home.consume oneLetter [sceneOne] [JS.text "data: P" ++ [JS.newline]]
          (StoryPage.handleGenerateVideos [sceneOne] emptyStream)).1,
     (Home.consume oneLetter [sceneOne] [JS.text "data: P" ++ [JS.newline]]
        (StoryPage.handleGenerateVideos [sceneOne] emptyStream)).2).
Proof.
  apply (stream_unterminated_tail_is_only_buffered oneLetter [sceneOne]
           [JS.text "data: P" ++ [JS.newline]] (JS.text "data: C")).
  apply (bool_decide_unpack _). by vm_compute.
Defined.

(** Lines that do not start with "data: ", and lines whose rest does not
    parse, change nothing on the page and cause no effect. *)
Theorem stream_ignores_other_lines
    (parseJSON : JS.Text -> option Home.SseData) (pageScenes : list Home.Scene)
    (chunks : list JS.Text) (s : Home.Stream) :
  Forall (fun line => JS.startsWith (JS.text "data: ") line = false
                      ∨ parseJSON (drop 6 line) = None)
    (completeLines (concat chunks)) ->
  Home.consume parseJSON pageScenes chunks s
  = (Home.setBuffer (partialLine (concat chunks)) s, []).
Proof.
  intros Hall. rewrite consume_records.
  assert (StoryPage.records parseJSON (completeLines (concat chunks)) = []) as ->;
    [| reflexivity].
  induction Hall as [|line lines Hline _ IH]; [reflexivity |].
  cbn [StoryPage.records omap list_omap]. fold (StoryPage.records parseJSON lines).
  rewrite IH. destruct Hline as [-> | Hparse]; [reflexivity |].
  rewrite Hparse. by destruct (JS.startsWith _ _).
Qed.

Lemma stream_ignores_other_lines_witness :
  Home.consume oneLetter [sceneOne]
    [JS.text ": keep-alive" ++ [JS.newline]; JS.text "data: {" ++ [JS.newline]]
    (StoryPage.handleGenerateVideos [sceneOne] emptyStream)
  = (Home.setBuffer
       (partialLine (concat [JS.text ": keep-alive" ++ [JS.newline];
                             JS.text "data: {" ++ [JS.newline]]))
       (StoryPage.handleGenerateVideos [sceneOne] emptyStream), []).
Proof.
  apply (stream_ignores_other_lines oneLetter [sceneOne]
           [JS.text ": keep-alive" ++ [JS.newline]; JS.text "data: {" ++ [JS.newline]]).
  unfold completeLines. vm_compute.
  constructor; [by left |]. constructor; [by right | constructor].
Defined.

(** Only a record of type "complete" ends the generation step: without
    one the page stays on its step and keeps its list of videos, with one
    it ends on step 5, whatever records follow. *)
Theorem stream_leaves_step_only_on_complete
    (parseJSON : JS.Text -> option Home.SseData) (pageScenes : list Home.Scene)
    (chunks : list JS.Text) (s : Home.Stream) :
  let datas := StoryPage.records parseJSON (completeLines (concat chunks)) in
  let s' := (Home.consume parseJSON pageScenes chunks s).1 in
  (Forall (fun data => ¬ isComplete data) datas ->
   Home.currentStep s' = Home.currentStep s
   ∧ Home.streamedVideos s' = Home.streamedVideos s)
  ∧ (Exists isComplete datas -> Home.currentStep s' = 5%Z).
Proof.
  cbv zeta. rewrite consume_records.
  cbn [fst Home.setBuffer Home.currentStep Home.streamedVideos].
  apply (dispatchAll_step pageScenes _ (s, [])).
Qed.

Lemma stream_leaves_step_only_on_complete_witness :
  (Home.currentStep
     (Home.consume oneLetter [sceneOne] [JS.text "data: P" ++ [JS.newline]]
        (StoryPage.handleGenerateVideos [sceneOne] emptyStream)).1 = 4%Z)
  ∧ Home.currentStep
      (Home.consume oneLetter [sceneOne]
         [JS.text "data: C" ++ [JS.newline]; JS.text "data: P" ++ [JS.newline]]
         (StoryPage.handleGenerateVideos [sceneOne] emptyStream)).1 = 5%Z.
Proof.
  split.
  - apply (stream_leaves_step_only_on_complete oneLetter [sceneOne]
             [JS.text "data: P" ++ [JS.newline]]
             (StoryPage.handleGenerateVideos [sceneOne] emptyStream)).
    vm_compute. repeat constructor; discriminate.
  - apply (stream_leaves_step_only_on_complete oneLetter [sceneOne]
             [JS.text "data: C" ++ [JS.newline]; JS.text "data: P" ++ [JS.newline]]
             (StoryPage.handleGenerateVideos [sceneOne] emptyStream)).
    vm_compute. by left.
Defined.

(** The progress entry of a scene changes only through records that carry
    its scene number. *)
Theorem stream_entry_changes_only_by_its_records
    (parseJSON : JS.Text -> option Home.SseData) (pageScenes : list Home.Scene)
    (chunks : list JS.Text) (s : Home.Stream) (i : nat) (p : Home.VideoProgress) :
  Home.videoProgress s !! i = Some p ->
  Forall (fun data => Home.dataScene data ≠ Some (Home.progressScene p))
    (StoryPage.records parseJSON (completeLines (concat chunks))) ->
  Home.videoProgress (Home.consume parseJSON pageScenes chunks s).1 !! i = Some p.
Proof.
  intros Hp Hall. rewrite consume_records. cbn [fst Home.setBuffer Home.videoProgress].
  by apply (dispatchAll_other_scene pageScenes (Home.progressScene p) i p _ (s, [])).
Qed.

Lemma stream_entry_changes_only_by_its_records_witness :
  Home.videoProgress
    (Home.consume oneLetter [sceneOne; sceneTwo]
       [JS.text "data: P" ++ [JS.newline]; JS.text "data: V" ++ [JS.newline]]
       (StoryPage.handleGenerateVideos [sceneOne; sceneTwo] emptyStream)).1 !! 1%nat
  = Some {| Home.progressScene := 2; Home.progressTitle := "The storm";
            Home.progressStatus := Some "pending"; Home.progressUrl := None;
            Home.progressError := None; Home.progressMessage := None;
            Home.progressTimestamp := None |}.
Proof.
  apply (stream_entry_changes_only_by_its_records oneLetter [sceneOne; sceneTwo]
           [JS.text "data: P" ++ [JS.newline]; JS.text "data: V" ++ [JS.newline]]
           (StoryPage.handleGenerateVideos [sceneOne; sceneTwo] emptyStream) 1).
  - reflexivity.
  - vm_compute. repeat constructor; discriminate.
Defined.

(** Every "video_complete" record is saved to the history exactly once, in
    the order of arrival, and nothing else is: the history requests of a
    stream are those of its "video_complete" records. *)
Theorem stream_saves_each_completed_video
    (parseJSON : JS.Text -> option Home.SseData) (pageScenes : list Home.Scene)
    (chunks : list JS.Text) (s : Home.Stream) :
  filter isHistoryPost (Home.consume parseJSON pageScenes chunks s).2
  = map (Home.historyEntry pageScenes)
      (filter isVideoComplete
         (StoryPage.records parseJSON (completeLines (concat chunks)))).
Proof.
  rewrite consume_records. cbn [snd].
  by rewrite (dispatchAll_effects pageScenes _ (s, [])).
Qed.

(** ** One retry: what it touches and how it ends *)
Section RetryShape.
Import Home.

(** The ways a resumption can come out. *)
Lemma resume_cases a w st :
  (∃ effs a', resume a w st = (st, effs, Some a')
              ∧ retriedScene a' = retriedScene a ∧ controller a' = controller a
              ∧ aborted a st = false)
  ∨ (resume a w st = (finallyBlock a st, [], None) ∧ aborted a st = true)
  ∨ (aborted a st = false
     ∧ ∃ msg effs,
         resume a w st
         = (finallyBlock a
              (setGeneratedVideos (map (markFailed (retriedScene a) msg)) st),
            effs, None))
  ∨ (aborted a st = false
     ∧ ∃ url effs,
         resume a w st
         = (finallyBlock a
              (setGeneratedVideos (map (markCompleted (retriedScene a) url)) st),
            effs, None)).
Proof.
  unfold resume, resumeGenerate, resumeTimer, resumeStatus, loopHead, afterLoop,
    catchBlock.
  destruct (aborted a st) eqn:Hab;
    repeat match goal with
           | |- context [match ?x with _ => _ end] => destruct x
           end;
    first [ by (right; left)
          | by (left; do 2 eexists; split; [reflexivity | done])
          | by (right; right; left; eauto)
          | by (right; right; right; eauto) ].
Qed.

Lemma sameUnless_refl P v : sameUnless P v v.
Proof. by repeat split. Qed.

Lemma sameUnless_trans P v1 v2 v3 :
  sameUnless P v1 v2 -> sameUnless P v2 v3 -> sameUnless P v1 v3.
Proof.
  intros (Hn & Ht & Hv) (Hn' & Ht' & Hv'). split; [congruence |].
  split; [congruence |]. intros HP. rewrite <- (Hv HP). apply Hv'.
  by rewrite Hn.
Qed.

Lemma onlyScenes_refl P vs : onlyScenes P vs vs.
Proof. induction vs; constructor; [apply sameUnless_refl | done]. Qed.

Lemma onlyScenes_trans P vs1 vs2 vs3 :
  onlyScenes P vs1 vs2 -> onlyScenes P vs2 vs3 -> onlyScenes P vs1 vs3.
Proof.
  intros H12. revert vs3. induction H12 as [|v1 v2 vs1 vs2 Hv _ IH]; intros vs3 H23.
  - exact H23.
  - inversion H23 as [|? v3 ? vs3' Hv' H23']; subst. constructor; [| by apply IH].
    by eapply sameUnless_trans.
Qed.

Lemma onlyScenes_weaken (P Q : Z -> Prop) vs vs' :
  (∀ n, P n -> Q n) -> onlyScenes P vs vs' -> onlyScenes Q vs vs'.
Proof.
  intros HPQ. induction 1 as [|v v' vs vs' (Hn & Ht & Hv) _ IH]; constructor; [| done].
  repeat split; [done | done |]. intros HQ. apply Hv. intros HP. by apply HQ, HPQ.
Qed.

Lemma onlyScenes_map P (f : GeneratedVideo -> GeneratedVideo) vs :
  (∀ v, sameUnless P v (f v)) -> onlyScenes P vs (map f vs).
Proof. intros Hf. induction vs; constructor; [apply Hf | done]. Qed.

Lemma sameUnless_markGenerating n v : sameUnless (eq n) v (markGenerating n v).
Proof.
  unfold markGenerating. case_bool_decide; [| apply sameUnless_refl].
  split; [done |]. split; [done |]. intros Hne. congruence.
Qed.

Lemma sameUnless_markCompleted n url v : sameUnless (eq n) v (markCompleted n url v).
Proof.
  unfold markCompleted. case_bool_decide; [| apply sameUnless_refl].
  split; [done |]. split; [done |]. intros Hne. congruence.
Qed.

Lemma sameUnless_markFailed n msg v : sameUnless (eq n) v (markFailed n msg v).
Proof.
  unfold markFailed. case_bool_decide; [| apply sameUnless_refl].
  split; [done |]. split; [done |]. intros Hne. congruence.
Qed.

Lemma resume_onlyScenes a w st :
  onlyScenes (eq (retriedScene a)) (generatedVideos st)
    (generatedVideos (resume a w st).1.1)
  ∧ scenes (resume a w st).1.1 = scenes st.
Proof.
  destruct (resume_cases a w st)
    as [(effs & a' & -> & _) | [[-> _] | [(_ & msg & effs & ->) | (_ & url & effs & ->)]]];
    cbn; split; try done; try apply onlyScenes_refl.
  - apply onlyScenes_map, sameUnless_markFailed.
  - apply onlyScenes_map, sameUnless_markCompleted.
Qed.

Lemma drive_onlyScenes fuel : ∀ env k a st,
  onlyScenes (eq (retriedScene a)) (generatedVideos st)
    (generatedVideos (drive fuel env k a st).1.1)
  ∧ scenes (drive fuel env k a st).1.1 = scenes st.
Proof.
  induction fuel as [|fuel IH]; intros env k a st.
  { cbn. split; [apply onlyScenes_refl | done]. }
  cbn [drive].
  pose proof (resume_onlyScenes a (env k) st) as [Hr Hsc].
  pose proof (resume_same_scene a (env k) st) as Hs.
  destruct (resume a (env k) st) as [[st1 effs1] [a'|]]; cbn [fst snd] in *; [| done].
  specialize (IH env (S k) a' st1). rewrite (Hs a' eq_refl) in IH.
  destruct IH as [IH IHsc].
  destruct (drive fuel env (S k) a' st1) as [[st2 effs2] next]. cbn [fst] in *.
  split; [by eapply onlyScenes_trans | congruence].
Qed.

Lemma awaitRetryVideo_onlyScenes env n st :
  onlyScenes (eq n) (generatedVideos st)
    (generatedVideos (awaitRetryVideo env n st).1.1)
  ∧ scenes (awaitRetryVideo env n st).1.1 = scenes st.
Proof.
  unfold awaitRetryVideo, handleRetryVideo.
  destruct (find _ _) as [sc|]; [| split; [apply onlyScenes_refl | done]].
  match goal with |- context [drive ?f ?e ?k ?a ?s] =>
    pose proof (drive_onlyScenes f e k a s) as [Hd Hsc];
    destruct (drive f e k a s) as [[st2 effs2] next]
  end.
  cbn [fst retriedScene] in *. split.
  - eapply onlyScenes_trans; [| exact Hd]. cbn.
    assert (generatedVideos (abortExisting n st) = generatedVideos st) as ->
      by (unfold abortExisting; by destruct (_ !! _)).
    apply onlyScenes_map, sameUnless_markGenerating.
  - rewrite Hsc. cbn. unfold abortExisting. by destruct (_ !! _).
Qed.

(** A live attempt that returns leaves its scene settled and unregistered. *)
Lemma resume_settles a w st st' effs :
  aborted a st = false -> resume a w st = (st', effs, None) ->
  (∀ v, v ∈ generatedVideos st' -> sceneNumber v = retriedScene a -> settledVideo v)
  ∧ abortControllers st' !! retriedScene a = None.
Proof.
  intros Hlive Hres.
  destruct (resume_cases a w st)
    as [(effs' & a' & Heq & _) | [[_ Hab] | [(_ & msg & effs' & Heq) | (_ & url & effs' & Heq)]]];
    [congruence | congruence | |];
    rewrite Heq in Hres; injection Hres as <- <-; cbn; (split; [| apply lookup_delete_eq]).
  - intros v (v0 & -> & _)%list_elem_of_fmap. unfold markFailed.
    case_bool_decide; [by right | done].
  - intros v (v0 & -> & _)%list_elem_of_fmap. unfold markCompleted.
    case_bool_decide; [by left | done].
Qed.

Lemma drive_settles fuel : ∀ env k a st st' effs,
  aborted a st = false -> drive fuel env k a st = (st', effs, None) ->
  (∀ v, v ∈ generatedVideos st' -> sceneNumber v = retriedScene a -> settledVideo v)
  ∧ abortControllers st' !! retriedScene a = None.
Proof.
  induction fuel as [|fuel IH]; intros env k a st st' effs Hlive Hd; [done |].
  cbn [drive] in Hd.
  pose proof (resume_settles a (env k) st) as Hdone.
  destruct (resume_cases a (env k) st)
    as [(effs1 & a' & Heq & Hsc & Hc & _) | Hret].
  - rewrite Heq in Hd.
    destruct (drive fuel env (S k) a' st) as [[st2 effs2] next] eqn:Hrest.
    injection Hd as <- <- ->. rewrite <- Hsc.
    apply (IH env (S k) a' st st2 effs2); [| done].
    unfold aborted in *. by rewrite Hc.
  - destruct (resume a (env k) st) as [[st1 effs1] [a'|]] eqn:Hr.
    + exfalso. destruct Hret as [[Heq _] | [(_ & ? & ? & Heq) | (_ & ? & ? & Heq)]];
        discriminate.
    + injection Hd as <- <-. by apply (Hdone st1 effs1).
Qed.
End RetryShape.

(** A retry, awaited to its return, touches only the videos of its own
    scene: every other video is afterwards exactly what it was, no video is
    added, removed or moved, and scene numbers and titles stay as they were. *)
Theorem retry_touches_only_its_scene (env : nat -> Home.Settlement) (n : Z)
    (st : Home.State) :
  onlyScenes (eq n) (Home.generatedVideos st)
    (Home.generatedVideos (Home.awaitRetryVideo env n st).1.1)
  ∧ Home.scenes (Home.awaitRetryVideo env n st).1.1 = Home.scenes st.
Proof. apply awaitRetryVideo_onlyScenes. Qed.

(** A retry of a known scene that nobody cancels never leaves the scene
    "generating": whatever the server answers, when the awaited retry
    returns every video of the scene is completed or failed, and the
    scene's abort controller is no longer registered. *)
Theorem awaited_retry_settles_its_scene (env : nat -> Home.Settlement) (n : Z)
    (st : Home.State) (sc : Home.Scene) :
  controllersKnown st ->
  find (fun s => bool_decide (Home.scene s = n)) (Home.scenes st) = Some sc ->
  (Home.awaitRetryVideo env n st).2 = None
  ∧ (∀ v, v ∈ Home.generatedVideos (Home.awaitRetryVideo env n st).1.1 ->
          Home.sceneNumber v = n -> settledVideo v)
  ∧ Home.abortControllers (Home.awaitRetryVideo env n st).1.1 !! n = None.
Proof.
  intros Hknown Hfind.
  destruct (awaitRetryVideo_returns env n st) as (st' & effs & Hret & _).
  rewrite Hret. cbn [fst snd]. split; [done |].
  unfold Home.awaitRetryVideo, Home.handleRetryVideo in Hret. rewrite Hfind in Hret.
  match type of Hret with context [Home.drive ?f ?e ?k ?a ?s] =>
    pose proof (drive_settles f e k a s) as Hd;
    destruct (Home.drive f e k a s) as [[st2 effs2] next]
  end.
  injection Hret as <- <- ->.
  apply (Hd st2 effs2); [| done].
  unfold Home.aborted. cbn [Home.controller]. apply bool_decide_eq_false_2.
  assert (Home.controllersCreated (Home.abortExisting n st) = Home.controllersCreated st)
    as -> by (unfold Home.abortExisting; by destruct (_ !! _)).
  by apply fresh_controller_live.
Qed.

Lemma awaited_retry_settles_its_scene_witness :
  (Home.awaitRetryVideo (fun _ => stillPending) 2 failedPage).2 = None
  ∧ (∀ v, v ∈ Home.generatedVideos (Home.awaitRetryVideo (fun _ => stillPending) 2 failedPage).1.1 ->
          Home.sceneNumber v = 2%Z -> settledVideo v)
  ∧ Home.abortControllers (Home.awaitRetryVideo (fun _ => stillPending) 2 failedPage).1.1 !! 2%Z = None.
Proof.
  apply (awaited_retry_settles_its_scene (fun _ => stillPending) 2 failedPage sceneTwo).
  - apply failedPage_known.
  - reflexivity.
Defined.

(** ** Retry all failed: how far the loop gets *)
Section RetryAllOutcome.
Import Home.

Lemma wroteVideos_app e1 e2 : wroteVideos (e1 ++ e2) = wroteVideos e1 || wroteVideos e2.
Proof. unfold wroteVideos. apply existsb_app. Qed.

(** A resumption reports an outcome exactly when a live attempt returns. *)
Lemma resume_reports a w st :
  wroteVideos (resume a w st).1.2
  = negb (aborted a st) && bool_decide ((resume a w st).2 = None).
Proof.
  unfold resume, resumeGenerate, resumeTimer, resumeStatus, loopHead, afterLoop,
    catchBlock.
  destruct (aborted a st) eqn:Hab;
    repeat match goal with
           | |- context [match ?x with _ => _ end] => destruct x
           end; reflexivity.
Qed.

Lemma drive_reports fuel : ∀ env k a st,
  aborted a st = false ->
  (drive fuel env k a st).2 = None ->
  wroteVideos (drive fuel env k a st).1.2 = true.
Proof.
  induction fuel as [|fuel IH]; intros env k a st Hlive; [done |].
  cbn [drive].
  pose proof (resume_reports a (env k) st) as Hrep.
  destruct (resume_cases a (env k) st)
    as [(effs1 & a' & Heq & Hsc & Hc & _) | Hret].
  - rewrite Heq in *.
    specialize (IH env (S k) a' st).
    destruct (drive fuel env (S k) a' st) as [[st2 effs2] next].
    cbn [fst snd] in *. intros ->. rewrite wroteVideos_app.
    rewrite IH; [apply orb_true_r | | done].
    unfold aborted in *. by rewrite Hc.
  - destruct (resume a (env k) st) as [[st1 effs1] [a'|]] eqn:Hr.
    + exfalso. destruct Hret as [[Heq _] | [(_ & ? & ? & Heq) | (_ & ? & ? & Heq)]];
        discriminate.
    + cbn [fst snd] in *. intros _. by rewrite Hrep, Hlive.
Qed.

(** The retry of a scene the page knows, awaited alone, ends by writing
    the list of videos. *)
Lemma awaitRetryVideo_reports env n st sc :
  controllersKnown st ->
  find (fun s => bool_decide (scene s = n)) (scenes st) = Some sc ->
  wroteVideos (awaitRetryVideo env n st).1.2 = true.
Proof.
  intros Hknown Hfind.
  destruct (awaitRetryVideo_returns env n st) as (st' & effs & Hret & _).
  unfold awaitRetryVideo, handleRetryVideo in *. rewrite Hfind in *.
  match type of Hret with context [drive ?f ?e ?k ?a ?s] =>
    pose proof (drive_reports f e k a s) as Hd;
    destruct (drive f e k a s) as [[st2 effs2] next]
  end.
  injection Hret as <- <- ->. cbn [fst snd] in *.
  rewrite wroteVideos_app, Hd; [apply orb_true_r | | done].
  unfold aborted. cbn [controller]. apply bool_decide_eq_false_2.
  assert (controllersCreated (abortExisting n st) = controllersCreated st)
    as -> by (unfold abortExisting; by destruct (_ !! _)).
  by apply fresh_controller_live.
Qed.

Lemma resume_no_generate a w st :
  List.filter isGenerateRequest (resume a w st).1.2 = [].
Proof.
  unfold resume, resumeGenerate, resumeTimer, resumeStatus, loopHead, afterLoop,
    catchBlock.
  repeat match goal with
         | |- context [match ?x with _ => _ end] => destruct x
         end; reflexivity.
Qed.

Lemma drive_no_generate fuel : ∀ env k a st,
  List.filter isGenerateRequest (drive fuel env k a st).1.2 = [].
Proof.
  induction fuel as [|fuel IH]; intros env k a st; [done |].
  cbn [drive]. pose proof (resume_no_generate a (env k) st) as Hr.
  destruct (resume a (env k) st) as [[st1 effs1] [a'|]]; [| exact Hr].
  specialize (IH env (S k) a' st1).
  destruct (drive fuel env (S k) a' st1) as [[st2 effs2] next].
  cbn [fst snd] in *. by rewrite List.filter_app, Hr, IH.
Qed.

(** An awaited retry sends one generate request when the page knows the
    scene, and none otherwise. *)
Lemma awaitRetryVideo_requests env n st :
  List.filter isGenerateRequest (awaitRetryVideo env n st).1.2
  = match find (fun s => bool_decide (scene s = n)) (scenes st) with
    | Some sc => [PostGenerateVideo sc (controllersCreated st)]
    | None => []
    end.
Proof.
  unfold awaitRetryVideo, handleRetryVideo.
  destruct (find _ (scenes st)) as [sc|]; [| done].
  match goal with |- context [drive ?f ?e ?k ?a ?s] =>
    pose proof (drive_no_generate f e k a s) as Hd;
    destruct (drive f e k a s) as [[st2 effs2] next]
  end.
  cbn [fst snd] in *. rewrite List.filter_app, Hd.
  assert (controllersCreated (abortExisting n st) = controllersCreated st)
    as -> by (unfold abortExisting; by destruct (_ !! _)).
  done.
Qed.

Lemma retryLoop_requests sur pending : ∀ turn open st,
  (length (List.filter isGenerateRequest (retryLoop sur turn pending open st).1.2)
   <= length (retryLoop sur turn pending open st).2)%nat.
Proof.
  induction pending as [|n rest IH]; intros turn open st; [done |].
  cbn [retryLoop]. destruct (readNow open false _ st); [| apply IH].
  pose proof (awaitRetryVideo_requests (settle sur turn) n st) as Hone.
  destruct (awaitRetryVideo (settle sur turn) n st) as [[st1 effs1] next].
  match goal with |- context [retryLoop sur (S turn) rest ?o ?s] =>
    specialize (IH (S turn) o s); destruct (retryLoop sur (S turn) rest o s)
      as [[st2 effs2] calls]
  end.
  cbn [fst snd length] in *. rewrite List.filter_app, length_app, Hone.
  destruct (find _ (scenes st)); cbn [length]; lia.
Qed.

Lemma threeFailed_known : controllersKnown threeFailed.
Proof.
  split; [intros c Hc; by apply not_elem_of_empty in Hc |].
  intros n c Hc. unfold threeFailed in Hc. cbn in Hc. by rewrite lookup_empty in Hc.
Qed.

(** C4, against the claim. The handler goes through the scenes that were
    failed when it was called, one after the other, and awaits each retry
    to its return; a scene that is not failed any more is skipped, and
    no more generate requests are sent than retries are made. But it
    does not retry each of them. When React's fast path is closed at the
    call, the snapshot is still empty when the loop starts and nothing is
    retried. When it is open and the page knows the first failed scene,
    that scene is retried, with one generate request, and no other: the
    retry ends by writing the list, the read of the next turn is queued
    behind that write, and the scenes that follow are skipped though
    they are still failed. *)
Theorem retry_all_failed_retries_one_scene_only (sur : Surroundings) (st : State) :
  (∀ env n st0, ∃ st' effs, awaitRetryVideo env n st0 = (st', effs, None))
  ∧ (∀ open,
       (handleRetryAllFailed sur open st).2 `sublist_of` failedSceneNumbers st
       ∧ (length (List.filter isGenerateRequest (handleRetryAllFailed sur open st).1.2)
          <= length (handleRetryAllFailed sur open st).2)%nat)
  ∧ (∀ n turn pending open st0,
       neverFails sur n -> stillFailed n st0 = false ->
       n ∉ (retryLoop sur turn pending open st0).2)
  ∧ handleRetryAllFailed sur false st = (st, [], [])
  ∧ (∀ n rest sc,
       failedSceneNumbers st = n :: rest ->
       find (fun s => bool_decide (scene s = n)) (scenes st) = Some sc ->
       controllersKnown st ->
       (handleRetryAllFailed sur true st).2 = [n]
       ∧ List.filter isGenerateRequest (handleRetryAllFailed sur true st).1.2
         = [PostGenerateVideo sc (controllersCreated st)]
       ∧ (quiet sur ->
          ∀ m, m ∈ rest -> m ≠ n ->
               stillFailed m (handleRetryAllFailed sur true st).1.1 = true)).
Proof.
  split; [| split; [| split; [| split]]].
  - intros env n st0.
    destruct (awaitRetryVideo_returns env n st0) as (st' & effs & H & _). eauto.
  - intros open. split; [| apply retryLoop_requests].
    unfold handleRetryAllFailed, readNow at 1.
    destruct open; [apply retryLoop_sublist |]. cbn. apply sublist_nil_l.
  - intros n turn pending open st0. apply retryLoop_skips.
  - reflexivity.
  - intros n rest sc Hsnap Hfind Hknown. unfold handleRetryAllFailed, readNow.
    rewrite Hsnap. cbn [retryLoop]. unfold readNow. fold (stillFailed n st).
    assert (stillFailed n st = true) as ->
      by (apply failed_in_snapshot; rewrite Hsnap; by left).
    pose proof (awaitRetryVideo_reports (settle sur 0) n st sc Hknown Hfind) as Hwrote.
    pose proof (fun m Hm => stillFailed_awaitRetryVideo m (settle sur 0) n st Hm) as Hkeep.
    pose proof (awaitRetryVideo_requests (settle sur 0) n st) as Hone.
    rewrite Hfind in Hone.
    destruct (awaitRetryVideo (settle sur 0) n st) as [[st1 effs1] next].
    cbn [fst snd] in Hwrote, Hkeep, Hone. rewrite Hwrote, retryLoop_closed. cbn [fst snd].
    split; [done |]. split; [by rewrite app_nil_r |].
    intros Hquiet m Hm Hne. rewrite Hquiet, Hkeep by done.
    apply failed_in_snapshot. rewrite Hsnap. by right.
Qed.

Lemma retry_all_failed_retries_one_scene_only_witness :
  failedSceneNumbers threeFailed = [2; 5; 7]%Z
  ∧ (handleRetryAllFailed succeeding true threeFailed).2 = [2%Z]
  ∧ List.filter isGenerateRequest (handleRetryAllFailed succeeding true threeFailed).1.2
    = [PostGenerateVideo sceneTwo 0]
  ∧ stillFailed 5 (handleRetryAllFailed succeeding true threeFailed).1.1 = true
  ∧ stillFailed 7 (handleRetryAllFailed succeeding true threeFailed).1.1 = true
  ∧ handleRetryAllFailed succeeding false threeFailed = (threeFailed, [], []).
Proof.
  destruct (retry_all_failed_retries_one_scene_only succeeding threeFailed)
    as (_ & _ & _ & Hclosed & Hopen).
  destruct (Hopen 2%Z [5; 7]%Z sceneTwo eq_refl eq_refl threeFailed_known)
    as (Hone & Hsent & Hleft).
  assert (quiet succeeding) as Hquiet by (intros t st; reflexivity).
  split; [reflexivity |]. split; [exact Hone |]. split; [exact Hsent |].
  split; [| split; [| exact Hclosed]].
  - apply (Hleft Hquiet); [by left | done].
  - apply (Hleft Hquiet); [right; by left | done].
Defined.
End RetryAllOutcome.

(** ** The registry of abort controllers and the retries in flight *)
Section Registry.

Lemma handleRetryVideo_cases n pg :
  (Home.handleRetryVideo n pg).2 = None ∧ (Home.handleRetryVideo n pg).1.1 = pg
  ∨ ∃ pg',
      (Home.handleRetryVideo n pg).1.1 = pg'
      ∧ (Home.handleRetryVideo n pg).2 = Some (attemptOf n (Home.controllersCreated pg))
      ∧ Home.controllersCreated pg' = S (Home.controllersCreated pg)
      ∧ Home.abortControllers pg'
        = <[n := Home.controllersCreated pg]> (Home.abortControllers pg)
      ∧ Home.abortedSignals pg'
        = match Home.abortControllers pg !! n with
          | Some c => {[c]} ∪ Home.abortedSignals pg
          | None => Home.abortedSignals pg
          end.
Proof.
  unfold Home.handleRetryVideo. destruct (find _ _) as [sc|]; [right | by left].
  eexists. split; [reflexivity |]. cbn. unfold Home.abortExisting, attemptOf.
  destruct (Home.abortControllers pg !! n) as [c|]; cbn; [| done].
  by rewrite insert_delete_eq.
Qed.

Lemma inStep_start pg inFlight inFlight' n pg' effs a :
  inStep pg inFlight ->
  Home.handleRetryVideo n pg = (pg', effs, Some a) ->
  (∀ b, b ∈ inFlight' <-> b ∈ inFlight ∨ b = a) ->
  inStep pg' inFlight'.
Proof.
  intros ([Hsig Hreg] & Hall & Hlive) Hcall Hmem.
  destruct (handleRetryVideo_cases n pg) as [[Hnone _] | (pg1 & Hpg & Ha & Hcr & Hrg & Hab)];
    rewrite Hcall in *; cbn [fst snd] in *; [done |].
  subst pg1. injection Ha as ->.
  assert (∀ c, c ∈ Home.abortedSignals pg' ->
               c ∈ Home.abortedSignals pg ∨ Home.abortControllers pg !! n = Some c)
    as Hwhich.
  { intros c. rewrite Hab. destruct (Home.abortControllers pg !! n) as [c0|]; [| by left].
    intros [->%elem_of_singleton | Hin]%elem_of_union; [by right | by left]. }
  split; [split |]; [| | split].
  - intros c [Hc | Hc]%Hwhich; rewrite Hcr; [apply Hsig in Hc | apply Hreg in Hc]; lia.
  - intros m c. rewrite Hrg, Hcr. intros [[_ <-] | [_ Hc]]%lookup_insert_Some; [lia |].
    apply Hreg in Hc. lia.
  - intros b [Hb | ->]%Hmem; rewrite Hcr; [apply Hall in Hb; lia | cbn; lia].
  - intros m c. rewrite Hrg. intros [[<- <-] | [Hne Hc]]%lookup_insert_Some.
    + split; [| split].
      * intros [Hin | Hin]%Hwhich; [apply Hsig in Hin | apply Hreg in Hin]; lia.
      * intros m'. intros [[<- _] | [_ Hc]]%lookup_insert_Some; [done |].
        apply Hreg in Hc. lia.
      * exists (attemptOf n (Home.controllersCreated pg)).
        split; [apply Hmem; by right | done].
    + destruct (Hlive m c Hc) as (Hnot & Hinj & b & Hb & Hbs & Hbc).
      split; [| split].
      * intros [Hin | Hin]%Hwhich; [done |]. apply Hne. by apply Hinj.
      * intros m'. intros [[_ <-] | [_ Hc']]%lookup_insert_Some.
        -- apply Hreg in Hc. lia.
        -- by apply Hinj.
      * exists b. split; [apply Hmem; by left | done].
Qed.

Lemma inStep_resume pg inFlight inFlight' a w pg' effs next :
  inStep pg inFlight ->
  Home.resume a w pg = (pg', effs, next) ->
  a ∈ inFlight ->
  (∀ b, b ∈ inFlight -> b ∈ inFlight' ∨ b = a) ->
  (∀ b, b ∈ inFlight' -> b ∈ inFlight ∨ next = Some b) ->
  (∀ b, next = Some b -> b ∈ inFlight') ->
  inStep pg' inFlight'.
Proof.
  intros ([Hsig Hreg] & Hall & Hlive) Hres Ha Hkeep Hfrom Hnext.
  assert (Home.abortedSignals pg' = Home.abortedSignals pg) as Hsame
    by (pose proof (resume_signals a w pg) as Hs; by rewrite Hres in Hs).
  destruct (resume_cases a w pg)
    as [(effs' & a' & Heq & Hsc & Hc & _) | Hret].
  - rewrite Heq in Hres. injection Hres as <- <- <-.
    split; [done |]. split.
    + intros b [Hb | [= <-]]%Hfrom; [by apply Hall |]. rewrite Hc. by apply Hall.
    + intros n c Hnc. destruct (Hlive n c Hnc) as (Hnot & Hinj & b & Hb & Hbs & Hbc).
      split; [done |]. split; [done |].
      destruct (Hkeep b Hb) as [Hb' | ->]; [by exists b |].
      exists a'. split; [by apply Hnext |]. by rewrite Hsc, Hc.
  - assert (next = None ∧ Home.controllersCreated pg' = Home.controllersCreated pg
            ∧ Home.abortControllers pg'
              = delete (Home.retriedScene a) (Home.abortControllers pg))
      as (-> & Hcr & Hrg).
    { destruct Hret as [[Heq _] | [(_ & ? & ? & Heq) | (_ & ? & ? & Heq)]];
        rewrite Heq in Hres; by injection Hres as <- <- <-. }
    split; [split |]; [| | split].
    + intros c. rewrite Hsame, Hcr. apply Hsig.
    + intros n c. rewrite Hrg, Hcr. intros [_ Hc]%lookup_delete_Some. by apply (Hreg n).
    + intros b [Hb | [=]]%Hfrom. rewrite Hcr. by apply Hall.
    + intros n c. rewrite Hrg, Hsame. intros [Hne Hnc]%lookup_delete_Some.
      destruct (Hlive n c Hnc) as (Hnot & Hinj & b & Hb & Hbs & Hbc).
      split; [done |]. split.
      * intros m. intros [_ Hm]%lookup_delete_Some. by apply Hinj.
      * exists b. split; [| done].
        destruct (Hkeep b Hb) as [Hb' | ->]; [done | by destruct Hne].
Qed.

Lemma registryInStep_step s s' : registryInStep s -> Session.step s s' -> registryInStep s'.
Proof.
  intros Hinv Hstep. destruct Hstep as
    [s n d pg effs next Hclick
    |s n pg effs next Hfailed Hcall
    |s before a after w d pg effs next Hsplit Hres
    |s before a after w pg effs next Hsplit Hres]; unfold registryInStep in *; cbn.
  - unfold VideosDisplay.handleRetryVideo in Hclick.
    case_bool_decide as Hn.
    { injection Hclick as <- <- <- <-. cbn. by rewrite app_nil_r. }
    pose proof (handleRetryVideo_cases n (Session.page s)) as Hcases.
    destruct (Home.handleRetryVideo n (Session.page s)) as [[pg1 effs1] [a|]] eqn:Hcall;
      injection Hclick as <- <- <- <-; cbn.
    + eapply inStep_start; [exact Hinv | exact Hcall |].
      intros b. rewrite !elem_of_app, list_elem_of_singleton. tauto.
    + rewrite app_nil_r. destruct Hcases as [[_ Hpg] | (? & _ & [=] & _)].
      cbn in Hpg. by subst pg1.
  - pose proof (handleRetryVideo_cases n (Session.page s)) as Hcases.
    rewrite Hcall in Hcases. destruct next as [a|]; cbn.
    + eapply inStep_start; [exact Hinv | exact Hcall |].
      intros b. rewrite !elem_of_app, list_elem_of_singleton. tauto.
    + rewrite app_nil_r. destruct Hcases as [[_ Hpg] | (? & _ & [=] & _)].
      cbn in Hpg. by subst pg.
  - unfold VideosDisplay.resumeRetry in Hres.
    destruct (Home.resume a w (Session.page s)) as [[pg1 effs1] next1] eqn:Hr.
    assert (pg = pg1 ∧ next = next1) as [-> ->]
      by (destruct next1; by injection Hres as <- <- <- <-).
    eapply inStep_resume; [exact Hinv | exact Hr | | | |]; rewrite ?Hsplit.
    + rewrite !elem_of_app, elem_of_cons. auto.
    + intros b. rewrite !elem_of_app, ?elem_of_cons. tauto.
    + intros b. rewrite !elem_of_app, ?elem_of_cons.
      destruct next1 as [a'|]; cbn; [rewrite list_elem_of_singleton |];
        intros [[Hb | [Hb | Hb]] | Hb]; subst; auto.
      by apply not_elem_of_nil in Hb.
    + intros b ->. cbn. rewrite !elem_of_app, elem_of_cons. auto.
  - eapply inStep_resume; [exact Hinv | exact Hres | | | |]; rewrite ?Hsplit.
    + rewrite !elem_of_app, elem_of_cons. auto.
    + intros b. rewrite !elem_of_app, ?elem_of_cons. tauto.
    + intros b. rewrite !elem_of_app, ?elem_of_cons.
      destruct next as [a'|]; cbn; [rewrite list_elem_of_singleton |];
        intros [Hb | [Hb | [Hb | Hb]]]; subst; auto.
      by apply not_elem_of_nil in Hb.
    + intros b ->. cbn. rewrite !elem_of_app, elem_of_cons. auto.
Qed.

(** The view shows a scene as retrying only while a retry started through
    it is in flight for that scene. *)
Lemma spinner_has_retry_step s s' :
  guarded s ->
  (∀ n, n ∈ VideosDisplay.retryingScenes (Session.view s) ->
        n ∈ map Home.retriedScene (Session.viaView s)) ->
  Session.step s s' ->
  ∀ n, n ∈ VideosDisplay.retryingScenes (Session.view s') ->
       n ∈ map Home.retriedScene (Session.viaView s').
Proof.
  intros [Hnd _] Hinv Hstep. destruct Hstep as
    [s n d pg effs next Hclick
    |s n pg effs next Hfailed Hcall
    |s before a after w d pg effs next Hsplit Hres
    |s before a after w pg effs next Hsplit Hres]; cbn; [| done | | done].
  - unfold VideosDisplay.handleRetryVideo in Hclick.
    case_bool_decide as Hn.
    { injection Hclick as <- <- <- <-. cbn. by rewrite app_nil_r. }
    destruct (Home.handleRetryVideo n (Session.page s)) as [[pg1 effs1] [a|]] eqn:Hcall;
      injection Hclick as <- <- <- <-; cbn.
    + apply handleRetryVideo_attempt in Hcall. subst a.
      intros m. rewrite map_app, elem_of_app. cbn.
      intros [Hm | ->%elem_of_singleton]%elem_of_union; [left; by apply Hinv |].
      right. by left.
    + rewrite app_nil_r. intros m [[Hm | Hm]%elem_of_union Hne]%elem_of_difference;
        [by apply Hinv | done].
  - unfold VideosDisplay.resumeRetry in Hres.
    pose proof (resume_same_scene a w (Session.page s)) as Hscene.
    destruct (Home.resume a w (Session.page s)) as [[pg1 effs1] [a'|]];
      injection Hres as <- <- <- <-; cbn.
    + specialize (Hscene a' eq_refl). intros m Hm. apply Hinv in Hm.
      rewrite Hsplit in Hm. rewrite !map_app in *. cbn in *. by rewrite Hscene.
    + intros m [Hm Hne]%elem_of_difference. apply Hinv in Hm.
      rewrite Hsplit in Hm. rewrite !map_app in *. cbn in *.
      rewrite elem_of_app, elem_of_cons in Hm. rewrite elem_of_app.
      destruct Hm as [Hm | [-> | Hm]]; [by left | | by right].
      destruct Hne. by apply elem_of_singleton.
Qed.
End Registry.

(** Started from a page with an empty registry, at every moment of a
    session every registered abort controller is live (its signal is not
    aborted) and belongs to a retry that is in flight for the scene it is
    registered under: aborting through the registry always reaches a
    running attempt of that scene. *)
Theorem registry_tracks_live_retries (pg : Home.State) (s : Session.Sys) :
  controllersKnown pg -> Home.abortControllers pg = ∅ ->
  Session.reachable pg s ->
  ∀ n c, Home.abortControllers (Session.page s) !! n = Some c ->
         (c ∉ Home.abortedSignals (Session.page s))
         ∧ ∃ a, a ∈ Session.viaView s ++ Session.direct s
                ∧ Home.retriedScene a = n ∧ Home.controller a = c.
Proof.
  intros Hknown Hempty Hreach.
  assert (registryInStep s) as (_ & _ & Hlive).
  { induction Hreach as [|s s' _ IH Hstep]; [| by eapply registryInStep_step].
    split; [done |]. split; [intros a Ha; by apply not_elem_of_nil in Ha |].
    intros n c Hc. cbn in Hc. by rewrite Hempty, lookup_empty in Hc. }
  intros n c Hc. destruct (Hlive n c Hc) as (Hnot & _ & Ha). by split.
Qed.

(** In every state of a session the view shows as retrying exactly the
    scenes that have a retry, started through the view, in flight: a
    spinner never outlives its retry, and there is one such retry per
    scene. *)
Theorem spinners_match_retries_in_flight (pg : Home.State) (s : Session.Sys) :
  Session.reachable pg s -> spinnersExact s.
Proof.
  intros Hreach. pose proof (guarded_reachable pg s Hreach) as [Hnd Hin].
  split; [done |]. intros n. split.
  - revert n. induction Hreach as [|s s' Hreach IH Hstep].
    + intros n Hn. cbn in Hn. by apply not_elem_of_empty in Hn.
    + pose proof (guarded_reachable pg s Hreach) as Hg. destruct Hg as [Hnd' Hin'].
      apply (spinner_has_retry_step s s'); [by split | | done].
      by apply IH.
  - intros (a & -> & Ha)%list_elem_of_fmap. by apply Hin.
Qed.

Lemma clicked_reachable n pg : Session.reachable pg (clicked n pg).
Proof.
  eapply Session.reachable_step; [apply Session.reachable_mounted |].
  unfold clicked.
  destruct (VideosDisplay.handleRetryVideo Home.handleRetryVideo n
              (Session.view (Session.mounted pg)) pg) as [d [[pg1 effs] next]] eqn:Hclick.
  by apply (Session.step_click (Session.mounted pg) n d pg1 effs next).
Qed.

Lemma registry_tracks_live_retries_witness :
  (0%nat ∉ Home.abortedSignals (Session.page (clicked 2 failedPage)))
  ∧ ∃ a, a ∈ Session.viaView (clicked 2 failedPage) ++ Session.direct (clicked 2 failedPage)
         ∧ Home.retriedScene a = 2%Z ∧ Home.controller a = 0%nat.
Proof.
  apply (registry_tracks_live_retries failedPage (clicked 2 failedPage)
           failedPage_known eq_refl (clicked_reachable 2 failedPage) 2 0).
  reflexivity.
Defined.

Lemma spinners_match_retries_in_flight_witness : spinnersExact (clicked 2 failedPage).
Proof.
  apply (spinners_match_retries_in_flight failedPage (clicked 2 failedPage)).
  apply clicked_reachable.
Defined.

(** ** The single-video flow: what a run leaves behind *)
Section VeoRun.
Import VeoGenerator.

Lemma filter_patchIf entry body :
  List.filter isTerminalPatch (patchIf entry body)
  = (if isTerminalPatch (PatchVideoHistory EmptyString body) then patchIf entry body else [])
  ∧ List.filter isToast (patchIf entry body) = [].
Proof. unfold patchIf. by destruct (JS.truthy entry), body. Qed.

Lemma pollLoop_exit w entry operation sid st fuel : ∀ attempts x,
  pollLoop fuel attempts w entry operation sid st = Some x -> leftFrom st entry x.
Proof.
  induction fuel as [|fuel IH]; intros attempts x; [done |].
  cbn [pollLoop]. destruct (attempts <? maxAttempts)%nat; [| by intros [= <-]].
  destruct (statusAt w (S attempts)) as [statusData | e]; [| by intros [= <-]].
  destruct (isSuccessStatus _).
  { intros [= <-]. eexists. split; [reflexivity |].
    cbn [List.filter isTerminalPatch isToast]. rewrite !List.filter_app.
    destruct (filter_patchIf entry (PatchCompleted (Home.videoUrlOf statusData)))
      as [-> ->].
    cbn. by rewrite app_nil_r. }
  destruct (isFailureStatus _); [by intros [= <-] |].
  destruct (pollLoop fuel (S attempts) w entry operation sid st) as [y|] eqn:Hy; [| done].
  cbn. intros [= <-]. specialize (IH _ _ Hy).
  destruct y as [st1 effs1 | e1 st1 effs1]; exact IH.
Qed.

Lemma settleExit_endsIdle entry x st pre :
  leftFrom st entry x -> error st = None -> videoUrl st = None ->
  List.filter isTerminalPatch pre = [] -> List.filter isToast pre = [] ->
  endsIdle entry st (settleExit entry (emitFirst pre x)).
Proof.
  intros Hx Herr Hurl Hpre Hpre'.
  destruct x as [st1 effs1 | e1 st1 effs1]; cbn in Hx |- *.
  - destruct Hx as (url & -> & Hp & Ht). unfold endsIdle, closingPatch. cbn.
    rewrite !List.filter_app, Hpre, Hpre', Hp, Ht, Herr. repeat split. by left.
  - destruct Hx as (-> & Hp & Ht). unfold endsIdle, closingPatch. cbn.
    rewrite !List.filter_app, Hpre, Hpre', Hp, Ht, Hurl.
    destruct (filter_patchIf entry PatchFailed) as [-> ->]. cbn.
    rewrite app_nil_r. repeat split. right. by eexists.
Qed.

Lemma trim_nonBlank (t : JS.Text) : JS.trim t = [] <-> nonBlank t = false.
Proof.
  rewrite <- trim_kept. destruct (JS.trim t); cbn; split; done.
Qed.

Lemma handleGenerate_endsIdle w st :
  nonBlank (prompt st) = true ->
  ∃ r, handleGenerate enoughFuel w st = Some r ∧ endsIdle (historyEntryOf w) st r.
Proof.
  intros Hsome. destruct (handleGenerate_returns w st) as (st' & effs & Hret & _).
  exists (st', effs). split; [done |].
  unfold handleGenerate in Hret.
  destruct (JS.trim (prompt st)) as [|c t] eqn:Htrim.
  { apply trim_nonBlank in Htrim. congruence. }
  fold (historyEntryOf w) in Hret.
  set (st0 := {| prompt := prompt st; aspectRatio := aspectRatio st;
                 isGenerating := true; videoUrl := None; error := None |}) in *.
  assert (∀ e, leftFrom st0 (historyEntryOf w) (Threw e st0 [])) as Hthrew by done.
  assert (∀ x pre, leftFrom st0 (historyEntryOf w) x ->
            List.filter isTerminalPatch pre = [] -> List.filter isToast pre = [] ->
            endsIdle (historyEntryOf w) st (settleExit (historyEntryOf w) (emitFirst pre x)))
    as Hend.
  { intros x pre Hx Hp Ht.
    by apply (settleExit_endsIdle (historyEntryOf w) x st0 pre). }
  destruct (generated w) as [[[] result] | e].
  - match type of Hret with context [pollLoop ?f ?k _ ?en ?op ?si ?s] =>
      pose proof (pollLoop_exit w en op si s f k) as Hexit;
      destruct (pollLoop f k w en op si s) as [x|]; [| done]
    end.
    injection Hret as Hret. rewrite <- Hret. apply Hend; [by apply Hexit | |];
      match goal with |- context [if ?b then _ else _] => by destruct b end.
  - injection Hret as <- <-.
    by apply (Hend (Threw (JS.ErrorObject
                             (JS.orElse (resultError result)
                                "Failed to start video generation")) st0 [])
                [PostVideoHistory (prompt st) (aspectRatio st);
                 PostGenerateVeoVideo (prompt st) (aspectRatio st)]).
  - injection Hret as <- <-.
    by apply (Hend (Threw e st0 [])
                [PostVideoHistory (prompt st) (aspectRatio st);
                 PostGenerateVeoVideo (prompt st) (aspectRatio st)]).
Qed.
End VeoRun.

(** A prompt that is empty or only white space is rejected with a toast:
    nothing is sent and the page is left as it is. Any other prompt starts
    a run, whose first two requests create the history entry and start
    the generation, both with the prompt exactly as typed. *)
Theorem veo_run_needs_a_prompt (fuel : nat) (w : VeoGenerator.World)
    (st : VeoGenerator.State) :
  (nonBlank (VeoGenerator.prompt st) = false ->
   VeoGenerator.handleGenerate fuel w st
   = Some (st, [VeoGenerator.Toast "Prompt required" "Please enter a video prompt" true]))
  ∧ (nonBlank (VeoGenerator.prompt st) = true ->
     ∀ st' effs, VeoGenerator.handleGenerate fuel w st = Some (st', effs) ->
       ∃ rest,
         effs = VeoGenerator.PostVideoHistory (VeoGenerator.prompt st)
                  (VeoGenerator.aspectRatio st)
                :: VeoGenerator.PostGenerateVeoVideo (VeoGenerator.prompt st)
                     (VeoGenerator.aspectRatio st)
                :: rest).
Proof.
  unfold VeoGenerator.handleGenerate. split.
  - intros Hblank. apply trim_nonBlank in Hblank. by rewrite Hblank.
  - intros Hsome st' effs.
    destruct (JS.trim (VeoGenerator.prompt st)) as [|c t] eqn:Htrim.
    { apply trim_nonBlank in Htrim. congruence. }
    destruct (VeoGenerator.generated w) as [[[] result] | e].
    + destruct (VeoGenerator.pollLoop _ _ _ _ _ _ _) as [x|]; [| done].
      cbn. destruct x; cbn; intros [= <- <-]; eauto.
    + cbn. intros [= <- <-]. eauto.
    + cbn. intros [= <- <-]. eauto.
Qed.

Lemma veo_run_needs_a_prompt_witness :
  VeoGenerator.handleGenerate VeoGenerator.enoughFuel veoPending
    (blankPrompt veoIdle)
  = Some (blankPrompt veoIdle,
          [VeoGenerator.Toast "Prompt required" "Please enter a video prompt" true])
  ∧ ∃ rest,
      (default (veoIdle, []) (VeoGenerator.handleGenerate VeoGenerator.enoughFuel
                                veoPending veoIdle)).2
      = VeoGenerator.PostVideoHistory (VeoGenerator.prompt veoIdle)
          (VeoGenerator.aspectRatio veoIdle)
        :: VeoGenerator.PostGenerateVeoVideo (VeoGenerator.prompt veoIdle)
             (VeoGenerator.aspectRatio veoIdle)
        :: rest.
Proof.
  split.
  - apply (veo_run_needs_a_prompt VeoGenerator.enoughFuel veoPending (blankPrompt veoIdle)).
    reflexivity.
  - apply (proj2 (veo_run_needs_a_prompt VeoGenerator.enoughFuel veoPending veoIdle)
             eq_refl
             (default (veoIdle, []) (VeoGenerator.handleGenerate VeoGenerator.enoughFuel
                                       veoPending veoIdle)).1).
    by vm_compute.
Defined.

(** Every run with a prompt comes to an end that leaves the page idle and
    consistent: the generating flag is off, the prompt is kept, and either
    no error is shown and the success toast was raised, or an error is
    shown, no video is shown, and the failure toast carries that same
    error. Exactly one toast is raised per run. *)
Theorem veo_run_ends_idle (w : VeoGenerator.World) (st : VeoGenerator.State) :
  nonBlank (VeoGenerator.prompt st) = true ->
  ∃ st' effs,
    VeoGenerator.handleGenerate VeoGenerator.enoughFuel w st = Some (st', effs)
    ∧ VeoGenerator.isGenerating st' = false
    ∧ VeoGenerator.prompt st' = VeoGenerator.prompt st
    ∧ ((VeoGenerator.error st' = None
        ∧ List.filter isToast effs
          = [VeoGenerator.Toast "Video generated!"
               "Your video is ready to watch and download." false])
       ∨ ∃ msg, VeoGenerator.error st' = Some msg
                ∧ VeoGenerator.videoUrl st' = None
                ∧ List.filter isToast effs
                  = [VeoGenerator.Toast "Generation failed" msg true]).
Proof.
  intros Hsome.
  destruct (handleGenerate_endsIdle w st Hsome) as ([st' effs] & Hret & Hidle & Hp & _ & Ht).
  by exists st', effs.
Qed.

Lemma veo_run_ends_idle_witness :
  ∃ st' effs,
    VeoGenerator.handleGenerate VeoGenerator.enoughFuel veoPending veoIdle
    = Some (st', effs)
    ∧ VeoGenerator.isGenerating st' = false
    ∧ VeoGenerator.prompt st' = VeoGenerator.prompt veoIdle
    ∧ ((VeoGenerator.error st' = None
        ∧ List.filter isToast effs
          = [VeoGenerator.Toast "Video generated!"
               "Your video is ready to watch and download." false])
       ∨ ∃ msg, VeoGenerator.error st' = Some msg
                ∧ VeoGenerator.videoUrl st' = None
                ∧ List.filter isToast effs
                  = [VeoGenerator.Toast "Generation failed" msg true]).
Proof. apply (veo_run_ends_idle veoPending veoIdle). reflexivity. Defined.



(** ** The bulk generator: the counter, the prompts sent, and the polling *)
Section BulkMore.
Import BulkPolling.

Lemma promptCount_promptLines (t : JS.Text) :
  promptCount t = length (BulkGenerator.promptLines t).
Proof.
  unfold promptCount, BulkGenerator.promptLines.
  induction (JS.split JS.newline t) as [|l ls IH]; [done |].
  cbn [map]. rewrite !filter_cons. case_decide; cbn [length]; by rewrite IH.
Qed.

Lemma trimStart_head (t : JS.Text) c rest :
  JS.trimStart t = c :: rest -> JS.isWhiteSpace c = false.
Proof.
  induction t as [|x t IH]; [done |]. cbn [JS.trimStart].
  destruct (JS.isWhiteSpace x) eqn:Hx; [done |]. by intros [= <- _].
Qed.

Lemma trimStart_suffix (t : JS.Text) : ∃ front, t = front ++ JS.trimStart t.
Proof.
  induction t as [|x t [front IH]]; [by exists [] |]. cbn [JS.trimStart].
  destruct (JS.isWhiteSpace x); [| by exists []].
  exists (x :: front). cbn. by rewrite <- IH.
Qed.

Lemma trim_trimmed (t : JS.Text) : trimmed (JS.trim t).
Proof.
  unfold trimmed, JS.trim. split.
  - intros c rest Heq. apply (f_equal (@rev _)) in Heq. rewrite rev_involutive in Heq.
    cbn [rev] in Heq.
    destruct (trimStart_suffix (rev (JS.trimStart t))) as [front Hfront].
    rewrite Heq in Hfront. apply (f_equal (@rev _)) in Hfront.
    rewrite rev_involutive, !rev_app_distr in Hfront. cbn in Hfront.
    by apply trimStart_head in Hfront.
  - intros c front Heq. apply (f_equal (@rev _)) in Heq. rewrite rev_involutive in Heq.
    rewrite rev_app_distr in Heq. cbn in Heq. by apply trimStart_head in Heq.
Qed.

Lemma elem_of_rev {A} (x : A) (l : list A) : x ∈ rev l <-> x ∈ l.
Proof. rewrite !list_elem_of_In. symmetry. apply in_rev. Qed.

Lemma trim_elements (t : JS.Text) x : x ∈ JS.trim t -> x ∈ t.
Proof.
  unfold JS.trim. rewrite elem_of_rev.
  destruct (trimStart_suffix (rev (JS.trimStart t))) as [front Hfront].
  intros Hin. assert (x ∈ rev (JS.trimStart t)) as Hx
    by (rewrite Hfront, elem_of_app; by right).
  rewrite elem_of_rev in Hx.
  destruct (trimStart_suffix t) as [front' Hfront'].
  rewrite Hfront', elem_of_app. by right.
Qed.

Lemma promptLines_clean (t : JS.Text) :
  Forall (fun line => line ≠ [] ∧ trimmed line ∧ JS.newline ∉ line)
    (BulkGenerator.promptLines t).
Proof.
  unfold BulkGenerator.promptLines. apply Forall_forall. intros line.
  rewrite list_elem_of_filter. intros [Hlen Hin].
  change (map JS.trim (JS.split JS.newline t)) with (JS.trim <$> JS.split JS.newline t) in Hin.
  apply list_elem_of_fmap in Hin as (piece & -> & Hpiece).
  split; [| split].
  - intros Heq. rewrite Heq in Hlen. cbn in Hlen. lia.
  - apply trim_trimmed.
  - intros Hnl%trim_elements.
    pose proof (split_pieces JS.newline t) as Hall.
    rewrite Forall_forall in Hall. by apply (Hall piece).
Qed.

Lemma updated_prompt v item :
  BulkGenerator.prompt (updated v item) = BulkGenerator.prompt item.
Proof. unfold updated. by repeat case_bool_decide. Qed.

(** The loop over the entry ids, item by item. *)
Lemma updateFrom_lookup videos ids : ∀ i progress j,
  updateFrom i ids videos progress !! j
  = (fun item =>
       if decide (i <= j)%nat then
         match historyOf videos ids (j - i) with
         | Some v => updated v item
         | None => item
         end
       else item) <$> progress !! j.
Proof.
  induction ids as [|entryId ids IH]; intros i progress j.
  { cbn [updateFrom]. unfold historyOf. rewrite lookup_nil.
    destruct (progress !! j); cbn; [by case_decide | done]. }
  cbn [updateFrom]. rewrite IH. unfold historyOf.
  destruct (decide (j = i)) as [-> | Hne].
  - replace (i - i)%nat with 0%nat by lia. cbn [lookup list_lookup].
    assert ((if JS.truthy entryId
             then match findVideo videos entryId with
                  | Some v => alter (updated v) i progress
                  | None => progress
                  end
             else progress) !! i
            = (fun item =>
                 match (if JS.truthy entryId then findVideo videos entryId else None) with
                 | Some v => updated v item
                 | None => item
                 end) <$> progress !! i) as ->.
    { destruct (JS.truthy entryId); [| by destruct (progress !! i)].
      destruct (findVideo videos entryId) as [v|]; [| by destruct (progress !! i)].
      by rewrite list_lookup_alter_eq. }
    destruct (progress !! i) as [item|]; [| done]. cbn.
    destruct (decide (S i <= i)%nat), (decide (i <= i)%nat); try lia. done.
  - assert ((if JS.truthy entryId
             then match findVideo videos entryId with
                  | Some v => alter (updated v) i progress
                  | None => progress
                  end
             else progress) !! j = progress !! j) as ->.
    { destruct (JS.truthy entryId); [| done].
      destruct (findVideo videos entryId); [| done].
      by rewrite list_lookup_alter_ne. }
    destruct (progress !! j) as [item|]; [| done]. cbn. f_equal.
    destruct (decide (S i <= j)%nat), (decide (i <= j)%nat); try lia; [| done].
    replace (j - i)%nat with (S (j - S i)) by lia. reflexivity.
Qed.

Lemma updateFrom_length videos ids : ∀ i progress,
  length (updateFrom i ids videos progress) = length progress.
Proof.
  induction ids as [|entryId ids IH]; intros i progress; [done |].
  cbn [updateFrom]. rewrite IH. destruct (JS.truthy entryId); [| done].
  destruct (findVideo videos entryId); [| done]. by rewrite length_alter.
Qed.

Lemma settleTick_failed r p : isOk r = false -> settleTick r p = p.
Proof. by destruct r as [[[] videos]|e]. Qed.

Lemma happens_stopped t e :
  stopped t ->
  stopped (happens t e)
  ∧ pollingAttempts (polling (happens t e)) = pollingAttempts (polling t).
Proof.
  intros [Hoff Hidle]. destruct e as [|r]; cbn [happens].
  - by rewrite Hoff.
  - destruct (underWay t) as [|k]; [done |]. cbn [polling].
    destruct r as [[[] videos]|e]; [| done..].
    unfold stopped. cbn. rewrite Hoff, Hidle. by destruct (_ || _).
Qed.

Lemma run_stopped events : ∀ t,
  stopped t ->
  stopped (run events t)
  ∧ pollingAttempts (polling (run events t)) = pollingAttempts (polling t).
Proof.
  induction events as [|e events IH]; intros t Hstop; [done |].
  unfold run in *. cbn [foldl].
  destruct (happens_stopped t e Hstop) as [Hstop' <-]. by apply IH.
Qed.

Lemma settleTick_lookup p videos k :
  BulkGenerator.generationProgress (page (settleTick (JS.Resolved (true, videos)) p)) !! k
  = (fun item =>
       match historyOf videos (historyEntryIds p) k with
       | Some v => updated v item
       | None => item
       end) <$> BulkGenerator.generationProgress (page p) !! k.
Proof.
  cbn [settleTick page BulkGenerator.generationProgress]. rewrite updateFrom_lookup.
  destruct (_ !! k) as [item|]; [| done]. cbn. rewrite decide_True by lia.
  by replace (k - 0)%nat with k by lia.
Qed.

Lemma resumeGenerate_polling r sent st p :
  (resumeGenerate r sent st).2 = Some p ->
  BulkGenerator.pollingInterval (page p) = true ∧ pollingAttempts p = 0%nat.
Proof.
  unfold resumeGenerate, startFailed.
  destruct r as [[[] body] | [m|]]; cbn; [| done..]. by intros [= <-].
Qed.

Lemma run_unanswered events : ∀ t,
  BulkGenerator.pollingInterval (page (polling t)) = true ->
  unanswered events ->
  polling (run events t)
  = {| page := page (polling t); historyEntryIds := historyEntryIds (polling t);
       pollingAttempts :=
         pollingAttempts (polling t) + length (List.filter isFires events) |}.
Proof.
  induction events as [|e events IH]; intros t Hon Hfail.
  { cbn. rewrite Nat.add_0_r. by destruct (polling t). }
  assert (unanswered events) as Hrest by (intros r Hr; apply Hfail; by right).
  unfold run in *. cbn [foldl]. destruct e as [|r]; cbn [happens List.filter isFires].
  - rewrite Hon, IH by done. cbn. f_equal. lia.
  - destruct (underWay t) as [|k]; [by apply IH |].
    assert (isOk r = false) as Hr by (apply Hfail; by left).
    rewrite IH; [| cbn [polling]; by rewrite settleTick_failed | done].
    cbn [polling]. by rewrite settleTick_failed.
Qed.

Lemma inTurn_fires rs : length (List.filter isFires (inTurn rs)) = length rs.
Proof.
  induction rs as [|r rs IH]; [done |].
  unfold inTurn in *. cbn [map concat app List.filter isFires length]. by rewrite IH.
Qed.

(** In turn, the counter is looked at after every period. *)
Lemma run_inTurn rs : ∀ t,
  underWay t = 0%nat ->
  Forall (fun answer => isOk answer = true) rs ->
  (maxPollingAttempts <= pollingAttempts (polling t) + length rs)%nat ->
  (stopped t ∧ (pollingAttempts (polling t) <= maxPollingAttempts)%nat)
  ∨ (BulkGenerator.pollingInterval (page (polling t)) = true
     ∧ (pollingAttempts (polling t) < maxPollingAttempts)%nat) ->
  stopped (run (inTurn rs) t)
  ∧ (pollingAttempts (polling (run (inTurn rs) t)) <= maxPollingAttempts)%nat.
Proof.
  induction rs as [|r rs IH]; intros t Hnone Hok Hlen Ht.
  { cbn. destruct Ht as [Hoff | [_ Hlt]]; [done |]. cbn in Hlen. lia. }
  apply Forall_cons in Hok as [Hr Hok].
  destruct Ht as [[Hstop Hle] | [Hon Hlt]].
  { destruct (run_stopped (inTurn (r :: rs)) t Hstop) as [Hstop' ->]. by split. }
  unfold inTurn, run in *. cbn [map concat app foldl]. cbn [happens].
  rewrite Hon. cbn [underWay polling].
  destruct r as [[[] videos]|e]; [| done..].
  apply IH; [done | done | cbn in *; lia |].
  unfold stopped.
  cbn [settleTick tick page polling pollingAttempts BulkGenerator.pollingInterval
       BulkGenerator.isGenerating historyEntryIds].
  destruct (allDone (historyEntryIds (polling t)) videos); cbn [orb].
  - left. split; [done | lia].
  - destruct (Nat.leb_spec maxPollingAttempts (S (pollingAttempts (polling t)))).
    + left. split; [done | lia].
    + right. split; [done | lia].
Qed.
End BulkMore.

(** The counter beside the prompt box counts exactly the prompts a click
    would send, so an enabled generate button is never refused: the click
    sends one request with as many prompts as the counter shows, between 1
    and 200, and the progress list gets one entry per prompt. *)
Theorem bulk_enabled_button_is_accepted (st : BulkGenerator.State) :
  BulkPolling.promptCount (BulkGenerator.prompts st)
  = length (BulkGenerator.promptLines (BulkGenerator.prompts st))
  ∧ (BulkPolling.generateDisabled st = false ->
     (1 <= BulkPolling.promptCount (BulkGenerator.prompts st) <= 200)%nat
     ∧ ∃ lines,
         (BulkGenerator.handleGenerate st).2
         = [BulkGenerator.PostBulkGenerate lines (BulkGenerator.aspectRatio st)]
         ∧ length lines = BulkPolling.promptCount (BulkGenerator.prompts st)
         ∧ BulkGenerator.isGenerating (BulkGenerator.handleGenerate st).1 = true
         ∧ length (BulkGenerator.generationProgress (BulkGenerator.handleGenerate st).1)
           = BulkPolling.promptCount (BulkGenerator.prompts st)).
Proof.
  split; [apply promptCount_promptLines |].
  unfold BulkPolling.generateDisabled. rewrite promptCount_promptLines.
  intros [[_ Hzero]%orb_false_elim Hmany]%orb_false_elim.
  apply bool_decide_eq_false in Hzero. apply Nat.ltb_ge in Hmany.
  split; [lia |]. unfold BulkGenerator.handleGenerate.
  rewrite bool_decide_eq_false_2 by done.
  destruct (Nat.ltb_spec 200 (length (BulkGenerator.promptLines (BulkGenerator.prompts st))));
    [lia |].
  eexists. split; [reflexivity |]. cbn [fst BulkGenerator.isGenerating
    BulkGenerator.generationProgress]. by rewrite length_map.
Qed.

Lemma bulk_enabled_button_is_accepted_witness :
  (1 <= BulkPolling.promptCount (BulkGenerator.prompts (bulkForm "a cat")) <= 200)%nat
  ∧ ∃ lines,
      (BulkGenerator.handleGenerate (bulkForm "a cat")).2
      = [BulkGenerator.PostBulkGenerate lines (BulkGenerator.aspectRatio (bulkForm "a cat"))]
      ∧ length lines = BulkPolling.promptCount (BulkGenerator.prompts (bulkForm "a cat"))
      ∧ BulkGenerator.isGenerating (BulkGenerator.handleGenerate (bulkForm "a cat")).1 = true
      ∧ length (BulkGenerator.generationProgress
                  (BulkGenerator.handleGenerate (bulkForm "a cat")).1)
        = BulkPolling.promptCount (BulkGenerator.prompts (bulkForm "a cat")).
Proof.
  apply (proj2 (bulk_enabled_button_is_accepted (bulkForm "a cat"))). by vm_compute.
Defined.

(** Every prompt of a bulk request is clean: it is not empty, it neither
    starts nor ends with white space, and it contains no newline; and the
    progress list shows the prompts of the request, in the same order. *)
Theorem bulk_prompts_sent_are_clean (st : BulkGenerator.State) (lines : list JS.Text)
    (ratio : string) :
  BulkGenerator.PostBulkGenerate lines ratio ∈ (BulkGenerator.handleGenerate st).2 ->
  Forall (fun line => line ≠ [] ∧ trimmed line ∧ JS.newline ∉ line) lines
  ∧ map BulkGenerator.prompt
      (BulkGenerator.generationProgress (BulkGenerator.handleGenerate st).1) = lines.
Proof.
  unfold BulkGenerator.handleGenerate. case_bool_decide.
  { cbn [snd]. intros [Heq | Hin%not_elem_of_nil]%elem_of_cons; done. }
  destruct (200 <? _)%nat.
  { cbn [snd]. intros [Heq | Hin%not_elem_of_nil]%elem_of_cons; done. }
  cbn [fst snd BulkGenerator.generationProgress].
  intros [[= -> _] | Hin%not_elem_of_nil]%elem_of_cons; [| done].
  split; [apply promptLines_clean |]. rewrite map_map. cbn. apply map_id.
Qed.

Lemma bulk_prompts_sent_are_clean_witness :
  Forall (fun line => line ≠ [] ∧ trimmed line ∧ JS.newline ∉ line)
    [JS.text "a cat"; JS.text "a dog"]
  ∧ map BulkGenerator.prompt
      (BulkGenerator.generationProgress
         (BulkGenerator.handleGenerate twoPrompts).1)
    = [JS.text "a cat"; JS.text "a dog"].
Proof.
  apply (bulk_prompts_sent_are_clean twoPrompts [JS.text "a cat"; JS.text "a dog"] "landscape").
  vm_compute. by left.
Defined.

(** When the history is read, the progress item at an index is updated
    from the history record of the entry id at the same index, and from
    nothing else: items are not added, removed or moved, items without an
    entry id or without a record stay as they are, and prompts are kept. *)
Theorem bulk_poll_updates_each_item_from_its_record (p : BulkPolling.Polling)
    (videos : list BulkPolling.HistoryVideo) (j : nat) :
  let progress' :=
    BulkGenerator.generationProgress
      (BulkPolling.page (BulkPolling.settleTick (JS.Resolved (true, videos)) p)) in
  progress' !! j
  = (fun item =>
       match historyOf videos (BulkPolling.historyEntryIds p) j with
       | Some v => BulkPolling.updated v item
       | None => item
       end) <$> BulkGenerator.generationProgress (BulkPolling.page p) !! j
  ∧ map BulkGenerator.prompt progress'
    = map BulkGenerator.prompt (BulkGenerator.generationProgress (BulkPolling.page p)).
Proof.
  cbv zeta. split; [apply settleTick_lookup |].
  apply list_eq. intros k.
  change (map BulkGenerator.prompt) with (fmap (M := list) BulkGenerator.prompt).
  rewrite !list_lookup_fmap, settleTick_lookup.
  destruct (_ !! k) as [item|]; [| done]. cbn. f_equal.
  destruct (historyOf _ _ _); [apply updated_prompt | done].
Qed.

(** Once the history reports every entry as completed or failed, the read
    leaves every tracked item completed or failed, clears the interval and
    turns the generating flag off. *)
Theorem bulk_all_done_settles_tracked_items (p : BulkPolling.Polling)
    (videos : list BulkPolling.HistoryVideo) (j : nat) (entryId : option string)
    (item : BulkGenerator.VideoGenerationStatus) :
  BulkPolling.allDone (BulkPolling.historyEntryIds p) videos = true ->
  BulkPolling.historyEntryIds p !! j = Some entryId -> JS.truthy entryId = true ->
  BulkGenerator.generationProgress
    (BulkPolling.page (BulkPolling.settleTick (JS.Resolved (true, videos)) p)) !! j
  = Some item ->
  settledItem item
  ∧ BulkGenerator.pollingInterval
      (BulkPolling.page (BulkPolling.settleTick (JS.Resolved (true, videos)) p)) = false
  ∧ BulkGenerator.isGenerating
      (BulkPolling.page (BulkPolling.settleTick (JS.Resolved (true, videos)) p)) = false.
Proof.
  intros Hdone Hid Htruthy Hitem. rewrite settleTick_lookup in Hitem.
  split; [| by cbn; rewrite Hdone].
  unfold BulkPolling.allDone in Hdone. apply andb_prop in Hdone as [_ Hall].
  rewrite forallb_forall in Hall.
  assert (BulkPolling.settledInHistory videos entryId = true) as Hsettled.
  { apply Hall. apply list_elem_of_In. by eapply list_elem_of_lookup_2. }
  unfold BulkPolling.settledInHistory in Hsettled. unfold historyOf in Hitem.
  rewrite Hid, Htruthy in *.
  destruct (BulkPolling.findVideo videos entryId) as [v|]; [| done].
  destruct (BulkGenerator.generationProgress (BulkPolling.page p) !! j) as [item0|];
    [| done].
  cbn in Hitem. injection Hitem as <-.
  unfold settledItem, BulkPolling.updated.
  apply orb_prop in Hsettled as [Hc%bool_decide_eq_true | Hf%bool_decide_eq_true].
  - rewrite bool_decide_eq_true_2 by done. by left.
  - case_bool_decide; [by left |]. rewrite bool_decide_eq_true_2 by done. by right.
Qed.

Lemma bulk_all_done_settles_tracked_items_witness :
  settledItem
    {| BulkGenerator.prompt := JS.text "a cat"; BulkGenerator.status := "completed";
       BulkGenerator.videoUrl := Some "/videos/v1.mp4"; BulkGenerator.error := None;
       BulkGenerator.tokenLabel := None |}
  ∧ BulkGenerator.pollingInterval
      (BulkPolling.page (BulkPolling.settleTick (JS.Resolved (true, oneDone)) polling))
    = false
  ∧ BulkGenerator.isGenerating
      (BulkPolling.page (BulkPolling.settleTick (JS.Resolved (true, oneDone)) polling))
    = false.
Proof.
  by apply (bulk_all_done_settles_tracked_items polling oneDone 0 (Some "v1")).
Defined.

(** The polling of a started generation ends at the first list of the
    history that arrives once 600 periods have been counted: the interval
    is then cleared and the generating flag turned off for good, and no
    further period is counted, whatever arrives later. When every history
    request is answered before the next period ends, this happens within
    600 periods. *)
Theorem bulk_polling_stops_within_limit
    (r : JS.Settled (bool * BulkPolling.BulkResponse)) (sent : nat)
    (st : BulkGenerator.State) (p : BulkPolling.Polling) :
  (BulkPolling.resumeGenerate r sent st).2 = Some p ->
  (∀ before videos after,
     (0 < BulkPolling.underWay (BulkPolling.run before (BulkPolling.atStart p)))%nat ->
     (BulkPolling.maxPollingAttempts
      <= BulkPolling.pollingAttempts
           (BulkPolling.polling (BulkPolling.run before (BulkPolling.atStart p))))%nat ->
     stopped (BulkPolling.run
                (before ++ BulkPolling.Settles (JS.Resolved (true, videos)) :: after)
                (BulkPolling.atStart p))
     ∧ BulkPolling.pollingAttempts
         (BulkPolling.polling
            (BulkPolling.run
               (before ++ BulkPolling.Settles (JS.Resolved (true, videos)) :: after)
               (BulkPolling.atStart p)))
       = BulkPolling.pollingAttempts
           (BulkPolling.polling (BulkPolling.run before (BulkPolling.atStart p))))
  ∧ (∀ rs,
       Forall (fun answer => isOk answer = true) rs ->
       (BulkPolling.maxPollingAttempts <= length rs)%nat ->
       stopped (BulkPolling.run (inTurn rs) (BulkPolling.atStart p))
       ∧ (BulkPolling.pollingAttempts
            (BulkPolling.polling (BulkPolling.run (inTurn rs) (BulkPolling.atStart p)))
          <= BulkPolling.maxPollingAttempts)%nat).
Proof.
  intros Hstart. destruct (resumeGenerate_polling r sent st p Hstart) as [Hon Hzero].
  split.
  - intros before videos after Hway Hmany.
    assert (∀ e t0, BulkPolling.run (before ++ e :: after) t0
                    = BulkPolling.run after (BulkPolling.happens (BulkPolling.run before t0) e))
      as Happ by (intros e t0; unfold BulkPolling.run; by rewrite foldl_app).
    rewrite !Happ.
    set (t := BulkPolling.run before (BulkPolling.atStart p)) in *.
    assert (stopped (BulkPolling.happens t (BulkPolling.Settles (JS.Resolved (true, videos))))
            ∧ BulkPolling.pollingAttempts
                (BulkPolling.polling
                   (BulkPolling.happens t (BulkPolling.Settles (JS.Resolved (true, videos)))))
              = BulkPolling.pollingAttempts (BulkPolling.polling t)) as [Hstop <-].
    { cbn [BulkPolling.happens]. destruct (BulkPolling.underWay t) as [|k]; [lia |].
      unfold stopped.
      cbn [BulkPolling.settleTick BulkPolling.polling BulkPolling.page
           BulkGenerator.pollingInterval BulkGenerator.isGenerating
           BulkPolling.pollingAttempts].
      apply Nat.leb_le in Hmany. by rewrite Hmany, orb_true_r. }
    exact (run_stopped after _ Hstop).
  - intros rs Hok Hlen. apply run_inTurn; [done | done | cbn; lia |].
    right. split; [done |]. cbn. rewrite Hzero. unfold BulkPolling.maxPollingAttempts. lia.
Qed.

Lemma bulk_polling_stops_within_limit_witness :
  (stopped
     (BulkPolling.run
        (replicate BulkPolling.maxPollingAttempts BulkPolling.Fires
         ++ BulkPolling.Settles (JS.Resolved (true, [])) :: [BulkPolling.Fires])
        (BulkPolling.atStart polling))
   ∧ BulkPolling.pollingAttempts
       (BulkPolling.polling
          (BulkPolling.run
             (replicate BulkPolling.maxPollingAttempts BulkPolling.Fires
              ++ BulkPolling.Settles (JS.Resolved (true, [])) :: [BulkPolling.Fires])
             (BulkPolling.atStart polling)))
     = BulkPolling.pollingAttempts
         (BulkPolling.polling
            (BulkPolling.run (replicate BulkPolling.maxPollingAttempts BulkPolling.Fires)
               (BulkPolling.atStart polling))))
  ∧ stopped
      (BulkPolling.run
         (inTurn (replicate BulkPolling.maxPollingAttempts (JS.Resolved (true, []))))
         (BulkPolling.atStart polling))
  ∧ (BulkPolling.pollingAttempts
       (BulkPolling.polling
          (BulkPolling.run
             (inTurn (replicate BulkPolling.maxPollingAttempts (JS.Resolved (true, []))))
             (BulkPolling.atStart polling)))
     <= BulkPolling.maxPollingAttempts)%nat.
Proof.
  destruct (bulk_polling_stops_within_limit started 1 (BulkPolling.page polling) polling
              eq_refl) as [Hlate Hturn].
  split.
  - apply (Hlate (replicate BulkPolling.maxPollingAttempts BulkPolling.Fires) []
             [BulkPolling.Fires]); vm_compute; lia.
  - apply Hturn.
    + apply Forall_forall. by intros answer [-> _]%elem_of_replicate.
    + by rewrite length_replicate.
Defined.

(** The limit of 600 periods is only looked at when the history endpoint
    answers with a list: while its requests fail or are still under way,
    the polling goes on for any number of periods, whatever the order of
    periods and answers, with the progress list and the generating flag
    as they were, and every period is counted: as many periods as
    answers when each answer comes before the next period ends. *)
Theorem bulk_failed_answers_never_stop_polling
    (r : JS.Settled (bool * BulkPolling.BulkResponse)) (sent : nat)
    (st : BulkGenerator.State) (p : BulkPolling.Polling)
    (events : list BulkPolling.Event) :
  (BulkPolling.resumeGenerate r sent st).2 = Some p ->
  unanswered events ->
  BulkPolling.polling (BulkPolling.run events (BulkPolling.atStart p))
  = {| BulkPolling.page := BulkPolling.page p;
       BulkPolling.historyEntryIds := BulkPolling.historyEntryIds p;
       BulkPolling.pollingAttempts := length (List.filter isFires events) |}
  ∧ BulkGenerator.pollingInterval
      (BulkPolling.page (BulkPolling.polling (BulkPolling.run events (BulkPolling.atStart p))))
    = true
  ∧ (∀ rs, events = inTurn rs ->
       BulkPolling.pollingAttempts
         (BulkPolling.polling (BulkPolling.run events (BulkPolling.atStart p)))
       = length rs).
Proof.
  intros Hstart Hfail.
  destruct (resumeGenerate_polling r sent st p Hstart) as [Hon Hzero].
  rewrite (run_unanswered events (BulkPolling.atStart p) Hon Hfail).
  cbn [BulkPolling.atStart BulkPolling.polling]. rewrite Hzero.
  split; [by cbn |]. split; [done |].
  intros rs ->. cbn [BulkPolling.pollingAttempts]. by rewrite inTurn_fires.
Qed.

Lemma bulk_failed_answers_never_stop_polling_witness :
  BulkPolling.polling
    (BulkPolling.run (inTurn (replicate 1000 (JS.Resolved (false, []))))
       (BulkPolling.atStart polling))
  = {| BulkPolling.page := BulkPolling.page polling;
       BulkPolling.historyEntryIds := BulkPolling.historyEntryIds polling;
       BulkPolling.pollingAttempts :=
         length (List.filter isFires
                   (inTurn (replicate 1000
                              (JS.Resolved (false, @nil BulkPolling.HistoryVideo))))) |}
  ∧ BulkGenerator.pollingInterval
      (BulkPolling.page
         (BulkPolling.polling
            (BulkPolling.run (inTurn (replicate 1000 (JS.Resolved (false, []))))
               (BulkPolling.atStart polling))))
    = true
  ∧ BulkPolling.pollingAttempts
      (BulkPolling.polling
         (BulkPolling.run (inTurn (replicate 1000 (JS.Resolved (false, []))))
            (BulkPolling.atStart polling)))
    = 1000%nat.
Proof.
  destruct (bulk_failed_answers_never_stop_polling started 1 (BulkPolling.page polling)
              polling (inTurn (replicate 1000 (JS.Resolved (false, [])))))
    as (Hsame & Hon & Hcount); [| | split; [exact Hsame | split; [exact Hon |]]].
  3:{ rewrite (Hcount (replicate 1000 (JS.Resolved (false, []))) eq_refl).
      apply length_replicate. }
  - reflexivity.
  - intros r Hr. unfold inTurn in Hr. apply list_elem_of_In, in_concat in Hr
      as (pair & Hpair & Hin).
    apply in_map_iff in Hpair as (answer & <- & Hanswer).
    apply list_elem_of_In, elem_of_replicate in Hanswer as [-> _].
    destruct Hin as [[=] | [[= <-] | []]]. reflexivity.
Defined.

(** ** The history view: what reaches the merge endpoints *)
Section HistoryMore.
Import History.

Lemma toggle_wellSelected log v st :
  wellSelected log (selectedVideos st) ->
  wellSelected (v :: log) (selectedVideos (onCheckedChange v st).1).
Proof.
  intros (Hc0 & Hnd & Hlen).
  assert (onlyCompleted (v :: log) (selectedVideos st)) as Hc.
  { intros x Hx. destruct (Hc0 x Hx) as (w & Hw & Hid). exists w. split; [by right | done]. }
  assert (v ∈ v :: log) as Hin by (by left).
  unfold onCheckedChange, handleVideoSelect.
  case_bool_decide as Hst; cbn [negb]; [| done].
  destruct (has (id v) (selectedVideos st)) eqn:Hhas.
  - cbn [fst setSelectedVideos selectedVideos]. split; [| split].
    + intros x Hx. apply delete_spec in Hx. apply Hc. tauto.
    + by apply delete_NoDup.
    + pose proof (delete_length (id v) (selectedVideos st)). lia.
  - apply has_false in Hhas.
    destruct (Nat.leb_spec 19 (length (selectedVideos st))) as [Hfull | Hroom]; [done |].
    cbn [fst setSelectedVideos selectedVideos]. rewrite add_fresh by done.
    split; [| split].
    + intros x [Hx | ->%list_elem_of_singleton]%elem_of_app; [by apply Hc | eauto].
    + apply NoDup_app. split; [done |]. split; [| apply NoDup_singleton].
      intros x Hx ->%list_elem_of_singleton. done.
    + rewrite length_app. cbn [length]. lia.
Qed.

Lemma selecting_wellSelected log st :
  HistorySelection.selecting log st -> wellSelected log (selectedVideos st).
Proof.
  assert (∀ videos, wellSelected videos []) as Hnil.
  { intros videos. split; [intros x Hx; by apply not_elem_of_nil in Hx |].
    split; [constructor | cbn; lia]. }
  induction 1 as [st Hempty | log st v _ IH | log st _ IH | log st r sent _ IH].
  - by rewrite Hempty.
  - by apply toggle_wellSelected.
  - unfold handleMergeSelected. by destruct (_ <? 2)%nat.
  - unfold HistorySelection.resumeMergeSelected.
    destruct r as [[[] result] | e]; done.
Qed.

Lemma byScene_byKey : byScene = byKey sceneOf.
Proof. reflexivity. Qed.

Lemma imap_scenes {A} (f : A -> option string) (l : list A) : ∀ k,
  map entryScene (imap (fun idx v => {| entryScene := Z.of_nat (k + idx) + 1;
                                        entryUrl := f v |}) l)
  = map (fun i => (Z.of_nat i + 1)%Z) (seq k (length l)).
Proof.
  induction l as [|x l IH]; intros k; [done |].
  cbn [imap map length seq entryScene]. rewrite Nat.add_0_r. f_equal.
  rewrite <- (IH (S k)). f_equal. apply imap_ext. intros i y _. cbn.
  by replace (k + S i)%nat with (S k + i)%nat by lia.
Qed.
End HistoryMore.

(** However the checkboxes were toggled and whatever merges were made
    before, a request to merge the selected videos carries between 2 and
    19 ids, each once, each the id of a card whose checkbox was toggled
    while the card showed a completed video. The list of videos may have
    been fetched again since, so nothing is said of the status the video
    has when the request leaves. *)
Theorem merge_selected_request_is_well_formed (log : list History.VideoHistory)
    (st : History.State) (ids : list string) :
  HistorySelection.selecting log st ->
  History.PostMergeSelected ids ∈ (History.handleMergeSelected st).1.2 ->
  (2 <= length ids <= 19)%nat ∧ NoDup ids ∧ onlyCompleted log ids.
Proof.
  intros (Hc & Hnd & Hlen)%selecting_wellSelected. unfold History.handleMergeSelected.
  destruct (Nat.ltb_spec (length (History.selectedVideos st)) 2) as [Hfew | Hmany];
    cbn [fst snd].
  - intros [Heq | Hin%not_elem_of_nil]%elem_of_cons; done.
  - intros [[= ->] | Hin%not_elem_of_nil]%elem_of_cons; [| done].
    split; [lia | done].
Qed.

Lemma merge_selected_request_is_well_formed_witness :
  (2 <= length ["a"; "b"] <= 19)%nat ∧ NoDup ["a"; "b"]
  ∧ onlyCompleted [untitled "b" "b.mp4"; untitled "a" "a.mp4"] ["a"; "b"].
Proof.
  apply (merge_selected_request_is_well_formed
           [untitled "b" "b.mp4"; untitled "a" "a.mp4"] bothSelected ["a"; "b"]).
  - unfold bothSelected.
    apply HistorySelection.selecting_toggle.
    apply HistorySelection.selecting_toggle.
    by apply HistorySelection.selecting_start.
  - vm_compute. by left.
Defined.

(** A request to merge the videos of a project carries at least two
    entries, numbered 1, 2, 3, ... in payload order, every one with a
    non-empty video URL, and their URLs are exactly those of the project's
    completed videos that have one. *)
Theorem history_merge_payload_is_numbered (projectKey : string)
    (videos : list History.VideoHistory) (projectId : option string)
    (st : History.State) (payload : list History.MergeEntry) (pid : option string) :
  History.PostMergeVideos payload pid
    ∈ (History.handleMergeVideos projectKey videos projectId st).1.2 ->
  (2 <= length payload)%nat
  ∧ map History.entryScene payload
    = map (fun i => (Z.of_nat i + 1)%Z) (seq 0 (length payload))
  ∧ Forall (fun e => JS.truthy (History.entryUrl e) = true) payload
  ∧ map History.entryUrl payload
    ≡ₚ map History.videoUrl (History.completedVideos videos).
Proof.
  unfold History.handleMergeVideos.
  destruct (Nat.ltb_spec (length (History.completedVideos videos)) 2) as [Hfew | Hmany];
    cbn [fst snd].
  { intros [Heq | Hin%not_elem_of_nil]%elem_of_cons; done. }
  intros [[= -> _] | Hin%not_elem_of_nil]%elem_of_cons; [| done].
  unfold History.mergePayload. rewrite byScene_byKey.
  pose proof (sort_perm History.sceneOf (History.completedVideos videos)) as Hperm.
  assert (map History.entryUrl
            (imap (fun idx v => {| History.entryScene := Z.of_nat idx + 1;
                                   History.entryUrl := History.videoUrl v |})
               (JS.sort (byKey History.sceneOf) (History.completedVideos videos)))
          = map History.videoUrl
              (JS.sort (byKey History.sceneOf) (History.completedVideos videos)))
    as Hurls by (by apply imap_project).
  split; [| split; [| split]].
  - rewrite length_imap, Hperm. done.
  - rewrite length_imap. apply (imap_scenes History.videoUrl _ 0).
  - apply Forall_forall. intros e He.
    assert (History.entryUrl e
            ∈ map History.videoUrl (History.completedVideos videos)) as Hin.
    { rewrite <- Hperm, <- Hurls. by apply list_elem_of_fmap_2. }
    apply list_elem_of_fmap in Hin as (v & -> & Hv).
    unfold History.completedVideos in Hv. apply list_elem_of_filter in Hv. tauto.
  - rewrite Hurls. by apply fmap_Permutation.
Qed.

Lemma history_merge_payload_is_numbered_witness :
  (2 <= length (History.mergePayload [untitled "a" "a.mp4"; untitled "b" "b.mp4"]))%nat
  ∧ map History.entryScene (History.mergePayload [untitled "a" "a.mp4"; untitled "b" "b.mp4"])
    = map (fun i => (Z.of_nat i + 1)%Z)
        (seq 0 (length (History.mergePayload [untitled "a" "a.mp4"; untitled "b" "b.mp4"])))
  ∧ Forall (fun e => JS.truthy (History.entryUrl e) = true)
      (History.mergePayload [untitled "a" "a.mp4"; untitled "b" "b.mp4"])
  ∧ map History.entryUrl (History.mergePayload [untitled "a" "a.mp4"; untitled "b" "b.mp4"])
    ≡ₚ map History.videoUrl
         (History.completedVideos [untitled "a" "a.mp4"; untitled "b" "b.mp4"]).
Proof.
  apply (history_merge_payload_is_numbered "project"
           [untitled "a" "a.mp4"; untitled "b" "b.mp4"] None nothingSelected
           (History.mergePayload [untitled "a" "a.mp4"; untitled "b" "b.mp4"]) None).
  vm_compute. by left.
Defined.

(** ** The scene card: reading the sections of a description *)
Section Sections.
Import SceneCard.

Lemma startsWith_head c p line :
  JS.startsWith (c :: p) line = true -> ∃ rest, line = c :: rest.
Proof.
  destruct line as [|x line]; [done |]. cbn [JS.startsWith].
  intros [Hx _]%andb_prop. apply bool_decide_eq_true in Hx. subst. by eexists.
Qed.

(** A line names at most one section, so the chain of tests reads, for
    each section, its own key only. *)
Lemma readLine_field k sections line :
  field k (readLine sections line)
  = if JS.startsWith (keyText k) line then valueAfter (keyText k) line
    else field k sections.
Proof.
  unfold readLine.
  destruct (JS.startsWith (JS.text "visuals:") line) eqn:Hv.
  { destruct (startsWith_head _ _ _ Hv) as [rest Hrest].
    destruct k; cbn [keyText field]; rewrite ?Hv; try reflexivity; subst line;
      by vm_compute. }
  destruct (JS.startsWith (JS.text "dialogue_action:") line) eqn:Hd.
  { destruct (startsWith_head _ _ _ Hd) as [rest Hrest].
    destruct k; cbn [keyText field]; rewrite ?Hd; try reflexivity; subst line;
      by vm_compute. }
  destruct (JS.startsWith (JS.text "music:") line) eqn:Hm.
  { destruct (startsWith_head _ _ _ Hm) as [rest Hrest].
    destruct k; cbn [keyText field]; rewrite ?Hm; try reflexivity; subst line;
      by vm_compute. }
  destruct (JS.startsWith (JS.text "sound_effects:") line) eqn:Hs.
  { destruct (startsWith_head _ _ _ Hs) as [rest Hrest].
    destruct k; cbn [keyText field]; rewrite ?Hs; try reflexivity; subst line;
      by vm_compute. }
  destruct (JS.startsWith (JS.text "transition:") line) eqn:Ht.
  { destruct (startsWith_head _ _ _ Ht) as [rest Hrest].
    destruct k; cbn [keyText field]; rewrite ?Ht; try reflexivity; subst line;
      by vm_compute. }
  destruct k; cbn [keyText field]; by rewrite ?Hv, ?Hd, ?Hm, ?Hs, ?Ht.
Qed.

Lemma readLines_unnamed k lines : ∀ sections,
  Forall (fun line => JS.startsWith (keyText k) line = false) lines ->
  field k (foldl readLine sections lines) = field k sections.
Proof.
  induction lines as [|line lines IH]; intros sections Hall; [done |].
  apply Forall_cons in Hall as [Hline Hall]. cbn [foldl].
  by rewrite IH, readLine_field, Hline.
Qed.

Lemma readLines_trimmed k lines : ∀ sections,
  trimmed (field k sections) -> trimmed (field k (foldl readLine sections lines)).
Proof.
  induction lines as [|line lines IH]; intros sections Htrim; [done |].
  cbn [foldl]. apply IH. rewrite readLine_field.
  destruct (JS.startsWith (keyText k) line); [apply trim_trimmed | done].
Qed.
End Sections.

(** Every section read from a scene description is trimmed: it neither
    starts nor ends with white space, whatever the description is. *)
Theorem scene_sections_are_trimmed (k : SectionKey) (description : JS.Text) :
  trimmed (field k (SceneCard.parseDescription description)).
Proof.
  apply readLines_trimmed. destruct k; by split; intros c [|? ?].
Qed.

(** A section shows the text after the key on the last line that starts
    with that key, trimmed; lines that start with no key, and earlier
    lines of the same key, do not count, and a section no line names is
    empty. *)
Theorem scene_section_is_read_from_its_last_line (k : SectionKey)
    (description : JS.Text) :
  (Forall (fun line => JS.startsWith (keyText k) line = false)
     (JS.split JS.newline description) ->
   field k (SceneCard.parseDescription description) = [])
  ∧ ∀ front line back,
      JS.split JS.newline description = front ++ line :: back ->
      JS.startsWith (keyText k) line = true ->
      Forall (fun later => JS.startsWith (keyText k) later = false) back ->
      field k (SceneCard.parseDescription description)
      = JS.trim (drop (length (keyText k)) line).
Proof.
  unfold SceneCard.parseDescription. split.
  - intros Hnone. rewrite readLines_unnamed by done. by destruct k.
  - intros front line back -> Hline Hback. rewrite foldl_app. cbn [foldl].
    by rewrite readLines_unnamed, readLine_field, Hline.
Qed.

Lemma scene_section_is_read_from_its_last_line_witness :
  field Music (SceneCard.parseDescription (JS.text "visuals: a storm")) = []
  ∧ field Music
      (SceneCard.parseDescription
         (JS.text "music: drums" ++ [JS.newline] ++ JS.text "a storm" ++ [JS.newline]
          ++ JS.text "music:  soft piano "))
    = JS.trim (drop (length (keyText Music)) (JS.text "music:  soft piano ")).
Proof.
  split.
  - apply (proj1 (scene_section_is_read_from_its_last_line Music
                    (JS.text "visuals: a storm"))).
    vm_compute. by repeat constructor.
  - apply (proj2 (scene_section_is_read_from_its_last_line Music
                    (JS.text "music: drums" ++ [JS.newline] ++ JS.text "a storm"
                     ++ [JS.newline] ++ JS.text "music:  soft piano "))
             [JS.text "music: drums"; JS.text "a storm"] (JS.text "music:  soft piano ") []).
    + by vm_compute.
    + by vm_compute.
    + constructor.
Defined.

(** ** The results view: a merge from request to answer *)

(** A merge that was requested ends with the merging flag off, whatever
    the answer, and without touching the retries in flight; the merged
    video shown afterwards is the one of the answer, and none at all when
    the merge failed, even if an earlier merge had succeeded. *)
Theorem results_merge_settles (videos : list Home.GeneratedVideo)
    (projectId : option string) (d d1 : VideosDisplay.State)
    (effs : list VideosDisplay.Effect)
    (r : JS.Settled (bool * VideosDisplay.MergeResponse)) :
  VideosDisplay.handleMergeVideos videos projectId d = (d1, effs, true) ->
  VideosDisplay.merging d1 = true
  ∧ VideosDisplay.merging (VideosDisplay.resumeMerge r d1).1 = false
  ∧ VideosDisplay.retryingScenes (VideosDisplay.resumeMerge r d1).1
    = VideosDisplay.retryingScenes d
  ∧ VideosDisplay.mergedVideoUrl (VideosDisplay.resumeMerge r d1).1
    = match r with
      | JS.Resolved (true, result) => VideosDisplay.responseUrl result
      | _ => None
      end.
Proof.
  unfold VideosDisplay.handleMergeVideos. destruct (_ <? 2)%nat; [done |].
  intros [= <- _]. by destruct r as [[[] result] | e].
Qed.

Lemma results_merge_settles_witness :
  VideosDisplay.merging
    (VideosDisplay.handleMergeVideos
       [video 1 (Some "/videos/1.mp4") "completed"; video 2 (Some "/videos/2.mp4") "completed"]
       None earlierMerge).1.1 = true
  ∧ VideosDisplay.merging
      (VideosDisplay.resumeMerge (JS.Rejected JS.OtherValue)
         (VideosDisplay.handleMergeVideos
            [video 1 (Some "/videos/1.mp4") "completed";
             video 2 (Some "/videos/2.mp4") "completed"]
            None earlierMerge).1.1).1 = false
  ∧ VideosDisplay.retryingScenes
      (VideosDisplay.resumeMerge (JS.Rejected JS.OtherValue)
         (VideosDisplay.handleMergeVideos
            [video 1 (Some "/videos/1.mp4") "completed";
             video 2 (Some "/videos/2.mp4") "completed"]
            None earlierMerge).1.1).1
    = VideosDisplay.retryingScenes earlierMerge
  ∧ VideosDisplay.mergedVideoUrl
      (VideosDisplay.resumeMerge (JS.Rejected JS.OtherValue)
         (VideosDisplay.handleMergeVideos
            [video 1 (Some "/videos/1.mp4") "completed";
             video 2 (Some "/videos/2.mp4") "completed"]
            None earlierMerge).1.1).1
    = None.
Proof.
  apply (results_merge_settles
           [video 1 (Some "/videos/1.mp4") "completed"; video 2 (Some "/videos/2.mp4") "completed"]
           None earlierMerge _
           [VideosDisplay.PostMergeVideos
              (VideosDisplay.videosToMerge
                 [video 1 (Some "/videos/1.mp4") "completed";
                  video 2 (Some "/videos/2.mp4") "completed"]) None]
           (JS.Rejected JS.OtherValue)).
  reflexivity.
Defined.

(** ** Retry all failed: what it leaves alone *)
Section RetryAllMore.
Import Home.

Lemma retryLoop_onlyScenes sur pending : ∀ turn open st,
  quiet sur ->
  onlyScenes (fun n => n ∈ pending) (generatedVideos st)
    (generatedVideos (retryLoop sur turn pending open st).1.1)
  ∧ scenes (retryLoop sur turn pending open st).1.1 = scenes st.
Proof.
  intros turn open st Hquiet. revert turn open st.
  induction pending as [|n rest IH]; intros turn open st.
  { cbn. split; [apply onlyScenes_refl | done]. }
  cbn [retryLoop].
  assert (∀ turn' open' st', onlyScenes (fun m => m ∈ n :: rest) (generatedVideos st')
                         (generatedVideos (retryLoop sur turn' rest open' st').1.1)) as Hrest.
  { intros turn' open' st'. eapply onlyScenes_weaken; [| apply IH]. intros m Hm. by right. }
  destruct (readNow open false _ st); [| split; [apply Hrest | apply IH]].
  pose proof (awaitRetryVideo_onlyScenes (settle sur turn) n st) as [Hone Hsc].
  destruct (awaitRetryVideo (settle sur turn) n st) as [[st1 effs1] next1].
  cbn [fst] in Hone, Hsc. rewrite Hquiet.
  match goal with |- context [retryLoop sur (S turn) rest ?o st1] =>
    specialize (Hrest (S turn) o st1); destruct (IH (S turn) o st1) as [_ Hsc'];
    destruct (retryLoop sur (S turn) rest o st1) as [[st2 effs2] calls]
  end.
  cbn [fst] in *.
  split; [| congruence].
  eapply onlyScenes_trans; [| exact Hrest].
  eapply onlyScenes_weaken; [| exact Hone]. intros m <-. by left.
Qed.
End RetryAllMore.

(** While nothing else changes the page, "retry all failed" touches only
    the videos of the scenes that were failed when it was called: every
    other video, completed or still generating, is afterwards exactly what
    it was, and no video is added, removed or moved. *)
Theorem retry_all_touches_only_failed_scenes (sur : Home.Surroundings) (open : bool)
    (st : Home.State) :
  quiet sur ->
  onlyScenes (fun n => n ∈ Home.failedSceneNumbers st) (Home.generatedVideos st)
    (Home.generatedVideos (Home.handleRetryAllFailed sur open st).1.1)
  ∧ Home.scenes (Home.handleRetryAllFailed sur open st).1.1 = Home.scenes st.
Proof.
  intros Hquiet. unfold Home.handleRetryAllFailed, Home.readNow at 1.
  destruct open; [by apply retryLoop_onlyScenes |].
  cbn. split; [apply onlyScenes_refl | done].
Qed.

Lemma retry_all_touches_only_failed_scenes_witness :
  onlyScenes (fun n => n ∈ Home.failedSceneNumbers storyPage)
    (Home.generatedVideos storyPage)
    (Home.generatedVideos (Home.handleRetryAllFailed calm true storyPage).1.1)
  ∧ Home.scenes (Home.handleRetryAllFailed calm true storyPage).1.1 = Home.scenes storyPage.
Proof.
  apply (retry_all_touches_only_failed_scenes calm true storyPage). by intros t st.
Defined.

(** ** Scene numbers in titles and time stamps in URLs *)
Section Decimal.

Lemma uint_digits d :
  Forall (fun c => History.isDigit c = true)
    (list_ascii_of_string (NilEmpty.string_of_uint d)).
Proof. induction d; cbn [NilEmpty.string_of_uint list_ascii_of_string]; by constructor. Qed.

Lemma decimal_uint (n : N) :
  Home.decimal n = NilEmpty.string_of_uint (N.to_uint n) ∧ Home.decimal n ≠ EmptyString.
Proof.
  unfold Home.decimal. destruct n as [|p]; [done |]. cbn [N.to_uint].
  pose proof (DecimalPos.Unsigned.to_uint_nonnil p) as Hnil.
  destruct (Pos.to_uint p); done.
Qed.

Lemma digitsValue_acc d : ∀ p,
  fold_left (fun acc c => (10 * acc + (Z.of_nat (nat_of_ascii c) - 48))%Z)
    (list_ascii_of_string (NilEmpty.string_of_uint d)) (Z.pos p)
  = Z.pos (Pos.of_uint_acc d p).
Proof.
  induction d; intros p;
    cbn [NilEmpty.string_of_uint list_ascii_of_string fold_left Pos.of_uint_acc];
    [done | rewrite <- IHd; f_equal; vm_compute (Z.of_nat (nat_of_ascii _)); lia ..].
Qed.

Lemma digitsValue_uint d :
  History.digitsValue (list_ascii_of_string (NilEmpty.string_of_uint d))
  = Z.of_N (Pos.of_uint d).
Proof.
  unfold History.digitsValue.
  induction d;
    cbn [NilEmpty.string_of_uint list_ascii_of_string fold_left Pos.of_uint];
    [done | exact IHd | apply (digitsValue_acc d) ..].
Qed.

Lemma digitsValue_decimal (n : N) :
  History.digitsValue (list_ascii_of_string (Home.decimal n)) = Z.of_N n.
Proof.
  destruct (decimal_uint n) as [-> _]. rewrite digitsValue_uint.
  change (Pos.of_uint (N.to_uint n)) with (N.of_uint (N.to_uint n)).
  by rewrite DecimalN.Unsigned.of_to.
Qed.

Lemma parseInt_decimal (n : N) :
  History.parseInt (list_ascii_of_string (Home.decimal n)) = JS.toDouble (Z.of_N n).
Proof. unfold History.parseInt. by rewrite digitsValue_decimal. Qed.

Lemma toDouble_exact (z : Z) : (0 <= z <= 2 ^ 53)%Z -> JS.toDouble z = z.
Proof.
  intros [Hpos Hle]. destruct (Z.eq_dec z (2 ^ 53)%Z) as [-> | Hne]; [by vm_compute |].
  unfold JS.toDouble. rewrite Z.abs_eq by done.
  destruct (Z.leb_spec (Z.log2 z + 1) 53) as [_ | Hbits]; [done |].
  destruct (Z.eq_dec z 0%Z) as [-> | Hz]; [by vm_compute in Hbits |].
  assert (Z.log2 z < 53)%Z; [| lia]. apply Z.log2_lt_pow2; lia.
Qed.








Lemma digitRun_app s rest :
  Forall (fun c => History.isDigit c = true) (list_ascii_of_string s) ->
  endsNumber rest ->
  History.digitRun (s +:+ rest) = list_ascii_of_string s.
Proof.
  intros Hs Hrest.
  induction s as [|c s IH].
  - change (EmptyString +:+ rest) with rest.
    destruct rest as [|c rest]; [done |]. unfold endsNumber in Hrest.
    cbn [History.digitRun list_ascii_of_string]. by rewrite Hrest.
  - change (String c s +:+ rest) with (String c (s +:+ rest)).
    cbn [History.digitRun list_ascii_of_string] in *.
    apply Forall_cons in Hs as [-> Hs]. f_equal. by apply IH.
Qed.

Lemma sceneDigits_here s rest ds :
  History.afterPrefix "Scene " s = Some rest -> History.digitRun rest = ds -> ds ≠ [] ->
  History.sceneDigits s = Some ds.
Proof.
  intros Hp Hd Hne. destruct s as [|c s]; [done |].
  cbn [History.sceneDigits]. rewrite Hp, Hd. by destruct ds.
Qed.

Lemma countChar_app c s t : countChar c (s +:+ t) = (countChar c s + countChar c t)%nat.
Proof.
  induction s as [|x s IH]; [done |].
  change (String x s +:+ t) with (String x (s +:+ t)). cbn [countChar]. rewrite IH. lia.
Qed.

Lemma countChar_digits c s :
  History.isDigit c = false ->
  Forall (fun x => History.isDigit x = true) (list_ascii_of_string s) ->
  countChar c s = 0%nat.
Proof.
  intros Hc. induction s as [|x s IH]; [done |].
  cbn [countChar list_ascii_of_string].
  intros [Hx Hs]%Forall_cons. rewrite IH by done.
  case_bool_decide; [congruence | done].
Qed.

Lemma includes_countChar c s : JS.includes c s = true <-> (0 < countChar c s)%nat.
Proof.
  induction s as [|x s IH]; cbn [JS.includes countChar]; [split; [done | lia] |].
  case_bool_decide as Hx; [split; [lia | done] |]. exact IH.
Qed.
End Decimal.

Lemma afterPrefix_scene (rest : string) :
  History.afterPrefix "Scene " ("Scene " +:+ rest) = Some rest.
Proof.
  change ("Scene " +:+ rest)
    with (String "S" (String "c" (String "e" (String "n" (String "e" (String " " rest)))))).
  cbn [History.afterPrefix]. by rewrite !bool_decide_eq_true_2 by done.
Qed.

Lemma sceneOf_numbered (v : History.VideoHistory) (n : N) (rest : string) :
  History.title v = Some ("Scene " +:+ Home.decimal n +:+ rest) -> endsNumber rest ->
  History.sceneOf v = JS.toDouble (Z.of_N n).
Proof.
  intros Htitle Hrest. unfold History.sceneOf. rewrite Htitle.
  destruct (decimal_uint n) as [Heq Hne].
  rewrite (sceneDigits_here _ (Home.decimal n +:+ rest)
             (list_ascii_of_string (Home.decimal n))).
  - apply parseInt_decimal.
  - apply afterPrefix_scene.
  - apply digitRun_app; [| done]. rewrite Heq. apply uint_digits.
  - destruct (Home.decimal n); done.
Qed.


(** The history view reads a title of the form "Scene N", whatever
    follows the number, as the double nearest to N, which is N itself up
    to 2^53: videos titled this way are merged in scene order. *)
Theorem scene_number_is_read_back_from_title (v : History.VideoHistory) (n : N)
    (rest : string) :
  History.title v = Some ("Scene " +:+ Home.decimal n +:+ rest) -> endsNumber rest ->
  History.sceneOf v = JS.toDouble (Z.of_N n)
  ∧ ((n <= 2 ^ 53)%N -> History.sceneOf v = Z.of_N n).
Proof.
  intros Htitle Hrest. rewrite (sceneOf_numbered v n rest Htitle Hrest).
  split; [done |]. intros Hn. apply toDouble_exact.
  change (2 ^ 53)%Z with (Z.of_N (2 ^ 53)). lia.
Qed.

Lemma scene_number_is_read_back_from_title_witness :
  History.sceneOf (titled "a" "Scene 12: The storm" "a.mp4") = JS.toDouble 12
  ∧ ((12 <= 2 ^ 53)%N
     -> History.sceneOf (titled "a" "Scene 12: The storm" "a.mp4") = 12%Z).
Proof.
  apply (scene_number_is_read_back_from_title (titled "a" "Scene 12: The storm" "a.mp4")
           12 ": The storm"); [reflexivity | reflexivity].
Defined.



(** From 10^21 on a number is written with an exponent, and the history
    view reads the digit before the exponent as the scene number; above
    2^53 a number is read and written as the nearest double. *)
Example fallback_title_beyond_range :
  Home.decimalZ (10 ^ 21) = "1e+21"
  ∧ History.sceneOf (titled "a" ("Scene " +:+ Home.decimalZ (10 ^ 21)) "/videos/1.mp4") = 1%Z
  ∧ History.sceneOf (titled "a" "Scene 9007199254740993" "/videos/1.mp4")
    = 9007199254740992%Z
  ∧ Home.decimalZ (2 ^ 53 + 1) = "9007199254740992"
  ∧ Home.decimalZ (2 ^ 70) = "1.1805916207174113e+21"
  ∧ Home.decimalZ 123456789012345678901 = "123456789012345680000".
Proof. by vm_compute. Qed.

(** The URL stored for a regenerated video is the provider's URL followed
    by a time stamp parameter, joined so that the result has exactly one
    question mark when the URL had none and no new one otherwise; without
    a URL nothing is stored. *)
Theorem cache_busted_url_is_well_formed (url : option string) (now : N) :
  (JS.truthy url = false -> Home.cacheBustedUrl url now = None)
  ∧ ∀ u, url = Some u -> u ≠ EmptyString ->
      ∃ sep,
        Home.cacheBustedUrl url now = Some (u +:+ sep +:+ "t=" +:+ Home.decimal now)
        ∧ countChar "?" (u +:+ sep +:+ "t=" +:+ Home.decimal now)
          = Nat.max 1 (countChar "?" u).
Proof.
  unfold Home.cacheBustedUrl. split; [by intros -> |].
  intros u -> Hu. cbn [JS.truthy default]. unfold id.
  rewrite bool_decide_eq_false_2 by done. cbn [negb]. eexists. split; [reflexivity |].
  assert (countChar "?" (Home.decimal now) = 0%nat) as Hdigits.
  { apply countChar_digits; [done |].
    destruct (decimal_uint now) as [-> _]. apply uint_digits. }
  assert (countChar "?" "&" = 0%nat ∧ countChar "?" "?" = 1%nat
          ∧ countChar "?" "t=" = 0%nat) as (Hamp & Hmark & Hstamp) by done.
  pose proof (includes_countChar "?" u) as Hinc.
  destruct (JS.includes "?" u); rewrite !countChar_app, Hdigits, Hstamp, ?Hamp, ?Hmark.
  - assert (0 < countChar "?" u)%nat by (by apply Hinc). lia.
  - assert (¬ (0 < countChar "?" u)%nat) by (intros H; by apply Hinc in H). lia.
Qed.

Lemma cache_busted_url_is_well_formed_witness :
  Home.cacheBustedUrl None 1700 = None
  ∧ ∃ sep,
      Home.cacheBustedUrl (Some "/videos/2.mp4?v=1") 1700
      = Some ("/videos/2.mp4?v=1" +:+ sep +:+ "t=" +:+ Home.decimal 1700)
      ∧ countChar "?" ("/videos/2.mp4?v=1" +:+ sep +:+ "t=" +:+ Home.decimal 1700)
        = Nat.max 1 (countChar "?" "/videos/2.mp4?v=1").
Proof.
  split.
  - apply (proj1 (cache_busted_url_is_well_formed None 1700)). reflexivity.
  - apply (proj2 (cache_busted_url_is_well_formed (Some "/videos/2.mp4?v=1") 1700)
             "/videos/2.mp4?v=1"); [reflexivity | discriminate].
Defined.
